(** * badgr-server: staff permissions, e-mail bookkeeping, terms, ranks, federated login

    A shallow embedding of
      - [apps/staff/mixins.py]   ([PermissionedModelMixin]),
      - [apps/badgeuser/models.py] ([CachedEmailAddress], [EmailAddressVariant],
        [BadgeUser], [TermsAgreement], [GroupEntity]),
      - [apps/badgrsocialauth/providers/surf_conext/views.py] ([callback]),
    together with the properties the specification states about them.

    Python dictionaries are [gmap]s, [None] is [option], database tables are
    lists of rows in primary-key order -- with the foreign keys and unique
    columns the database enforces, a refused write being [IntegrityError] --,
    and a raised exception is the [Raise] branch of [result]. *)

From Stdlib Require Import ZArith Ascii.
From stdpp Require Import gmap strings list fin_maps sorting pretty.

Local Open Scope Z_scope.

(** ** Exceptions and the error monad *)

Inductive exception : Type :=
  | AttributeError
  | KeyError
  | IndexError
  | ValueError
  | TypeError
  | ValidationError (message : string)
  | DoesNotExist
  | MultipleObjectsReturned
  | IntegrityError
  | RuntimeError
  | RequestException.

Inductive result (A : Type) : Type :=
  | Return (a : A)
  | Raise (e : exception).
Arguments Return {A} a.
Arguments Raise {A} e.

#[global] Instance result_ret : MRet result := @Return.
#[global] Instance result_bind : MBind result :=
  fun A B f m => match m with Return a => f a | Raise e => Raise e end.

(** ** [apps/staff/mixins.py] *)

Module Staff.

(** A staff membership: the user it belongs to and its permission
    dictionary ([staff.permissions], flag name to value; Python's [bool] is an
    [int], so values are integers ordered by [>]). *)
Record StaffMembership : Type := {
  user : Z;
  permissions : gmap string Z
}.

(** An organizational node with its (cached) staff and its parent pointer;
    [parent = None] stands for a node on which [self.parent.get_permissions]
    raises [AttributeError] (no [parent] attribute, or [parent] is [None]). *)
#[warnings="-register-all"]
Inductive Entity : Type :=
  Build_Entity (cached_staff : list StaffMembership) (parent : option Entity).

Definition staff_items (self : Entity) : list StaffMembership :=
  match self with Build_Entity cached_staff _ => cached_staff end.

Definition parent (self : Entity) : option Entity :=
  match self with Build_Entity _ p => p end.

(** [get_staff_member]: the first membership of [user], or [None]. *)
Fixpoint get_staff_member_loop (items : list StaffMembership) (usr : Z)
  : option StaffMembership :=
  match items with
  | [] => None
  | staff :: rest =>
      if user staff =? usr then Some staff else get_staff_member_loop rest usr
  end.

Definition get_staff_member (self : Entity) (usr : Z) : option StaffMembership :=
  get_staff_member_loop (staff_items self) usr.

Definition _get_local_permissions (self : Entity) (usr : Z)
  : option (gmap string Z) :=
  match get_staff_member self usr with
  | Some staff => Some (permissions staff)
  | None => None
  end.

(** Python truthiness of [None] / a dictionary. *)
Definition truthy (perms : option (gmap string Z)) : bool :=
  match perms with
  | None => false
  | Some d => negb (bool_decide (d = ∅))
  end.

(** [d[key]] *)
Definition getitem (d : gmap string Z) (key : string) : result Z :=
  match d !! key with
  | Some v => Return v
  | None => Raise KeyError
  end.

(** The body of [for key in local_perms: combined_perms[key] = ...]. *)
Fixpoint combine_loop (keys : list string) (local_perms parent_perms : gmap string Z)
    (combined_perms : gmap string Z) : result (gmap string Z) :=
  match keys with
  | [] => Return combined_perms
  | key :: rest =>
      l ← getitem local_perms key;
      p ← getitem parent_perms key;
      v ← (if l >? p then getitem local_perms key else getitem parent_perms key);
      combine_loop rest local_perms parent_perms (<[key := v]> combined_perms)
  end.

(** Iteration over a dictionary visits each of its keys once. *)
Definition keys (d : gmap string Z) : list string := (map_to_list d).*1.

(** [try: ... except AttributeError: handler] *)
Definition except_AttributeError {A} (body : result A) (handler : result A) : result A :=
  match body with
  | Raise AttributeError => handler
  | r => r
  end.

Fixpoint get_permissions (self : Entity) (usr : Z) : result (option (gmap string Z)) :=
  except_AttributeError
    (match self with
     | Build_Entity _ None => Raise AttributeError
     | Build_Entity _ (Some p) =>
         parent_perms ← get_permissions p usr;
         let local_perms := _get_local_permissions self usr in
         if negb (truthy parent_perms) then Return local_perms
         else if negb (truthy local_perms) then Return parent_perms
         else
           let l := default ∅ local_perms in
           let q := default ∅ parent_perms in
           combined_perms ← combine_loop (keys l) l q ∅;
           Return (Some combined_perms)
     end)
    (Return (_get_local_permissions self usr)).

(** The merge as the specification words it: per key the maximum of the two
    values, a value present on one side only is kept, nothing on either side
    gives [None]. *)
Definition spec_merge (local_perms parent_perms : option (gmap string Z))
  : option (gmap string Z) :=
  match local_perms, parent_perms with
  | Some l, Some q => Some (union_with (fun a b => Some (Z.max a b)) l q)
  | Some l, None => Some l
  | None, Some q => Some q
  | None, None => None
  end.

Fixpoint spec_get_permissions (self : Entity) (usr : Z) : option (gmap string Z) :=
  match self with
  | Build_Entity _ None => _get_local_permissions self usr
  | Build_Entity _ (Some p) =>
      spec_merge (_get_local_permissions self usr) (spec_get_permissions p usr)
  end.

(** Every staff membership on the node and on its ancestors carries the key
    set [K]. *)
Fixpoint uniform_keys (K : gset string) (self : Entity) : Prop :=
  match self with
  | Build_Entity items p =>
      Forall (fun staff => dom (permissions staff) = K) items ∧
      match p with
      | None => True
      | Some e => uniform_keys K e
      end
  end.

(** Induction along the parent pointers. *)
Fixpoint Entity_parent_ind (P : Entity → Prop)
    (Hroot : ∀ items, P (Build_Entity items None))
    (Hstep : ∀ items p, P p → P (Build_Entity items (Some p)))
    (self : Entity) : P self :=
  match self with
  | Build_Entity items None => Hroot items
  | Build_Entity items (Some p) => Hstep items p (Entity_parent_ind P Hroot Hstep p)
  end.

Lemma gt_else_max (l p : Z) : (if l >? p then l else p) = Z.max l p.
Proof. destruct (Z.gtb_spec l p); lia. Qed.

Lemma elem_of_keys (d : gmap string Z) (k : string) : k ∈ keys d ↔ is_Some (d !! k).
Proof.
  unfold keys. rewrite list_elem_of_fmap. split.
  - intros [[k' v] [-> Hin]]. apply elem_of_map_to_list in Hin. by exists v.
  - intros [v Hv]. exists (k, v). split; [done | by apply elem_of_map_to_list].
Qed.

Lemma truthy_Some (d : gmap string Z) : truthy (Some d) = true ↔ d ≠ ∅.
Proof.
  unfold truthy. rewrite negb_true_iff, bool_decide_eq_false. done.
Qed.

Lemma combine_loop_step key rest (l q acc : gmap string Z) a b :
  l !! key = Some a → q !! key = Some b →
  combine_loop (key :: rest) l q acc
  = combine_loop rest l q (<[key := Z.max a b]> acc).
Proof.
  intros Hl Hq. cbn [combine_loop]. unfold getitem. rewrite Hl, Hq. cbn.
  rewrite <- (gt_else_max a b). destruct (a >? b); cbn; by rewrite ?Hl, ?Hq.
Qed.

Lemma combine_loop_ok ks (l q acc : gmap string Z) :
  (∀ k, k ∈ ks → is_Some (l !! k) ∧ is_Some (q !! k)) →
  ∃ r, combine_loop ks l q acc = Return r ∧
       ∀ k, r !! k = if decide (k ∈ ks)
                     then a ← l !! k; b ← q !! k; Some (Z.max a b)
                     else acc !! k.
Proof.
  revert acc. induction ks as [|key rest IH]; intros acc Hks.
  - exists acc. split; [done|]. intros k. case_decide as Hin; [|done].
    by apply elem_of_nil in Hin.
  - destruct (Hks key) as [[a Ha] [b Hb]]; [left|].
    rewrite (combine_loop_step _ _ _ _ _ a b) by done.
    destruct (IH (<[key := Z.max a b]> acc)) as (r & Hr & Hlook).
    { intros k Hk. apply Hks. by right. }
    exists r. split; [done|]. intros k. rewrite Hlook.
    destruct (decide (k = key)) as [->|Hne].
    + rewrite (decide_True (P := key ∈ key :: rest)) by left.
      case_decide; rewrite ?Ha, ?Hb, ?lookup_insert_eq; done.
    + rewrite lookup_insert_ne by done.
      case_decide as Hin.
      * rewrite decide_True; [done | by right].
      * rewrite decide_False; [done|]. intros [?|?]%elem_of_cons; done.
Qed.

Lemma combine_loop_fail ks (l q acc : gmap string Z) :
  (∀ k, k ∈ ks → is_Some (l !! k)) →
  (∃ k, k ∈ ks ∧ q !! k = None) →
  combine_loop ks l q acc = Raise KeyError.
Proof.
  revert acc. induction ks as [|key rest IH]; intros acc Hl (k & Hin & Hq).
  - by apply elem_of_nil in Hin.
  - destruct (Hl key) as [a Ha]; [left|].
    destruct (q !! key) as [b|] eqn:Hb.
    + rewrite (combine_loop_step _ _ _ _ _ a b) by done.
      apply IH.
      * intros k' Hk'. apply Hl. by right.
      * exists k. split; [|done]. apply elem_of_cons in Hin as [->|Hin]; [congruence|done].
    + cbn [combine_loop]. unfold getitem. rewrite Ha, Hb. done.
Qed.

Lemma get_permissions_root items usr :
  get_permissions (Build_Entity items None) usr
  = Return (_get_local_permissions (Build_Entity items None) usr).
Proof. reflexivity. Qed.

Lemma get_permissions_no_AttributeError self usr :
  get_permissions self usr ≠ Raise AttributeError.
Proof.
  destruct self as [items [p|]]; [|done].
  cbn [get_permissions]. unfold except_AttributeError.
  by destruct (_ ≫= _) as [?|[]].
Qed.

Lemma combine_loop_no_AttributeError ks (l q acc : gmap string Z) :
  combine_loop ks l q acc ≠ Raise AttributeError.
Proof.
  revert acc. induction ks as [|key rest IH]; intros acc; [done|].
  cbn [combine_loop]. unfold getitem.
  destruct (l !! key) as [a|]; [|done]. destruct (q !! key) as [b|]; [|done].
  cbn. destruct (a >? b); cbn; apply IH.
Qed.

(** One level of the climb, with the parent's answer in hand. *)
Lemma get_permissions_child items p usr parent_perms :
  get_permissions p usr = Return parent_perms →
  get_permissions (Build_Entity items (Some p)) usr
  = let self := Build_Entity items (Some p) in
    let local_perms := _get_local_permissions self usr in
    if negb (truthy parent_perms) then Return local_perms
    else if negb (truthy local_perms) then Return parent_perms
    else
      combined_perms ← combine_loop (keys (default ∅ local_perms))
                         (default ∅ local_perms) (default ∅ parent_perms) ∅;
      Return (Some combined_perms).
Proof.
  intros Hp. cbn [get_permissions]. rewrite Hp. cbn.
  destruct (negb (truthy parent_perms)); [done|].
  destruct (negb (truthy _)); [done|].
  destruct (combine_loop _ _ _ _) as [r|e] eqn:Hc; [done|].
  destruct e; try done. by apply combine_loop_no_AttributeError in Hc.
Qed.

Lemma get_permissions_child_raise items p usr e :
  get_permissions p usr = Raise e →
  get_permissions (Build_Entity items (Some p)) usr = Raise e.
Proof.
  intros Hp. cbn [get_permissions]. rewrite Hp. cbn.
  destruct e; try done. by apply get_permissions_no_AttributeError in Hp.
Qed.

(** Under a shared key set the answer, when there is one, carries that set. *)
Lemma local_permissions_dom K self usr l :
  uniform_keys K self → _get_local_permissions self usr = Some l → dom l = K.
Proof.
  destruct self as [items p]. intros [Hitems _].
  unfold _get_local_permissions, get_staff_member. cbn [staff_items].
  induction Hitems as [|staff rest Hstaff _ IH]; cbn; [done|].
  destruct (user staff =? usr); [|done]. by intros [= <-].
Qed.

Lemma spec_get_permissions_dom K self usr d :
  uniform_keys K self → spec_get_permissions self usr = Some d → dom d = K.
Proof.
  revert d. induction self as [items|items p IH] using Entity_parent_ind;
    intros d HK Hd.
  - by eapply local_permissions_dom.
  - cbn [spec_get_permissions] in Hd.
    pose proof (fun l => local_permissions_dom K _ usr l HK) as Hloc.
    destruct HK as [_ HKp]. specialize (fun d => IH d HKp).
    destruct (_get_local_permissions _ usr) as [l|], (spec_get_permissions p usr) as [q|];
      cbn in Hd; simplify_eq; eauto.
    specialize (Hloc l eq_refl). specialize (IH q eq_refl).
    apply set_eq. intros k.
    assert (k ∈ dom l ↔ k ∈ dom q) as Hlq by (by rewrite Hloc, IH).
    rewrite <- Hloc. rewrite !elem_of_dom in *. rewrite lookup_union_with.
    destruct (l !! k), (q !! k); cbn; split; eauto.
    intros _. by apply Hlq.
Qed.

(** The climb agrees with the merge of the specification as soon as the local
    dictionary and the parent's answer carry the same (non-empty) key set. *)
Lemma combine_same_keys (l q : gmap string Z) :
  dom l = dom q →
  combine_loop (keys l) l q ∅
  = Return (union_with (fun a b => Some (Z.max a b)) l q).
Proof.
  intros Hdom.
  assert (∀ k, is_Some (l !! k) ↔ is_Some (q !! k)) as Hk.
  { intros k. by rewrite <- !elem_of_dom, Hdom. }
  destruct (combine_loop_ok (keys l) l q ∅) as (r & -> & Hr).
  { intros k Hin%elem_of_keys. split; [done | by apply Hk]. }
  f_equal. apply map_eq. intros k. rewrite Hr, lookup_union_with.
  specialize (Hk k). case_decide as Hin.
  - apply elem_of_keys in Hin as Hl. destruct Hl as [a Ha].
    destruct (proj1 Hk (ex_intro _ a Ha)) as [b Hb]. by rewrite Ha, Hb.
  - rewrite elem_of_keys in Hin. rewrite lookup_empty.
    destruct (l !! k) as [a|] eqn:Ha; [by destruct Hin; eauto|].
    destruct (q !! k) as [b|] eqn:Hb; [|done].
    destruct (proj2 Hk (ex_intro _ b eq_refl)) as [? ?]. done.
Qed.

Definition staff_tree_mismatch : Entity :=
  Build_Entity [ {| user := 7; permissions := {[ "may_award"%string := 1 ]} |} ]
    (Some (Build_Entity
             [ {| user := 7; permissions := {[ "may_read"%string := 1 ]} |} ] None)).

Definition staff_tree_uniform : Entity :=
  Build_Entity
    [ {| user := 7;
         permissions := <[ "may_award"%string := 1 ]> {[ "may_read"%string := 0 ]} |} ]
    (Some (Build_Entity
       [ {| user := 9;
            permissions := <[ "may_award"%string := 1 ]> {[ "may_read"%string := 1 ]} |} ]
       (Some (Build_Entity
          [ {| user := 7;
               permissions := <[ "may_award"%string := 0 ]> {[ "may_read"%string := 1 ]} |} ]
          None)))).

(** With one non-empty key set on the whole path, the climb computes the
    merge of the specification. *)
Lemma get_permissions_uniform (K : gset string) (self : Entity) (usr : Z) :
  K ≠ ∅ →
  uniform_keys K self →
  get_permissions self usr = Return (spec_get_permissions self usr).
Proof.
  intros HK. induction self as [items|items p IH] using Entity_parent_ind;
    intros Hu; [done|].
  pose proof (fun l => local_permissions_dom K _ usr l Hu) as Hloc.
  pose proof (spec_get_permissions_dom K p usr) as Hpar.
  destruct Hu as [_ Hup]. specialize (IH Hup). specialize (fun d => Hpar d Hup).
  rewrite (get_permissions_child _ _ _ _ IH). cbn zeta.
  cbn [spec_get_permissions].
  destruct (_get_local_permissions _ usr) as [l|];
    destruct (spec_get_permissions p usr) as [q|]; cbn [spec_merge].
  - specialize (Hloc l eq_refl). specialize (Hpar q eq_refl).
    assert (truthy (Some l) = true) as ->.
    { apply truthy_Some. intros ->. by rewrite dom_empty_L in Hloc. }
    assert (truthy (Some q) = true) as ->.
    { apply truthy_Some. intros ->. by rewrite dom_empty_L in Hpar. }
    cbn [negb default]. unfold id.
    rewrite combine_same_keys by congruence. done.
  - done.
  - specialize (Hpar q eq_refl).
    assert (truthy (Some q) = true) as ->; [|done].
    apply truthy_Some. intros ->. by rewrite dom_empty_L in Hpar.
  - done.
Qed.

Definition staff_tree_extra_parent_key : Entity :=
  Build_Entity
    [ {| user := 7;
         permissions := <[ "may_award"%string := 1 ]> {[ "may_read"%string := 0 ]} |} ]
    (Some (Build_Entity
       [ {| user := 7;
            permissions := <[ "may_award"%string := 0 ]>
                             (<[ "may_read"%string := 1 ]> {[ "may_sign"%string := 1 ]}) |} ]
       None)).

Example get_permissions_extra_parent_key :
  get_permissions staff_tree_extra_parent_key 7
  = Return (Some (<[ "may_award"%string := 1 ]> {[ "may_read"%string := 1 ]})).
Proof. by vm_compute. Qed.

(** The loop over the local keys, when the parent's answer has them all. *)
Lemma combine_local_keys (l q : gmap string Z) :
  dom l ⊆ dom q →
  ∃ r, combine_loop (keys l) l q ∅ = Return r ∧
       dom r = dom l ∧
       (∀ k a b, l !! k = Some a → q !! k = Some b → r !! k = Some (Z.max a b)) ∧
       (∀ k, l !! k = None → r !! k = None).
Proof.
  intros Hsub.
  destruct (combine_loop_ok (keys l) l q ∅) as (r & Hrun & Hr).
  { intros k Hin%elem_of_keys. split; [done|].
    apply elem_of_dom, Hsub, elem_of_dom, Hin. }
  exists r. split; [done|].
  assert (∀ k, l !! k = None → r !! k = None) as Hnone.
  { intros k Hk. rewrite Hr, decide_False; [done|].
    rewrite elem_of_keys, Hk. by intros [? ?]. }
  assert (∀ k a b, l !! k = Some a → q !! k = Some b → r !! k = Some (Z.max a b))
    as Hsome.
  { intros k a b Ha Hb. rewrite Hr, decide_True, Ha, Hb; [done|].
    apply elem_of_keys. eauto. }
  split; [|done]. apply set_eq. intros k. rewrite !elem_of_dom. split.
  - intros Hrk. destruct (l !! k) eqn:Hlk; [eauto|].
    rewrite (Hnone k Hlk) in Hrk. by destruct Hrk.
  - intros [a Ha].
    assert (is_Some (q !! k)) as [b Hb]
      by (apply elem_of_dom, Hsub, elem_of_dom; eauto).
    rewrite (Hsome k a b Ha Hb). eauto.
Qed.

(** C1 (amended): [get_permissions] climbs the tree as follows.  A node
    without parent answers with its local permissions.  A node with a parent
    whose call returned answers with the local permissions when the parent's
    answer is [None] or empty, else with the parent's answer when the local
    permissions are [None] or empty, else -- provided every local key is a key
    of the parent's answer -- with a dictionary over the local keys holding per
    key the maximum of the local and the parent's value.  So, when every staff
    permission dictionary on the node and its ancestors carries one and the
    same non-empty key set, it returns the recursive max-wins merge: per key the
    maximum of the two values, the only existing side unchanged, [None] when
    neither exists. *)
Theorem get_permissions_max_wins (self : Entity) (usr : Z) :
  (∀ K, K ≠ ∅ → uniform_keys K self →
        get_permissions self usr = Return (spec_get_permissions self usr)) ∧
  (parent self = None →
   get_permissions self usr = Return (_get_local_permissions self usr)) ∧
  (∀ p parent_perms,
     parent self = Some p → get_permissions p usr = Return parent_perms →
     (truthy parent_perms = false →
      get_permissions self usr = Return (_get_local_permissions self usr)) ∧
     (truthy parent_perms = true → truthy (_get_local_permissions self usr) = false →
      get_permissions self usr = Return parent_perms) ∧
     (∀ l q, _get_local_permissions self usr = Some l → parent_perms = Some q →
             l ≠ ∅ → q ≠ ∅ → dom l ⊆ dom q →
             ∃ r, get_permissions self usr = Return (Some r) ∧ dom r = dom l ∧
                  ∀ k a b, l !! k = Some a → q !! k = Some b →
                           r !! k = Some (Z.max a b))).
Proof.
  split_and!.
  - intros K. apply get_permissions_uniform.
  - destruct self as [items [p|]]; [done|]. intros _. apply get_permissions_root.
  - destruct self as [items [p'|]]; [|done]. intros p parent_perms [= ->] Hparent.
    split_and!.
    + intros Hfalse. rewrite (get_permissions_child _ _ _ _ Hparent). cbn zeta.
      by rewrite Hfalse.
    + intros Htrue Hfalse. rewrite (get_permissions_child _ _ _ _ Hparent). cbn zeta.
      by rewrite Htrue, Hfalse.
    + intros l q Hlocal -> Hl%truthy_Some Hq%truthy_Some Hsub.
      rewrite (get_permissions_child _ _ _ _ Hparent). cbn zeta.
      rewrite Hlocal, Hl, Hq. cbn [negb default]. unfold id.
      destruct (combine_local_keys l q Hsub) as (r & -> & Hdom & Hmax & _).
      by exists r.
Qed.

Lemma get_permissions_max_wins_witness :
  ({[ "may_award"%string; "may_read"%string ]} : gset string) ≠ ∅ ∧
  uniform_keys {[ "may_award"%string; "may_read"%string ]} staff_tree_uniform ∧
  get_permissions staff_tree_uniform 7
  = Return (Some (<[ "may_award"%string := 1 ]> {[ "may_read"%string := 1 ]})).
Proof.
  assert (({[ "may_award"%string; "may_read"%string ]} : gset string) ≠ ∅) as HK
    by (apply (non_empty_inhabited_L "may_read"%string); set_solver).
  assert (uniform_keys {[ "may_award"%string; "may_read"%string ]} staff_tree_uniform)
    as Hu by (cbn; repeat split; repeat constructor).
  split; [exact HK|]. split; [exact Hu|].
  rewrite (proj1 (get_permissions_max_wins staff_tree_uniform 7) _ HK Hu).
  by vm_compute.
Defined.

(** C1 (as stated) fails: a local key the parent's answer lacks makes the
    climb raise [KeyError], where the stated merge would return both keys. *)
Lemma get_permissions_max_wins_counterexample :
  get_permissions staff_tree_mismatch 7 = Raise KeyError ∧
  spec_get_permissions staff_tree_mismatch 7
  = Some (<[ "may_award"%string := 1 ]> {[ "may_read"%string := 1 ]}) ∧
  get_permissions staff_tree_mismatch 7
  ≠ Return (spec_get_permissions staff_tree_mismatch 7).
Proof. by vm_compute. Qed.

(** C2: with a non-empty local dictionary [l] and a non-empty parent answer
    [q], the merged dictionary is built over exactly the keys of [l], each
    looked up in [q]: if every key of [l] is in [q] the result has the key set
    of [l] (a key of [q] alone is dropped) with the larger value per key, and a
    key of [l] missing from [q] makes the call raise [KeyError]. *)
Theorem get_permissions_local_key_set items p usr (l q : gmap string Z) :
  _get_local_permissions (Build_Entity items (Some p)) usr = Some l →
  l ≠ ∅ →
  get_permissions p usr = Return (Some q) →
  q ≠ ∅ →
  (dom l ⊆ dom q →
   ∃ r, get_permissions (Build_Entity items (Some p)) usr = Return (Some r) ∧
        dom r = dom l ∧
        (∀ k a b, l !! k = Some a → q !! k = Some b → r !! k = Some (Z.max a b)) ∧
        (∀ k, l !! k = None → r !! k = None)) ∧
  (∀ k, is_Some (l !! k) → q !! k = None →
        get_permissions (Build_Entity items (Some p)) usr = Raise KeyError).
Proof.
  intros Hlocal Hl Hparent Hq.
  rewrite (get_permissions_child _ _ _ _ Hparent). cbn zeta. rewrite Hlocal.
  apply truthy_Some in Hl, Hq. rewrite Hl, Hq. cbn [negb default]. unfold id.
  split.
  - intros Hsub. destruct (combine_local_keys l q Hsub) as (r & -> & Hdom & Hmax & Hnone).
    by exists r.
  - intros k Hk Hqk.
    rewrite (combine_loop_fail (keys l) l q ∅); [done| |].
    + by intros k' Hin%elem_of_keys.
    + exists k. split; [by apply elem_of_keys | done].
Qed.

Lemma get_permissions_local_key_set_witness :
  get_permissions staff_tree_mismatch 7 = Raise KeyError.
Proof.
  refine (proj2 (get_permissions_local_key_set
            [ {| user := 7; permissions := {[ "may_award"%string := 1 ]} |} ]
            (Build_Entity
               [ {| user := 7; permissions := {[ "may_read"%string := 1 ]} |} ] None)
            7 {[ "may_award"%string := 1 ]} {[ "may_read"%string := 1 ]}
            _ _ _ _) "may_award"%string _ _).
  - reflexivity.
  - apply insert_non_empty.
  - reflexivity.
  - apply insert_non_empty.
  - by exists 1.
  - reflexivity.
Defined.

End Staff.

(** ** [apps/badgeuser/models.py]: e-mail addresses and their variants *)

Module Accounts.

(** [str.lower()] on ASCII text. *)
Definition lower_ascii (c : Ascii.ascii) : Ascii.ascii :=
  let n := Ascii.N_of_ascii c in
  if ((65 <=? n) && (n <=? 90))%N then Ascii.ascii_of_N (n + 32) else c.

Fixpoint lower (s : string) : string :=
  match s with
  | EmptyString => EmptyString
  | String c rest => String (lower_ascii c) (lower rest)
  end.

(** *** Rows and instances *)

(** allauth's [EmailAddress] (of which [CachedEmailAddress] is a proxy). *)
Record EmailAddress : Type := {
  pk : Z;
  email : string;
  user_id : Z;
  primary : bool;
  verified : bool
}.

(** The columns of [BadgeUser] the e-mail code reads and writes. *)
Record BadgeUser : Type := {
  id : Z;
  user_email : string
}.

(** A stored [EmailAddressVariant]. *)
Record EmailAddressVariantRow : Type := {
  row_pk : Z;
  row_email : string;
  row_canonical_email_id : Z
}.

(** An [EmailAddressVariant] instance: [canonical_email] is the related object
    the instance holds (assigned by the constructor or by [is_valid]), [error]
    the attribute [is_valid] sets when it does not raise. *)
Record EmailAddressVariant : Type := {
  variant_pk : option Z;
  variant_email : string;
  canonical_email : option EmailAddress;
  error : option string
}.

(** One item of the list handed to the [email_items] setter:
    [d['email']] and [d.get('primary')]. *)
Record EmailData : Type := {
  data_email : string;
  data_primary : option bool
}.

#[global] Instance EmailAddress_eq_dec : EqDecision EmailAddress.
Proof. solve_decision. Defined.

#[global] Instance EmailData_eq_dec : EqDecision EmailData.
Proof. solve_decision. Defined.

Record Database : Type := {
  emailaddress : list EmailAddress;
  emailaddressvariant : list EmailAddressVariantRow;
  users : gmap Z BadgeUser
}.

(** The database together with the confirmation mails sent so far (a mail,
    once sent, is not undone by a rollback). *)
Record World : Type := {
  db : Database;
  outbox : list string
}.

Definition set_primary (value : bool) (e : EmailAddress) : EmailAddress :=
  {| pk := pk e; email := email e; user_id := user_id e;
     primary := value; verified := verified e |}.

Definition set_user (value : Z) (e : EmailAddress) : EmailAddress :=
  {| pk := pk e; email := email e; user_id := value;
     primary := primary e; verified := verified e |}.

Definition set_canonical_email (c : EmailAddress) (v : EmailAddressVariant)
  : EmailAddressVariant :=
  {| variant_pk := variant_pk v; variant_email := variant_email v;
     canonical_email := Some c; error := error v |}.

Definition set_error (message : string) (v : EmailAddressVariant)
  : EmailAddressVariant :=
  {| variant_pk := variant_pk v; variant_email := variant_email v;
     canonical_email := canonical_email v; error := Some message |}.

Definition set_variant_pk (k : Z) (v : EmailAddressVariant) : EmailAddressVariant :=
  {| variant_pk := Some k; variant_email := variant_email v;
     canonical_email := canonical_email v; error := error v |}.

(** *** State and exceptions *)

Definition M (A : Type) : Type := World → result A * World.

#[global] Instance M_ret : MRet M := fun A a w => (Return a, w).
#[global] Instance M_bind : MBind M :=
  fun A B f m w =>
    match m w with
    | (Return a, w') => f a w'
    | (Raise e, w') => (Raise e, w')
    end.

Definition raise {A} (e : exception) : M A := fun w => (Raise e, w).

Definition gets {A} (f : Database → A) : M A := fun w => (Return (f (db w)), w).

Definition modify (f : Database → Database) : M unit :=
  fun w => (Return tt, {| db := f (db w); outbox := outbox w |}).

(** [with transaction.atomic(): body] -- an exception leaving the block rolls
    the database back to where the block was entered. *)
Definition atomic {A} (body : M A) : M A :=
  fun w =>
    match body w with
    | (Raise e, w') => (Raise e, {| db := db w; outbox := outbox w' |})
    | r => r
    end.

Fixpoint for_each {A} (items : list A) (body : A → M unit) : M unit :=
  match items with
  | [] => mret tt
  | x :: rest => _ ← body x; for_each rest body
  end.

(** *** The object-relational layer *)

(** [QuerySet.get] on the rows a filter selected. *)
Definition orm_get {A} (matches : list A) : result A :=
  match matches with
  | [] => Raise DoesNotExist
  | [obj] => Return obj
  | _ => Raise MultipleObjectsReturned
  end.

(** The key of the next inserted row: a key above every stored one (which
    of them the database hands out is not looked at by the code). *)
Definition next_pk (pks : list Z) : Z := 1 + foldr Z.max 0 pks.

(** [Model.save]: update the row with this key, insert when there is none. *)
Definition insert_or_update (obj : EmailAddress) (rows : list EmailAddress)
  : list EmailAddress :=
  if bool_decide (pk obj ∈ pk <$> rows)
  then (fun r => if bool_decide (pk r = pk obj) then obj else r) <$> rows
  else rows ++ [obj].

Definition with_emailaddress (f : list EmailAddress → list EmailAddress)
    (d : Database) : Database :=
  {| emailaddress := f (emailaddress d);
     emailaddressvariant := emailaddressvariant d;
     users := users d |}.

Definition with_emailaddressvariant
    (f : list EmailAddressVariantRow → list EmailAddressVariantRow)
    (d : Database) : Database :=
  {| emailaddress := emailaddress d;
     emailaddressvariant := f (emailaddressvariant d);
     users := users d |}.

Definition with_users (f : gmap Z BadgeUser → gmap Z BadgeUser)
    (d : Database) : Database :=
  {| emailaddress := emailaddress d;
     emailaddressvariant := emailaddressvariant d;
     users := f (users d) |}.

(** [EmailAddress.save] (the parent class's [save]): the row with this key
    is updated, or inserted when there is none.  The database refuses the
    write ([IntegrityError]) when the user of the row is not stored -- the
    foreign key is checked when a row is inserted or its user changes -- and
    when another row already has the text ([email] is unique). *)
Definition EmailAddress_save (self : EmailAddress) : M unit :=
  rows ← gets emailaddress;
  us ← gets users;
  let stored := filter (fun r => pk r = pk self) rows in
  let others := filter (fun r => pk r ≠ pk self) rows in
  if bool_decide (us !! user_id self = None ∧ (user_id self ∉ user_id <$> stored))
     || bool_decide (email self ∈ email <$> others)
  then raise IntegrityError
  else modify (with_emailaddress (insert_or_update self)).

(** [self.emailaddressvariant_set.all()] *)
Definition emailaddressvariant_set (self : EmailAddress) (d : Database)
  : list EmailAddressVariantRow :=
  filter (fun v => row_canonical_email_id v = pk self) (emailaddressvariant d).

(** [CachedEmailAddress.objects.filter(user=self)] *)
Definition cached_emails (self : BadgeUser) (d : Database) : list EmailAddress :=
  filter (fun e => user_id e = id self) (emailaddress d).

(** *** [EmailAddressVariant] *)

(** [fail] inside [is_valid]: raise, or record the message on the instance
    (its [False] is dropped by the caller). *)
Definition fail (raise_exception : bool) (message : string)
    (self : EmailAddressVariant) : M EmailAddressVariant :=
  if raise_exception then raise (ValidationError message)
  else mret (set_error message self).

(** [self.canonical_email_id], and its truthiness. *)
Definition canonical_email_id (self : EmailAddressVariant) : option Z :=
  pk <$> canonical_email self.

Definition id_truthy (k : option Z) : bool :=
  match k with
  | Some n => negb (n =? 0)
  | None => false
  end.

(** [self.canonical_email] when no related object is held. *)
Definition get_canonical_email (self : EmailAddressVariant) : M EmailAddress :=
  match canonical_email self with
  | Some c => mret c
  | None => raise DoesNotExist
  end.

(** [is_valid] returns its boolean and the instance as it left it. *)
Definition is_valid (self : EmailAddressVariant) (raise_exception : bool)
  : M (bool * EmailAddressVariant) :=
  self ← (if negb (id_truthy (canonical_email_id self)) then
            rows ← gets emailaddress;
            match orm_get (filter (fun e => email e = variant_email self) rows) with
            | Return c => mret (set_canonical_email c self)
            | Raise DoesNotExist =>
                fail raise_exception "Canonical Email Address not found" self
            | Raise e => raise e
            end
          else mret self);
  c ← get_canonical_email self;
  self ← (if negb (String.eqb (lower (email c)) (lower (variant_email self))) then
            fail raise_exception
              "New EmailAddressVariant does not match stored email address." self
          else mret self);
  mret (true, self).

(** [Model.save] of a variant: insert (fresh key) or update its row.  The
    database refuses the write ([IntegrityError]) when the row has no
    canonical address, or one that is not stored (the foreign key is checked
    when a row is inserted or its canonical address changes). *)
Definition EmailAddressVariant_super_save (self : EmailAddressVariant)
  : M EmailAddressVariant :=
  match canonical_email self with
  | None => raise IntegrityError
  | Some c =>
      addresses ← gets emailaddress;
      match variant_pk self with
      | None =>
          if bool_decide (pk c ∉ pk <$> addresses) then raise IntegrityError
          else
            rows ← gets emailaddressvariant;
            let k := next_pk (row_pk <$> rows) in
            _ ← modify (with_emailaddressvariant (fun rows =>
                   rows ++ [ {| row_pk := k; row_email := variant_email self;
                                row_canonical_email_id := pk c |} ]));
            mret (set_variant_pk k self)
      | Some k =>
          rows ← gets emailaddressvariant;
          let stored := filter (fun r => row_pk r = k) rows in
          if bool_decide ((pk c ∉ pk <$> addresses) ∧
                          (pk c ∉ row_canonical_email_id <$> stored))
          then raise IntegrityError
          else
            let row := {| row_pk := k; row_email := variant_email self;
                          row_canonical_email_id := pk c |} in
            _ ← modify (with_emailaddressvariant (fun rows =>
                   if bool_decide (k ∈ row_pk <$> rows)
                   then (fun r => if bool_decide (row_pk r = k) then row else r) <$> rows
                   else rows ++ [row]));
            mret self
      end
  end.

(** [EmailAddressVariant.save], open in the [save] of the canonical address
    ([self.canonical_email.save()]), which [CachedEmailAddress.save] below
    re-enters. *)
Definition EmailAddressVariant_save_with (canonical_save : EmailAddress → M unit)
    (self : EmailAddressVariant) : M EmailAddressVariant :=
  '(_, self) ← is_valid self true;
  self ← EmailAddressVariant_super_save self;
  c ← get_canonical_email self;
  _ ← canonical_save c;
  mret self.

(** [EmailAddressVariant.verified] *)
Definition EmailAddressVariant_verified (self : EmailAddressVariant) : M bool :=
  c ← get_canonical_email self;
  mret (verified c).

(** A variant loaded from its row: the related object is what the foreign
    key resolves to when the instance is read. *)
Definition EmailAddressVariant_from_db (row : EmailAddressVariantRow)
  : M EmailAddressVariant :=
  rows ← gets emailaddress;
  match orm_get (filter (fun e => pk e = row_canonical_email_id row) rows) with
  | Return c =>
      mret {| variant_pk := Some (row_pk row); variant_email := row_email row;
              canonical_email := Some c; error := None |}
  | Raise e => raise e
  end.

(** *** [CachedEmailAddress] *)

(** [add_variant] *)
Definition add_variant (canonical_save : EmailAddress → M unit)
    (self : EmailAddress) (email_variation : string) : M EmailAddressVariant :=
  existing_variants ← gets (fun d =>
    filter (fun v => row_email v = email_variation) (emailaddressvariant_set self d));
  if bool_decide (email_variation ∉ row_email <$> existing_variants) then
    EmailAddressVariant_save_with canonical_save
      {| variant_pk := None; variant_email := email_variation;
         canonical_email := Some self; error := None |}
  else
    raise (ValidationError ("Email variant " +:+ email_variation +:+ " already exists")).

(** [CachedEmailAddress.save]. The call re-enters itself through
    [add_variant] and [EmailAddressVariant.save]; [depth] is the number of
    nested re-entries the interpreter still allows. *)
Fixpoint CachedEmailAddress_save_depth (depth : nat) (self : EmailAddress) : M unit :=
  _ ← EmailAddress_save self;
  variants ← gets (emailaddressvariant_set self);
  if bool_decide (variants = []) && negb (String.eqb (email self) (lower (email self)))
  then
    match depth with
    | O => raise RuntimeError
    | S depth' =>
        _ ← add_variant (CachedEmailAddress_save_depth depth') self (lower (email self));
        mret tt
    end
  else mret tt.

Definition recursion_limit : nat := 1000.

Definition CachedEmailAddress_save : EmailAddress → M unit :=
  CachedEmailAddress_save_depth recursion_limit.

(** [EmailAddressVariant.save] *)
Definition EmailAddressVariant_save : EmailAddressVariant → M EmailAddressVariant :=
  EmailAddressVariant_save_with CachedEmailAddress_save.

Definition set_verified (value : bool) (e : EmailAddress) : EmailAddress :=
  {| pk := pk e; email := email e; user_id := user_id e;
     primary := primary e; verified := value |}.

(** [CachedEmailAddress.delete]: the row goes, and with it (cascade) its
    variants. *)
Definition CachedEmailAddress_delete (self : EmailAddress) : M unit :=
  _ ← modify (with_emailaddressvariant
                (filter (fun v => row_canonical_email_id v ≠ pk self)));
  modify (with_emailaddress (filter (fun e => pk e ≠ pk self))).

(** [send_confirmation] *)
Definition send_confirmation (self : EmailAddress) : M unit :=
  fun w => (Return tt, {| db := db w; outbox := outbox w ++ [email self] |}).

(** [objects.get_primary(user)] *)
Definition get_primary (user : Z) : M (option EmailAddress) :=
  rows ← gets emailaddress;
  match orm_get (filter (fun e => user_id e = user ∧ primary e = true) rows) with
  | Return obj => mret (Some obj)
  | Raise DoesNotExist => mret None
  | Raise e => raise e
  end.

(** [user_email(self.user, self.email); self.user.save()] *)
Definition set_user_email (user : Z) (value : string) : M unit :=
  us ← gets users;
  match us !! user with
  | None => raise DoesNotExist
  | Some u =>
      modify (with_users (<[user := {| id := id u; user_email := value |}]>))
  end.

(** allauth's [EmailAddress.set_as_primary]; [save] is the [save] of the
    class of [self]. *)
Definition EmailAddress_set_as_primary (save : EmailAddress → M unit)
    (self : EmailAddress) (conditional : bool) : M bool :=
  old_primary ← get_primary (user_id self);
  returned ← match old_primary with
             | Some old =>
                 if conditional then mret (Some false)
                 else _ ← EmailAddress_save (set_primary false old); mret None
             | None => mret None
             end;
  match returned with
  | Some r => mret r
  | None =>
      _ ← save (set_primary true self);
      _ ← set_user_email (user_id self) (email self);
      mret true
  end.

(** [CachedEmailAddress.set_as_primary] *)
Definition set_as_primary (self : EmailAddress) (conditional : bool) : M bool :=
  old_primary ← get_primary (user_id self);
  returned ← match old_primary with
             | Some old =>
                 if conditional then mret (Some false)
                 else _ ← CachedEmailAddress_save (set_primary false old); mret None
             | None => mret None
             end;
  match returned with
  | Some r => mret r
  | None => EmailAddress_set_as_primary CachedEmailAddress_save self conditional
  end.

(** [CachedEmailAddress.cached.get_or_create(email=..., defaults={user, primary})]:
    the row is created in a transaction of its own. *)
Definition get_or_create (email_ : string) (user : Z) (primary_ : bool)
  : M (EmailAddress * bool) :=
  rows ← gets emailaddress;
  match orm_get (filter (fun e => email e = email_) rows) with
  | Return obj => mret (obj, false)
  | Raise DoesNotExist =>
      let obj := {| pk := next_pk (pk <$> rows); email := email_; user_id := user;
                    primary := primary_; verified := false |} in
      _ ← atomic (CachedEmailAddress_save obj);
      mret (obj, true)
  | Raise e => raise e
  end.

(** *** [BadgeUser] *)

(** [d.get('primary', False)] *)
Definition get_primary_flag (d : EmailData) : bool := default false (data_primary d).

(** [{d['email']: d for d in value}] *)
Definition new_email_idx (value : list EmailData) : gmap string EmailData :=
  foldl (fun idx d => <[data_email d := d]> idx) ∅ value.

(** [sum(1 if d.get('primary', False) else 0 for d in value)] *)
Definition primary_count (value : list EmailData) : Z :=
  foldr Z.add 0 ((fun d => if get_primary_flag d then 1 else 0) <$> value).

(** The body of [for email_data in value]. *)
Definition email_items_add_or_update (self : BadgeUser) (email_data : EmailData)
  : M unit :=
  let primary_ := get_primary_flag email_data in
  created_pair ← get_or_create (data_email email_data) (id self) primary_;
  let address : EmailAddress := created_pair.1 in
  let created : bool := created_pair.2 in
  if created then send_confirmation address
  else if user_id address =? id self then
    CachedEmailAddress_save (set_primary primary_ address)
  else if negb (verified address) then
    let address := set_primary primary_ (set_user (id self) address) in
    _ ← CachedEmailAddress_save address;
    send_confirmation address
  else
    raise (ValidationError
             ("Email '" +:+ data_email email_data +:+ "' may already be in use")).

(** The [email_items] setter. *)
Definition email_items_setter (self : BadgeUser) (value : list EmailData) : M unit :=
  if bool_decide (length value < 1)%nat then
    raise (ValidationError "Must have at least 1 email")
  else
    let idx := new_email_idx value in
    if bool_decide (primary_count value ≠ 1) then
      raise (ValidationError "Must have exactly 1 primary email")
    else
      atomic (
        _ ← for_each value (email_items_add_or_update self);
        items ← gets (cached_emails self);
        for_each items (fun address =>
          if bool_decide (idx !! email address = None)
          then CachedEmailAddress_delete address
          else mret tt)).

(** [primary_email] *)
Definition primary_email (self : BadgeUser) (d : Database) : string :=
  let primaries := filter (fun e => primary e = true) (cached_emails self d) in
  match primaries with
  | e :: _ => email e
  | [] => user_email self
  end.

(** *** Reasoning principles *)

Ltac unfold_M :=
  unfold mbind, M_bind, mret, M_ret, gets, modify, raise in *.

Lemma lower_ascii_idemp c : lower_ascii (lower_ascii c) = lower_ascii c.
Proof. destruct c as [[] [] [] [] [] [] [] []]; reflexivity. Qed.

Lemma lower_idemp s : lower (lower s) = lower s.
Proof. induction s as [|c s IH]; cbn; [done|]. by rewrite lower_ascii_idemp, IH. Qed.

(** The effect of saving an address: its row is written, and an address
    with no variant whose text is not lower-case gains its lower-case variant. *)
Definition save_effect (self : EmailAddress) (d : Database) : Database :=
  let d1 := with_emailaddress (insert_or_update self) d in
  if bool_decide (emailaddressvariant_set self d1 = [])
     && negb (String.eqb (email self) (lower (email self)))
  then with_emailaddressvariant (fun rows =>
         rows ++ [ {| row_pk := next_pk (row_pk <$> rows);
                      row_email := lower (email self);
                      row_canonical_email_id := pk self |} ]) d1
  else d1.

Lemma emailaddress_save_effect self d :
  emailaddress (save_effect self d) = insert_or_update self (emailaddress d).
Proof. unfold save_effect. cbn. by destruct (_ && _). Qed.

Lemma users_save_effect self d : users (save_effect self d) = users d.
Proof. unfold save_effect. cbn. by destruct (_ && _). Qed.

Lemma elem_of_insert_or_update obj rows r :
  r ∈ insert_or_update obj rows ↔ r = obj ∨ (r ∈ rows ∧ pk r ≠ pk obj).
Proof.
  unfold insert_or_update. case_bool_decide as Hin.
  - rewrite list_elem_of_fmap. split.
    + intros (r0 & -> & Hr0). case_bool_decide; [by left | by right].
    + intros [->|[Hr Hne]].
      * apply list_elem_of_fmap in Hin as (r0 & Hpk & Hr0).
        exists r0. by rewrite bool_decide_eq_true_2.
      * exists r. by rewrite bool_decide_eq_false_2.
  - rewrite elem_of_app, list_elem_of_singleton. split.
    + intros [Hr| ->]; [right|by left]. split; [done|].
      intros Hpk. apply Hin. rewrite <- Hpk. by apply list_elem_of_fmap_2.
    + intros [->|[Hr _]]; eauto.
Qed.

Lemma insert_or_update_in obj rows :
  pk obj ∈ pk <$> rows →
  insert_or_update obj rows
  = (fun r => if bool_decide (pk r = pk obj) then obj else r) <$> rows.
Proof. intros Hin. unfold insert_or_update. by rewrite bool_decide_eq_true_2. Qed.

Lemma insert_or_update_notin obj rows :
  pk obj ∉ pk <$> rows → insert_or_update obj rows = rows ++ [obj].
Proof. intros Hin. unfold insert_or_update. by rewrite bool_decide_eq_false_2. Qed.

Lemma pk_insert_or_update obj rows :
  pk <$> insert_or_update obj rows
  = if bool_decide (pk obj ∈ pk <$> rows) then pk <$> rows else (pk <$> rows) ++ [pk obj].
Proof.
  unfold insert_or_update. case_bool_decide.
  - rewrite <- list_fmap_compose. apply list_fmap_ext. intros _ r _. cbn.
    by case_bool_decide.
  - by rewrite fmap_app.
Qed.

Lemma insert_or_update_idemp obj rows :
  insert_or_update obj (insert_or_update obj rows) = insert_or_update obj rows.
Proof.
  assert (pk obj ∈ pk <$> insert_or_update obj rows) as Hin'.
  { apply list_elem_of_fmap. exists obj. split; [done|].
    apply elem_of_insert_or_update. by left. }
  rewrite (insert_or_update_in obj (insert_or_update obj rows)) by done.
  destruct (decide (pk obj ∈ pk <$> rows)) as [Hin|Hin].
  - rewrite insert_or_update_in by done.
    rewrite <- list_fmap_compose. apply list_fmap_ext. intros _ r _. cbn.
    destruct (decide (pk r = pk obj)) as [Heq|Hne].
    + rewrite (bool_decide_eq_true_2 _ Heq). by rewrite bool_decide_eq_true_2.
    + rewrite (bool_decide_eq_false_2 _ Hne). by rewrite bool_decide_eq_false_2.
  - rewrite insert_or_update_notin by done.
    rewrite fmap_app. cbn. rewrite bool_decide_eq_true_2 by done. f_equal.
    rewrite <- (list_fmap_id rows) at 2. apply list_fmap_ext.
    intros _ r Hr%list_elem_of_lookup_2.
    rewrite bool_decide_eq_false_2; [done|].
    intros Hpk. apply Hin. rewrite <- Hpk. by apply list_elem_of_fmap_2.
Qed.

(** The database takes the row [self]: its user is stored, or the row is
    stored with this user already; and no other row has its text. *)
Definition accepted (self : EmailAddress) (d : Database) : Prop :=
  (is_Some (users d !! user_id self) ∨
   ∃ r, r ∈ emailaddress d ∧ pk r = pk self ∧ user_id r = user_id self) ∧
  (∀ r, r ∈ emailaddress d → email r = email self → pk r = pk self).

Lemma accepted_decide self d :
  accepted self d ↔
  ¬ (users d !! user_id self = None ∧
     (user_id self ∉ user_id <$> filter (fun r => pk r = pk self) (emailaddress d))) ∧
  (email self ∉ email <$> filter (fun r => pk r ≠ pk self) (emailaddress d)).
Proof.
  unfold accepted. split.
  - intros [Hfk Huniq]. split.
    + intros [Hnone Hnot]. destruct Hfk as [Hsome|(r & Hr & Hpk & Hu)].
      * rewrite Hnone in Hsome. by destruct Hsome.
      * apply Hnot. rewrite <- Hu. apply list_elem_of_fmap_2.
        by apply list_elem_of_filter.
    + intros (r & He & [Hne Hr]%list_elem_of_filter)%list_elem_of_fmap.
      apply Hne. by apply Huniq.
  - intros [Hfk Huniq]. split.
    + destruct (users d !! user_id self) as [u|] eqn:Hu; [left; by eexists|].
      right.
      destruct (decide (user_id self
                        ∈ user_id <$> filter (fun r => pk r = pk self) (emailaddress d)))
        as [(r & Hur & [Hpk Hr]%list_elem_of_filter)%list_elem_of_fmap|Hnot].
      * by exists r.
      * destruct Hfk. by split.
    + intros r Hr He. destruct (decide (pk r = pk self)) as [|Hne]; [done|].
      destruct Huniq. rewrite <- He. apply list_elem_of_fmap_2.
      by apply list_elem_of_filter.
Qed.

#[global] Instance accepted_dec self d : Decision (accepted self d).
Proof.
  refine (cast_if (decide
    (¬ (users d !! user_id self = None ∧
        (user_id self ∉ user_id <$> filter (fun r => pk r = pk self) (emailaddress d))) ∧
     (email self ∉ email <$> filter (fun r => pk r ≠ pk self) (emailaddress d)))));
    by rewrite accepted_decide.
Defined.

Lemma EmailAddress_save_accepted self w :
  accepted self (db w) →
  EmailAddress_save self w
  = (Return tt, {| db := with_emailaddress (insert_or_update self) (db w);
                   outbox := outbox w |}).
Proof.
  intros [Hfk Huniq]%accepted_decide. unfold EmailAddress_save. unfold_M. cbn.
  rewrite (bool_decide_eq_false_2 _ Hfk), (bool_decide_eq_false_2 _ Huniq). done.
Qed.

Lemma EmailAddress_save_refused self w :
  ¬ accepted self (db w) → EmailAddress_save self w = (Raise IntegrityError, w).
Proof.
  intros Hno. unfold EmailAddress_save. unfold_M. cbn.
  destruct (bool_decide _ || bool_decide _) eqn:Hcond; [done|].
  apply orb_false_iff in Hcond as [Hfk%bool_decide_eq_false Huniq%bool_decide_eq_false].
  destruct Hno. by apply accepted_decide.
Qed.

(** Once written, the row is accepted again. *)
Lemma accepted_written self d d' :
  accepted self d →
  emailaddress d' = insert_or_update self (emailaddress d) →
  accepted self d'.
Proof.
  intros [_ Huniq] Hrows. unfold accepted. rewrite Hrows. split.
  - right. exists self. rewrite elem_of_insert_or_update. split; [by left|done].
  - intros r [->|[Hr Hne]]%elem_of_insert_or_update He; [done|]. by apply Huniq.
Qed.

(** Saving goes through whatever the remaining depth, as soon as one
    re-entry is allowed: the re-entered [save] finds the variant just created. *)
Lemma CachedEmailAddress_save_depth_spec depth self w :
  pk self ≠ 0 → accepted self (db w) →
  CachedEmailAddress_save_depth (S depth) self w
  = (Return tt, {| db := save_effect self (db w); outbox := outbox w |}).
Proof.
  intros Hpk Hok. unfold save_effect. cbn [CachedEmailAddress_save_depth].
  unfold mbind at 1. unfold M_bind at 1. rewrite EmailAddress_save_accepted by done.
  unfold_M. cbn.
  destruct (bool_decide _ && _) eqn:Hcond; [|done].
  apply andb_true_iff in Hcond as [Hnone%bool_decide_eq_true Hlow].
  unfold add_variant. unfold_M. cbn. rewrite Hnone. cbn.
  rewrite bool_decide_eq_true_2 by apply not_elem_of_nil.
  unfold EmailAddressVariant_save_with, is_valid, EmailAddressVariant_super_save.
  unfold_M. cbn.
  assert (negb (pk self =? 0) = true) as ->
    by (apply negb_true_iff, Z.eqb_neq, Hpk).
  cbn. rewrite lower_idemp, String.eqb_refl. cbn.
  rewrite bool_decide_eq_false_2.
  2:{ intros Hnot. apply Hnot, list_elem_of_fmap. exists self. split; [done|].
      apply elem_of_insert_or_update. by left. }
  cbn.
  set (w1 := {| db := with_emailaddressvariant _ (with_emailaddress _ (db w));
                outbox := outbox w |}).
  assert (accepted self (db w1)) as Hok1 by (by eapply accepted_written).
  assert (bool_decide (emailaddressvariant_set self
            (with_emailaddress (insert_or_update self) (db w1)) = []) = false) as Hsome.
  { apply bool_decide_eq_false_2. unfold emailaddressvariant_set, w1. cbn.
    rewrite filter_app, filter_cons_True by done.
    intros Hnil%app_eq_nil. by destruct Hnil. }
  destruct depth as [|depth]; cbn [CachedEmailAddress_save_depth];
    unfold mbind at 1; unfold M_bind at 1;
    rewrite EmailAddress_save_accepted by done;
    unfold_M; cbn [fst snd db outbox]; rewrite Hsome; cbn;
    unfold w1, with_emailaddress, with_emailaddressvariant; cbn;
    by rewrite insert_or_update_idemp.
Qed.

Lemma CachedEmailAddress_save_spec self w :
  pk self ≠ 0 → accepted self (db w) →
  CachedEmailAddress_save self w
  = (Return tt, {| db := save_effect self (db w); outbox := outbox w |}).
Proof.
  intros Hpk Hok. unfold CachedEmailAddress_save.
  change recursion_limit with (S 999). by apply CachedEmailAddress_save_depth_spec.
Qed.

(** A row the database refuses is not saved, and nothing is written. *)
Lemma CachedEmailAddress_save_refused self w :
  ¬ accepted self (db w) → CachedEmailAddress_save self w = (Raise IntegrityError, w).
Proof.
  intros Hno. unfold CachedEmailAddress_save.
  change recursion_limit with (S 999). cbn [CachedEmailAddress_save_depth].
  unfold mbind at 1. unfold M_bind at 1. by rewrite EmailAddress_save_refused.
Qed.

#[global] Arguments CachedEmailAddress_save : simpl never.

(** *** Well-formed tables *)

(** Keys are unique and positive, and so is the address text (allauth
    declares [email] unique). *)
Definition wf (rows : list EmailAddress) : Prop :=
  NoDup (pk <$> rows) ∧ NoDup (email <$> rows) ∧ Forall (fun r => 0 < pk r) rows.

(** The address [e] is held, verified, by somebody else than [u]. *)
Definition blocked (u : Z) (rows : list EmailAddress) (e : string) : Prop :=
  ∃ r, r ∈ rows ∧ email r = e ∧ user_id r ≠ u ∧ verified r = true.

#[global] Instance blocked_dec u rows e : Decision (blocked u rows e).
Proof.
  refine (cast_if (decide (Exists (fun r => email r = e ∧ user_id r ≠ u ∧ verified r = true)
                             rows)));
    unfold blocked; rewrite Exists_exists in *; naive_solver.
Defined.

Lemma foldr_max_le (pks : list Z) k : k ∈ pks → k ≤ foldr Z.max 0 pks.
Proof.
  induction pks as [|x pks IH]; [by intros ?%elem_of_nil|].
  intros [->|Hin]%elem_of_cons; cbn; [lia|]. specialize (IH Hin). lia.
Qed.

Lemma foldr_max_nonneg (pks : list Z) : 0 ≤ foldr Z.max 0 pks.
Proof. induction pks; cbn; lia. Qed.

Lemma next_pk_fresh pks : next_pk pks ∉ pks.
Proof. intros Hin%foldr_max_le. unfold next_pk in Hin. lia. Qed.

Lemma next_pk_pos pks : 0 < next_pk pks.
Proof. unfold next_pk. pose proof (foldr_max_nonneg pks). lia. Qed.

Lemma filter_all {A} (P : A → Prop) `{∀ x, Decision (P x)} (l : list A) :
  (∀ x, x ∈ l → P x) → filter P l = l.
Proof.
  induction l as [|x l IH]; intros Hall; [done|].
  rewrite filter_cons_True by (apply Hall; left).
  f_equal. apply IH. intros y Hy. apply Hall. by right.
Qed.

Section unique_column.
Context {A B : Type} `{EqDecision B} (f : A → B).

Lemma NoDup_fmap_eq (l : list A) x y :
  NoDup (f <$> l) → x ∈ l → y ∈ l → f x = f y → x = y.
Proof.
  induction l as [|z l IH]; [by intros _ ?%elem_of_nil|].
  rewrite fmap_cons, NoDup_cons. intros [Hz Hl] Hx Hy Hf.
  apply elem_of_cons in Hx as [->|Hx], Hy as [->|Hy]; [done| | |by apply IH].
  - destruct Hz. rewrite Hf. by apply list_elem_of_fmap_2.
  - destruct Hz. rewrite <- Hf. by apply list_elem_of_fmap_2.
Qed.

Lemma filter_unique (l : list A) x :
  NoDup (f <$> l) → x ∈ l → filter (fun y => f y = f x) l = [x].
Proof.
  induction l as [|z l IH]; [by intros _ ?%elem_of_nil|].
  rewrite fmap_cons, NoDup_cons. intros [Hz Hl] Hx.
  destruct (decide (f z = f x)) as [Heq|Hne].
  - rewrite filter_cons_True by done.
    assert (filter (fun y => f y = f x) l = []) as ->.
    { destruct (filter _ l) as [|y ?] eqn:Hf; [done|].
      assert (y ∈ filter (fun y => f y = f x) l) as [Hy Hyl]%list_elem_of_filter
        by (rewrite Hf; left).
      destruct Hz. rewrite Heq, <- Hy. by apply list_elem_of_fmap_2. }
    apply elem_of_cons in Hx as [->|Hx]; [done|].
    destruct Hz. rewrite Heq. by apply list_elem_of_fmap_2.
  - rewrite filter_cons_False by done.
    apply elem_of_cons in Hx as [->|Hx]; [done|]. by apply IH.
Qed.

Lemma filter_absent (l : list A) v :
  (∀ x, x ∈ l → f x ≠ v) → filter (fun y => f y = v) l = [].
Proof.
  intros Hl. destruct (filter _ l) as [|y ?] eqn:Hf; [done|].
  assert (y ∈ filter (fun y => f y = v) l) as [Hy Hyl]%list_elem_of_filter
    by (rewrite Hf; left).
  by destruct (Hl y Hyl).
Qed.
End unique_column.

Lemma wf_insert rows obj :
  wf rows → pk obj = next_pk (pk <$> rows) → (∀ r, r ∈ rows → email r ≠ email obj) →
  insert_or_update obj rows = rows ++ [obj] ∧ wf (rows ++ [obj]).
Proof.
  intros (Hpk & Hemail & Hpos) Hobj Hfresh.
  assert (pk obj ∉ pk <$> rows) as Hnotin by (rewrite Hobj; apply next_pk_fresh).
  split; [by apply insert_or_update_notin|].
  unfold wf. rewrite !fmap_app, !NoDup_app, Forall_app. cbn.
  repeat split; try done; try apply NoDup_singleton.
  - intros k Hk ->%list_elem_of_singleton. done.
  - intros e (r & -> & Hr)%list_elem_of_fmap ?%list_elem_of_singleton.
    by apply (Hfresh r).
  - constructor; [|done]. rewrite Hobj. apply next_pk_pos.
Qed.

Lemma wf_update rows r r' :
  wf rows → r ∈ rows → pk r' = pk r → email r' = email r →
  wf (insert_or_update r' rows).
Proof.
  intros (Hpk & Hemail & Hpos) Hr Hpk' Hemail'.
  assert (pk r' ∈ pk <$> rows) as Hin by (rewrite Hpk'; by apply list_elem_of_fmap_2).
  assert (∀ x, x ∈ rows → pk x = pk r' → x = r) as Huniq.
  { intros x Hx Hx'. apply (NoDup_fmap_eq pk rows); [done..|congruence]. }
  rewrite insert_or_update_in by done. unfold wf. repeat split.
  - rewrite <- list_fmap_compose.
    erewrite list_fmap_ext; [exact Hpk|]. intros _ x _. cbn. by case_bool_decide.
  - rewrite <- list_fmap_compose.
    erewrite list_fmap_ext; [exact Hemail|]. intros _ x Hx%list_elem_of_lookup_2. cbn.
    case_bool_decide as Heq; [|done]. rewrite (Huniq x Hx Heq). done.
  - apply Forall_fmap, Forall_forall. intros x Hx. cbn.
    rewrite Forall_forall in Hpos. case_bool_decide; [|by apply Hpos].
    rewrite Hpk'. by apply Hpos.
Qed.

(** What writing [obj] for the address text [e] does to the other rows:
    nothing. *)
Lemma insert_or_update_others rows obj r0 x :
  wf rows →
  (pk obj = next_pk (pk <$> rows) ∨ (r0 ∈ rows ∧ pk obj = pk r0 ∧ email r0 = email obj)) →
  email x ≠ email obj →
  x ∈ rows ↔ x ∈ insert_or_update obj rows.
Proof.
  intros (Hpk & Hemail & Hpos) Hobj Hx. rewrite elem_of_insert_or_update. split.
  - intros Hin. right. split; [done|]. intros Heq.
    destruct Hobj as [Hfresh|(Hr0 & Hpk0 & Hemail0)].
    + apply (next_pk_fresh (pk <$> rows)). rewrite <- Hfresh, <- Heq.
      by apply list_elem_of_fmap_2.
    + assert (x = r0) as -> by (apply (NoDup_fmap_eq pk rows); [done..|congruence]).
      done.
  - intros [->|[Hin _]]; done.
Qed.

Lemma insert_or_update_stored rows obj :
  NoDup (pk <$> rows) → obj ∈ rows → insert_or_update obj rows = rows.
Proof.
  intros Hnodup Hobj. rewrite insert_or_update_in by (by apply list_elem_of_fmap_2).
  rewrite <- (list_fmap_id rows) at 2. apply list_fmap_ext.
  intros _ r Hr%list_elem_of_lookup_2. cbn. case_bool_decide as Heq; [|done].
  symmetry. by apply (NoDup_fmap_eq pk rows).
Qed.

Lemma filter_ext_elem {A} (P Q : A → Prop) `{∀ x, Decision (P x)} `{∀ x, Decision (Q x)}
    (l : list A) :
  (∀ x, x ∈ l → P x ↔ Q x) → filter P l = filter Q l.
Proof.
  induction l as [|x l IH]; intros Hl; [done|].
  rewrite !filter_cons. rewrite IH by (intros y Hy; apply Hl; by right).
  destruct (decide (P x)) as [HP|HP], (decide (Q x)) as [HQ|HQ]; try done.
  - destruct HQ. apply Hl; [left|done].
  - destruct HP. apply Hl; [left|done].
Qed.

(** A stored row written back with its key and text is accepted when its
    user stays or is stored; a row with a text not stored yet is accepted
    when its user is stored. *)
Lemma accepted_stored obj r d :
  wf (emailaddress d) → r ∈ emailaddress d → pk obj = pk r → email obj = email r →
  user_id obj = user_id r ∨ is_Some (users d !! user_id obj) →
  accepted obj d.
Proof.
  intros (_ & Hemail & _) Hr Hpk He Hu. split.
  - destruct Hu as [Hu|Hu]; [right|by left]. by exists r.
  - intros x Hx Hxe. rewrite Hpk. f_equal.
    apply (NoDup_fmap_eq email (emailaddress d)); [done..|congruence].
Qed.

Lemma accepted_new obj d :
  is_Some (users d !! user_id obj) →
  (∀ r, r ∈ emailaddress d → email r ≠ email obj) →
  accepted obj d.
Proof. intros Hu Hfresh. split; [by left|]. intros r Hr He. by destruct (Hfresh r Hr). Qed.

Lemma stored_row_nonzero rows r : wf rows → r ∈ rows → pk r ≠ 0.
Proof.
  intros (_ & _ & Hpos) Hr. rewrite Forall_forall in Hpos. specialize (Hpos r Hr). lia.
Qed.

Lemma atomic_return {A} (body : M A) w a w' :
  body w = (Return a, w') → atomic body w = (Return a, w').
Proof. intros Hrun. unfold atomic. by rewrite Hrun. Qed.

Lemma atomic_raise {A} (body : M A) w e w' :
  body w = (Raise e, w') → atomic body w = (Raise e, {| db := db w; outbox := outbox w' |}).
Proof. intros Hrun. unfold atomic. by rewrite Hrun. Qed.

(** *** One item of the [email_items] setter *)

Definition in_use_message (e : string) : string :=
  "Email '" +:+ e +:+ "' may already be in use".

Definition created_address (self : BadgeUser) (d : EmailData) (rows : list EmailAddress)
  : EmailAddress :=
  {| pk := next_pk (pk <$> rows); email := data_email d; user_id := id self;
     primary := get_primary_flag d; verified := false |}.

(** The texts of the addresses the user [u] holds. *)
Definition held (u : Z) (d : Database) : list string :=
  email <$> filter (fun e => user_id e = u) (emailaddress d).

Lemma elem_of_held u d e :
  e ∈ held u d ↔ ∃ r, r ∈ emailaddress d ∧ email r = e ∧ user_id r = u.
Proof.
  unfold held. rewrite list_elem_of_fmap. split.
  - intros (r & -> & [Hu Hr]%list_elem_of_filter). by exists r.
  - intros (r & Hr & <- & Hu). exists r. split; [done|]. by apply list_elem_of_filter.
Qed.

Lemma add_or_update_created self d w :
  is_Some (users (db w) !! id self) →
  (∀ r, r ∈ emailaddress (db w) → email r ≠ data_email d) →
  email_items_add_or_update self d w
  = (Return tt,
     {| db := save_effect (created_address self d (emailaddress (db w))) (db w);
        outbox := outbox w ++ [data_email d] |}).
Proof.
  intros Hself Hfresh. unfold email_items_add_or_update, get_or_create. unfold_M. cbn.
  rewrite (filter_absent email) by done. cbn.
  rewrite (atomic_return _ _ tt
             {| db := save_effect (created_address self d (emailaddress (db w))) (db w);
                outbox := outbox w |}); [done|].
  apply CachedEmailAddress_save_spec.
  - cbn. pose proof (next_pk_pos (pk <$> emailaddress (db w))). lia.
  - by apply accepted_new.
Qed.

(** Without a stored user nothing is created. *)
Lemma add_or_update_no_user self d w :
  users (db w) !! id self = None →
  (∀ r, r ∈ emailaddress (db w) → email r ≠ data_email d) →
  email_items_add_or_update self d w = (Raise IntegrityError, w).
Proof.
  intros Hself Hfresh. unfold email_items_add_or_update, get_or_create. unfold_M. cbn.
  rewrite (filter_absent email) by done. cbn.
  rewrite (atomic_raise _ _ IntegrityError w); [by destruct w|].
  apply CachedEmailAddress_save_refused. intros [[[u Hu]|(r & Hr & Hpk & _)] _].
  - cbn in Hu. congruence.
  - apply (next_pk_fresh (pk <$> emailaddress (db w))). cbn in Hpk. rewrite <- Hpk.
    by apply list_elem_of_fmap_2.
Qed.

Lemma add_or_update_owned self d w r :
  wf (emailaddress (db w)) → r ∈ emailaddress (db w) →
  email r = data_email d → user_id r = id self →
  email_items_add_or_update self d w
  = (Return tt,
     {| db := save_effect (set_primary (get_primary_flag d) r) (db w);
        outbox := outbox w |}).
Proof.
  intros Hwf Hr He Hu. pose proof Hwf as (Hpk & Hemail & Hpos).
  unfold email_items_add_or_update, get_or_create. unfold_M. cbn.
  rewrite <- He, (filter_unique email) by done. cbn.
  rewrite Hu, Z.eqb_refl. rewrite CachedEmailAddress_save_spec; [done| |].
  - cbn. by apply (stored_row_nonzero (emailaddress (db w))).
  - apply (accepted_stored _ r); [done..|by left].
Qed.

Lemma add_or_update_handover self d w r :
  wf (emailaddress (db w)) → is_Some (users (db w) !! id self) →
  r ∈ emailaddress (db w) →
  email r = data_email d → user_id r ≠ id self → verified r = false →
  email_items_add_or_update self d w
  = (Return tt,
     {| db := save_effect (set_primary (get_primary_flag d) (set_user (id self) r)) (db w);
        outbox := outbox w ++ [data_email d] |}).
Proof.
  intros Hwf Hself Hr He Hu Hv. pose proof Hwf as (Hpk & Hemail & Hpos).
  unfold email_items_add_or_update, get_or_create. unfold_M. cbn.
  rewrite <- He, (filter_unique email) by done. cbn.
  apply Z.eqb_neq in Hu. rewrite Hu, Hv. cbn.
  rewrite CachedEmailAddress_save_spec; [done| |].
  - cbn. by apply (stored_row_nonzero (emailaddress (db w))).
  - apply (accepted_stored _ r); [done..|by right].
Qed.


(** The outcome of a step that goes through: the table stays well formed,
    the address of the item is now a row of [u] with the item's primary flag
    -- the stored row of this text, if there was one, with the user and the
    flag replaced --, the rows of every other address are as they were, the
    users are untouched, and a confirmation went out unless [u] held the
    address already. *)
Definition upserted (u : Z) (d : EmailData) (w w' : World) : Prop :=
  wf (emailaddress (db w')) ∧
  users (db w') = users (db w) ∧
  (∃ r, r ∈ emailaddress (db w') ∧ email r = data_email d ∧
        user_id r = u ∧ primary r = get_primary_flag d) ∧
  (∀ r, r ∈ emailaddress (db w) → email r = data_email d →
        set_primary (get_primary_flag d) (set_user u r) ∈ emailaddress (db w')) ∧
  (∀ x, email x ≠ data_email d →
        x ∈ emailaddress (db w) ↔ x ∈ emailaddress (db w')) ∧
  outbox w' = outbox w ++ filter (fun e => e ∉ held u (db w)) [data_email d].

Lemma set_user_same r : set_user (user_id r) r = r.
Proof. by destruct r. Qed.

Lemma add_or_update_ok self d w :
  wf (emailaddress (db w)) → is_Some (users (db w) !! id self) →
  ¬ blocked (id self) (emailaddress (db w)) (data_email d) →
  ∃ w', email_items_add_or_update self d w = (Return tt, w') ∧
        upserted (id self) d w w'.
Proof.
  intros Hwf Hself Hfree.
  destruct (decide (Exists (fun r => email r = data_email d) (emailaddress (db w))))
    as [(r & Hr & He)%Exists_exists|Hnone].
  - set (obj := set_primary (get_primary_flag d) (set_user (id self) r)).
    assert (email_items_add_or_update self d w
            = (Return tt, {| db := save_effect obj (db w);
                             outbox := outbox w
                               ++ filter (fun e => e ∉ held (id self) (db w))
                                    [data_email d] |})) as ->.
    { destruct (decide (user_id r = id self)) as [Hu|Hu].
      - rewrite (add_or_update_owned self d w r) by done.
        unfold obj. rewrite <- Hu, set_user_same.
        rewrite filter_cons_False, app_nil_r; [done|].
        intros Hnot. apply Hnot, elem_of_held. by exists r.
      - destruct (verified r) eqn:Hv.
        + destruct Hfree. by exists r.
        + rewrite (add_or_update_handover self d w r) by done.
          rewrite filter_cons_True; [done|].
          intros (x & Hx & Hxe & Hxu)%elem_of_held. apply Hu.
          destruct Hwf as (_ & Hemail & _).
          rewrite <- (NoDup_fmap_eq email _ x r Hemail Hx Hr); [done|congruence]. }
    eexists. split; [done|]. unfold upserted. cbn.
    rewrite emailaddress_save_effect, users_save_effect.
    split; [by apply (wf_update _ r)|]. split; [done|]. split; [|split; [|split; [|done]]].
    + exists obj. rewrite elem_of_insert_or_update. repeat split; eauto.
    + intros r' Hr' He'. rewrite elem_of_insert_or_update. left.
      destruct Hwf as (_ & Hemail & _).
      rewrite (NoDup_fmap_eq email _ r' r Hemail Hr' Hr); [done|congruence].
    + intros x Hx. apply (insert_or_update_others _ _ r); [done| |by cbn; congruence].
      right. eauto.
  - rewrite Exists_exists in Hnone.
    assert (∀ r, r ∈ emailaddress (db w) → email r ≠ data_email d) as Hfresh
      by (intros r Hr He; apply Hnone; eauto).
    rewrite add_or_update_created by done.
    eexists. split; [done|]. unfold upserted. cbn.
    rewrite emailaddress_save_effect, users_save_effect.
    destruct (wf_insert (emailaddress (db w)) (created_address self d (emailaddress (db w))))
      as [Heq Hwf']; [done..|].
    rewrite Heq. split; [done|]. split; [done|]. split; [|split; [|split]].
    + eexists. split; [apply elem_of_app; right; left|]. done.
    + intros r Hr He. by destruct (Hfresh r Hr).
    + intros x Hx. rewrite <- Heq.
      apply (insert_or_update_others _ _ x); [done|by left|done].
    + rewrite decide_True; [done|].
      intros (x & Hx & Hxe & _)%elem_of_held. by destruct (Hfresh x Hx).
Qed.

(** *** The two loops of the setter *)

Lemma add_or_update_loop_ok self todo w :
  wf (emailaddress (db w)) → is_Some (users (db w) !! id self) →
  NoDup (data_email <$> todo) →
  (∀ d, d ∈ todo → ¬ blocked (id self) (emailaddress (db w)) (data_email d)) →
  ∃ w', for_each todo (email_items_add_or_update self) w = (Return tt, w') ∧
        wf (emailaddress (db w')) ∧
        users (db w') = users (db w) ∧
        (∀ d, d ∈ todo →
           ∃ r, r ∈ emailaddress (db w') ∧ email r = data_email d ∧
                user_id r = id self ∧ primary r = get_primary_flag d) ∧
        (∀ d r, d ∈ todo → r ∈ emailaddress (db w) → email r = data_email d →
           set_primary (get_primary_flag d) (set_user (id self) r)
           ∈ emailaddress (db w')) ∧
        (∀ x, email x ∉ data_email <$> todo →
              x ∈ emailaddress (db w) ↔ x ∈ emailaddress (db w')) ∧
        outbox w'
        = outbox w ++ filter (fun e => e ∉ held (id self) (db w)) (data_email <$> todo).
Proof.
  revert w. induction todo as [|d todo IH]; intros w Hwf Hself Hnodup Hfree.
  - exists w. do 3 (split; [done|]). split; [by intros d ?%elem_of_nil|].
    split; [by intros d r ?%elem_of_nil|]. split; [done|]. cbn. by rewrite app_nil_r.
  - rewrite fmap_cons, NoDup_cons in Hnodup. destruct Hnodup as [Hd Hnodup].
    destruct (add_or_update_ok self d w)
      as (w1 & Hstep & Hwf1 & Hus1 & Hrow1 & Hxfer1 & Hrest1 & Hout1);
      [done|done|apply Hfree; left|].
    destruct (IH w1) as (w' & Hloop & Hwf' & Hus' & Hrows' & Hxfer' & Hrest' & Hout');
      [done|by rewrite Hus1|done| |].
    { intros d' Hd' (r & Hr & He & Hu & Hv). apply (Hfree d'); [by right|].
      exists r. split; [|done]. apply Hrest1; [|done].
      rewrite He. intros Heq. apply Hd. rewrite <- Heq. by apply list_elem_of_fmap_2. }
    exists w'. cbn [for_each]. unfold_M. rewrite Hstep. split; [done|].
    split; [done|]. split; [congruence|]. split; [|split; [|split]].
    + intros d' [->|Hd']%elem_of_cons; [|by apply Hrows'].
      destruct Hrow1 as (r & Hr & He & Hu & Hp). exists r. split; [|done].
      apply Hrest'; [|done]. by rewrite He.
    + intros d' r [->|Hd']%elem_of_cons Hr He.
      * apply Hrest'; [by cbn; rewrite He|]. by apply Hxfer1.
      * apply Hxfer'; [done| |done]. apply Hrest1; [|done].
        rewrite He. intros Heq. apply Hd. rewrite <- Heq. by apply list_elem_of_fmap_2.
    + intros x Hx. rewrite fmap_cons, not_elem_of_cons in Hx. destruct Hx as [Hx1 Hx2].
      rewrite (Hrest1 x Hx1). by apply Hrest'.
    + rewrite Hout', Hout1, <- app_assoc. f_equal. rewrite fmap_cons.
      assert (filter (fun e => e ∉ held (id self) (db w1)) (data_email <$> todo)
              = filter (fun e => e ∉ held (id self) (db w)) (data_email <$> todo)) as ->;
        [|rewrite !filter_cons, filter_nil; by destruct (decide _)].
      apply filter_ext_elem.
      intros e He. rewrite !elem_of_held.
      assert (e ≠ data_email d) as Hne by (intros ->; done).
      split; intros Hnot (x & Hx & Hxe & Hxu); apply Hnot; exists x;
        (split; [|done]); apply (Hrest1 x); congruence.
Qed.


Definition delete_effect (self : EmailAddress) (d : Database) : Database :=
  with_emailaddress (filter (fun e => pk e ≠ pk self))
    (with_emailaddressvariant (filter (fun v => row_canonical_email_id v ≠ pk self)) d).

Lemma CachedEmailAddress_delete_spec self w :
  CachedEmailAddress_delete self w
  = (Return tt, {| db := delete_effect self (db w); outbox := outbox w |}).
Proof. reflexivity. Qed.

Lemma delete_loop (idx : gmap string EmailData) items w :
  ∃ w', for_each items (fun address =>
          if bool_decide (idx !! email address = None)
          then CachedEmailAddress_delete address
          else mret tt) w = (Return tt, w') ∧
        outbox w' = outbox w ∧
        users (db w') = users (db w) ∧
        emailaddress (db w')
        = filter (fun r => pk r ∉ pk <$> filter (fun a => idx !! email a = None) items)
            (emailaddress (db w)).
Proof.
  revert w. induction items as [|a items IH]; intros w.
  - exists w. repeat split; [done..|]. cbn.
    symmetry. apply filter_all. intros x _. apply not_elem_of_nil.
  - cbn [for_each]. unfold_M. case_bool_decide as Ha.
    + rewrite CachedEmailAddress_delete_spec.
      destruct (IH {| db := delete_effect a (db w); outbox := outbox w |})
        as (w' & -> & Hout & Hus & Hrows).
      exists w'. split; [done|]. split; [done|]. split; [done|].
      rewrite Hrows. cbn. rewrite list_filter_filter.
      apply list_filter_iff. intros x. rewrite decide_True by done.
      rewrite fmap_cons, not_elem_of_cons. tauto.
    + cbn. destruct (IH w) as (w' & -> & Hout & Hus & Hrows).
      exists w'. split; [done|]. split; [done|]. split; [done|].
      rewrite Hrows. by rewrite decide_False.
Qed.

Lemma wf_filter (P : EmailAddress → Prop) `{∀ x, Decision (P x)} rows :
  wf rows → wf (filter P rows).
Proof.
  intros (Hpk & Hemail & Hpos). unfold wf. split_and!.
  - eapply sublist_NoDup; [exact Hpk|]. apply fmap_sublist, sublist_filter.
  - eapply sublist_NoDup; [exact Hemail|]. apply fmap_sublist, sublist_filter.
  - rewrite Forall_forall in *. intros x [_ Hx]%list_elem_of_filter. by apply Hpos.
Qed.

Lemma new_email_idx_lookup value e :
  new_email_idx value !! e = None ↔ e ∉ data_email <$> value.
Proof.
  unfold new_email_idx.
  assert (∀ acc : gmap string EmailData,
    foldl (fun idx d => <[data_email d := d]> idx) acc value !! e = None
    ↔ acc !! e = None ∧ e ∉ data_email <$> value) as Hgen.
  { induction value as [|d value IH]; intros acc; cbn.
    - split; [|by intros []]. intros ?. split; [done|apply not_elem_of_nil].
    - rewrite IH, not_elem_of_cons, lookup_insert_None.
      split; [intros [[? ?] ?]|intros [? [? ?]]]; split_and!; done. }
  rewrite Hgen, lookup_empty. tauto.
Qed.

(** *** The setter as a whole *)

Definition email_and_flag (e : EmailAddress) : string * bool := (email e, primary e).
Definition data_and_flag (d : EmailData) : string * bool :=
  (data_email d, get_primary_flag d).

(** The addresses of [self] that are marked primary. *)
Definition primaries (self : BadgeUser) (d : Database) : list EmailAddress :=
  filter (fun e => primary e = true) (cached_emails self d).

Lemma length_filter_fmap {A B} (g : A → B) (P : B → Prop) `{∀ y, Decision (P y)}
    (l : list A) :
  length (filter P (g <$> l)) = length (filter (fun x => P (g x)) l).
Proof.
  induction l as [|x l IH]; [done|]. rewrite fmap_cons, !filter_cons.
  destruct (decide (P (g x))); cbn; by rewrite IH.
Qed.

Lemma primary_count_length value :
  primary_count value
  = Z.of_nat (length (filter (fun p => p.2 = true) (data_and_flag <$> value))).
Proof.
  unfold primary_count. induction value as [|d value IH]; [done|].
  rewrite !fmap_cons, filter_cons. cbn [foldr]. rewrite IH. cbn.
  destruct (get_primary_flag d); [rewrite decide_True by done|rewrite decide_False by done];
    cbn [length]; lia.
Qed.

Lemma primary_count_nonempty value : primary_count value = 1 → (1 ≤ length value)%nat.
Proof. destruct value; [done|]. cbn. lia. Qed.

Lemma setter_guard self value w :
  primary_count value ≠ 1 →
  ∃ message, email_items_setter self value w = (Raise (ValidationError message), w).
Proof.
  intros Hcount. unfold email_items_setter. case_bool_decide; [by eexists|].
  rewrite bool_decide_eq_true_2 by done. by eexists.
Qed.

Lemma setter_atomic self value w :
  primary_count value = 1 →
  email_items_setter self value w
  = atomic (_ ← for_each value (email_items_add_or_update self);
            items ← gets (cached_emails self);
            for_each items (fun address =>
              if bool_decide (new_email_idx value !! email address = None)
              then CachedEmailAddress_delete address
              else mret tt)) w.
Proof.
  intros Hcount. unfold email_items_setter.
  apply primary_count_nonempty in Hcount as Hlen.
  rewrite bool_decide_eq_false_2 by lia. by rewrite bool_decide_eq_false_2 by tauto.
Qed.



Lemma setter_ok self value w :
  wf (emailaddress (db w)) → is_Some (users (db w) !! id self) →
  NoDup (data_email <$> value) →
  primary_count value = 1 →
  (∀ d, d ∈ value → ¬ blocked (id self) (emailaddress (db w)) (data_email d)) →
  ∃ w', email_items_setter self value w = (Return tt, w') ∧
        wf (emailaddress (db w')) ∧
        email_and_flag <$> cached_emails self (db w') ≡ₚ data_and_flag <$> value ∧
        users (db w') = users (db w) ∧
        outbox w'
        = outbox w ++ filter (fun e => e ∉ held (id self) (db w)) (data_email <$> value) ∧
        (∀ d r, d ∈ value → r ∈ emailaddress (db w) → email r = data_email d →
           set_primary (get_primary_flag d) (set_user (id self) r)
           ∈ emailaddress (db w')) ∧
        (∀ x, user_id x ≠ id self →
              x ∈ emailaddress (db w')
              ↔ x ∈ emailaddress (db w) ∧ (email x ∉ data_email <$> value)).
Proof.
  intros Hwf Hself Hnodup Hcount Hfree. rewrite setter_atomic by done.
  destruct (add_or_update_loop_ok self value w)
    as (w1 & Hloop & Hwf1 & Hus1 & Hrows1 & Hxfer1 & Hrest1 & Hout1); [done..|].
  destruct (delete_loop (new_email_idx value) (cached_emails self (db w1)) w1)
    as (w' & Hdel & Hout' & Hus' & Hrows').
  exists w'. split.
  { unfold atomic. unfold_M. rewrite Hloop. cbn. by rewrite Hdel. }
  assert (wf (emailaddress (db w'))) as Hwf' by (rewrite Hrows'; by apply wf_filter).
  split; [done|].
  assert (∀ x, x ∈ emailaddress (db w1) →
            pk x ∈ pk <$> filter (fun a => new_email_idx value !! email a = None)
                           (cached_emails self (db w1))
            ↔ user_id x = id self ∧ (email x ∉ data_email <$> value)) as Hpk.
  { intros x Hx. rewrite <- new_email_idx_lookup. split.
    - intros (y & Hy & [Hnone [Hu Hin]%list_elem_of_filter]%list_elem_of_filter)%list_elem_of_fmap.
      destruct Hwf1 as (Hpk1 & _).
      by rewrite (NoDup_fmap_eq pk _ x y Hpk1 Hx Hin Hy).
    - intros [Hu Hnone]. apply list_elem_of_fmap_2, list_elem_of_filter.
      split; [done|]. by apply list_elem_of_filter. }
  assert (∀ x, x ∈ emailaddress (db w')
               ↔ x ∈ emailaddress (db w1) ∧
                 (user_id x = id self → email x ∈ data_email <$> value)) as Hleft.
  { intros x. rewrite Hrows', list_elem_of_filter. split.
    - intros [Hnot Hx]. split; [done|]. intros Hu.
      destruct (decide (email x ∈ data_email <$> value)) as [|Hno]; [done|].
      destruct Hnot. by apply Hpk.
    - intros [Hx Hin]. split; [|done]. rewrite Hpk by done. intros [Hu Hno]. auto. }
  assert (∀ x, x ∈ cached_emails self (db w')
               ↔ x ∈ emailaddress (db w1) ∧ user_id x = id self ∧
                 email x ∈ data_email <$> value) as Hkept.
  { intros x. unfold cached_emails at 1. rewrite list_elem_of_filter, Hleft. tauto. }
  split; [|split; [congruence|split; [congruence|split]]].
  - apply NoDup_Permutation.
    + apply (NoDup_fmap_1 fst). rewrite <- list_fmap_compose.
      destruct Hwf' as (_ & Hemail' & _).
      eapply sublist_NoDup; [exact Hemail'|]. apply fmap_sublist, sublist_filter.
    + apply (NoDup_fmap_1 fst). by rewrite <- list_fmap_compose.
    + intros [e p]. rewrite !list_elem_of_fmap. split.
      * intros (x & [= -> ->] & (Hx & Hu & (d & He & Hd)%list_elem_of_fmap)%Hkept).
        exists d. split; [|done]. unfold data_and_flag. f_equal; [done|].
        destruct (Hrows1 d Hd) as (r & Hr & Her & _ & Hp).
        destruct Hwf1 as (_ & Hemail1 & _).
        rewrite <- Hp. f_equal.
        apply (NoDup_fmap_eq email _ x r Hemail1 Hx Hr). congruence.
      * intros (d & [= -> ->] & Hd).
        destruct (Hrows1 d Hd) as (r & Hr & Her & Hu & Hp).
        exists r. split; [unfold email_and_flag; congruence|].
        apply Hkept. split_and!; [done..|]. rewrite Her. by apply list_elem_of_fmap_2.
  - intros d r Hd Hr He. apply Hleft. split; [by apply Hxfer1|].
    intros _. cbn. rewrite He. by apply list_elem_of_fmap_2.
  - intros x Hu. rewrite Hleft. split.
    + intros [Hx _].
      assert (email x ∉ data_email <$> value) as Hno.
      { intros (d & He & Hd)%list_elem_of_fmap.
        destruct (Hrows1 d Hd) as (r & Hr & Her & Hur & _).
        destruct Hwf1 as (_ & Hemail1 & _). apply Hu. rewrite <- Hur. f_equal.
        apply (NoDup_fmap_eq email _ x r Hemail1 Hx Hr). congruence. }
      split; [|done]. by apply Hrest1.
    + intros [Hx Hno]. split; [by apply Hrest1|]. by intros ?.
Qed.

Lemma exactly_one_primary self value d :
  email_and_flag <$> cached_emails self d ≡ₚ data_and_flag <$> value →
  primary_count value = 1 →
  length (primaries self d) = 1%nat.
Proof.
  intros Hperm Hcount. rewrite primary_count_length, <- Hperm in Hcount.
  rewrite (length_filter_fmap email_and_flag) in Hcount. unfold primaries.
  cbn in Hcount. lia.
Qed.

Lemma filter_none {A} (P : A → Prop) `{∀ x, Decision (P x)} (l : list A) :
  (∀ x, x ∈ l → ¬ P x) → filter P l = [].
Proof.
  intros Hl. destruct (filter P l) as [|y ?] eqn:Hf; [done|].
  assert (y ∈ filter P l) as [Hy Hyl]%list_elem_of_filter by (rewrite Hf; left).
  by destruct (Hl y Hyl).
Qed.

Lemma NoDup_pk_insert_or_update obj rows :
  NoDup (pk <$> rows) → NoDup (pk <$> insert_or_update obj rows).
Proof.
  intros Hpk. rewrite pk_insert_or_update. case_bool_decide as Hin; [done|].
  apply NoDup_app. split_and!; [done| |apply NoDup_singleton].
  by intros k Hk ->%list_elem_of_singleton.
Qed.

Lemma primaries_eq self d :
  primaries self d
  = filter (fun e => user_id e = id self ∧ primary e = true) (emailaddress d).
Proof.
  unfold primaries, cached_emails. rewrite list_filter_filter.
  apply list_filter_iff. tauto.
Qed.

Lemma elem_of_primaries self d x :
  x ∈ primaries self d ↔ x ∈ emailaddress d ∧ user_id x = id self ∧ primary x = true.
Proof. rewrite primaries_eq, list_elem_of_filter. tauto. Qed.

Lemma NoDup_primaries self d : NoDup (pk <$> emailaddress d) → NoDup (primaries self d).
Proof.
  intros Hnodup. rewrite primaries_eq. apply NoDup_filter. by eapply NoDup_fmap_1.
Qed.

(** The primary addresses of a user whose rows were left alone, but for the
    ones with a text in [texts], which are gone. *)
Lemma primaries_frame other (texts : list string) d d' :
  NoDup (pk <$> emailaddress d) → NoDup (pk <$> emailaddress d') →
  (∀ x, user_id x = id other →
        x ∈ emailaddress d' ↔ x ∈ emailaddress d ∧ (email x ∉ texts)) →
  primaries other d' ≡ₚ filter (fun e => email e ∉ texts) (primaries other d).
Proof.
  intros Hnodup Hnodup' Hframe. apply NoDup_Permutation.
  - by apply NoDup_primaries.
  - by apply NoDup_filter, NoDup_primaries.
  - intros x. rewrite list_elem_of_filter, !elem_of_primaries. split.
    + intros (Hx & Hu & Hp). apply Hframe in Hx as [Hx Hno]; done.
    + intros (Hno & Hx & Hu & Hp). split; [|done]. by apply Hframe.
Qed.

(** No user has more than one primary address. *)
Definition at_most_one_primary (d : Database) : Prop :=
  ∀ u : BadgeUser, (length (primaries u d) ≤ 1)%nat.

Lemma primaries_same_user u u' d : id u = id u' → primaries u d = primaries u' d.
Proof. intros Hid. by rewrite !primaries_eq, Hid. Qed.

(** *** [set_as_primary] *)

(** With [conditional=True] and a primary address already there, nothing
    happens. *)
Lemma set_as_primary_conditional self old w :
  filter (fun e => user_id e = user_id self ∧ primary e = true) (emailaddress (db w))
  = [old] →
  set_as_primary self true w = (Return false, w).
Proof.
  intros Hold. unfold set_as_primary, get_primary. unfold_M. cbn. by rewrite Hold.
Qed.

(** The promotion itself, from a table in which the user has no primary
    address (left). *)
Lemma EmailAddress_set_as_primary_promote self usr w :
  pk self ≠ 0 → accepted self (db w) →
  NoDup (pk <$> emailaddress (db w)) →
  users (db w) !! user_id self = Some usr →
  filter (fun e => user_id e = user_id self ∧ primary e = true) (emailaddress (db w))
  = [] →
  ∃ w', EmailAddress_set_as_primary CachedEmailAddress_save self false w
        = (Return true, w') ∧
        emailaddress (db w') = insert_or_update (set_primary true self) (emailaddress (db w)) ∧
        users (db w')
        = <[user_id self := {| id := id usr; user_email := email self |}]> (users (db w)) ∧
        outbox w' = outbox w ∧
        filter (fun e => user_id e = user_id self ∧ primary e = true)
          (emailaddress (db w')) = [set_primary true self].
Proof.
  intros Hpk Hok Hnodup Husr Hnone.
  unfold EmailAddress_set_as_primary, get_primary. unfold_M. cbn. rewrite Hnone. cbn.
  rewrite CachedEmailAddress_save_spec by done. cbn.
  unfold set_user_email. unfold_M. cbn. rewrite users_save_effect, Husr. cbn.
  eexists. split; [done|]. cbn. rewrite emailaddress_save_effect, users_save_effect.
  split; [done|]. split; [done|]. split; [done|].
  apply Permutation_singleton_r, NoDup_Permutation.
  - apply NoDup_filter. eapply NoDup_fmap_1. by apply NoDup_pk_insert_or_update.
  - apply NoDup_singleton.
  - intros x. rewrite list_elem_of_filter, elem_of_insert_or_update, list_elem_of_singleton.
    split.
    + intros [[Hu Hp] [->|[Hx _]]]; [done|].
      assert (x ∈ filter (fun e => user_id e = user_id self ∧ primary e = true)
                    (emailaddress (db w))) as Hin by (by apply list_elem_of_filter).
      rewrite Hnone in Hin. by apply elem_of_nil in Hin.
    + intros ->. split; [done|by left].
Qed.

(** The unconditional call on a stored address: the user's primary address,
    if there is one, is demoted first, and [self] is then the only primary
    address; the addresses of the other users are not touched, and the user
    record takes the text. *)
Lemma set_as_primary_unconditional self usr w :
  wf (emailaddress (db w)) →
  self ∈ emailaddress (db w) →
  users (db w) !! user_id self = Some usr →
  (length (filter (fun e => user_id e = user_id self ∧ primary e = true)
             (emailaddress (db w))) ≤ 1)%nat →
  ∃ w', set_as_primary self false w = (Return true, w') ∧
        filter (fun e => user_id e = user_id self ∧ primary e = true)
          (emailaddress (db w')) = [set_primary true self] ∧
        (∀ old, old ∈ emailaddress (db w) → user_id old = user_id self →
                primary old = true → pk old ≠ pk self →
                set_primary false old ∈ emailaddress (db w')) ∧
        (∀ x, user_id x ≠ user_id self →
              x ∈ emailaddress (db w') ↔ x ∈ emailaddress (db w)) ∧
        NoDup (pk <$> emailaddress (db w')) ∧
        users (db w')
        = <[user_id self := {| id := id usr; user_email := email self |}]> (users (db w)).
Proof.
  intros Hwf Hself Husr Hlen. pose proof Hwf as (Hnodup & Hemail & Hpos).
  assert (pk self ≠ 0) as Hpk by (by apply (stored_row_nonzero (emailaddress (db w)))).
  assert (∀ x, x ∈ emailaddress (db w) → user_id x ≠ user_id self → pk x ≠ pk self)
    as Hother.
  { intros x Hx Hu Heq. apply Hu. f_equal. by apply (NoDup_fmap_eq pk (emailaddress (db w))). }
  unfold set_as_primary, get_primary. unfold_M. cbn.
  destruct (filter _ (emailaddress (db w))) as [|old [|? ?]] eqn:Hold; cbn;
    [| |cbn in Hlen; lia].
  - destruct (EmailAddress_set_as_primary_promote self usr w)
      as (w' & -> & Hrows' & Hus' & _ & Hone); [done| |done..|].
    { apply (accepted_stored _ self); [done..|by left]. }
    exists w'. split; [done|]. split; [done|]. split; [|split; [|split; [|done]]].
    + intros old Hin Hu Hp _.
      assert (old ∈ filter (fun e => user_id e = user_id self ∧ primary e = true)
                      (emailaddress (db w))) as Hin' by (by apply list_elem_of_filter).
      rewrite Hold in Hin'. by apply elem_of_nil in Hin'.
    + intros x Hu. rewrite Hrows', elem_of_insert_or_update. cbn. split.
      * intros [->|[Hx _]]; [done|done].
      * intros Hx. right. split; [done|]. by apply Hother.
    + rewrite Hrows'. by apply NoDup_pk_insert_or_update.
  - assert (old ∈ filter (fun e => user_id e = user_id self ∧ primary e = true)
                    (emailaddress (db w))) as [[Hou Hop] Hoin]%list_elem_of_filter
      by (rewrite Hold; left).
    assert (pk old ≠ 0) as Hopk by (by apply (stored_row_nonzero (emailaddress (db w)))).
    rewrite CachedEmailAddress_save_spec; [|done|].
    2:{ apply (accepted_stored _ old); [done..|by left]. }
    cbn.
    set (w1 := {| db := save_effect (set_primary false old) (db w); outbox := outbox w |}).
    assert (emailaddress (db w1)
            = insert_or_update (set_primary false old) (emailaddress (db w))) as Hrows1
      by apply emailaddress_save_effect.
    assert (wf (emailaddress (db w1))) as Hwf1
      by (rewrite Hrows1; by apply (wf_update _ old)).
    destruct (EmailAddress_set_as_primary_promote self usr w1)
      as (w' & -> & Hrows' & Hus' & _ & Hone); [done| | | |..].
    { destruct (decide (pk self = pk old)) as [Heq|Hne].
      - assert (self = old) as -> by (by apply (NoDup_fmap_eq pk (emailaddress (db w)))).
        apply (accepted_stored _ (set_primary false old)); [done| |done..|by left].
        rewrite Hrows1, elem_of_insert_or_update. by left.
      - apply (accepted_stored _ self); [done| |done..|by left].
        rewrite Hrows1, elem_of_insert_or_update. by right. }
    { rewrite Hrows1. by apply NoDup_pk_insert_or_update. }
    { unfold w1. cbn. by rewrite users_save_effect. }
    { apply filter_none. intros x. rewrite Hrows1, elem_of_insert_or_update.
      intros [->|[Hx Hne]] [Hu Hp]; [done|].
      assert (x ∈ [old]) as ->%list_elem_of_singleton; [|done].
      rewrite <- Hold. by apply list_elem_of_filter. }
    exists w'. split; [done|]. split; [done|]. split; [|split; [|split]].
    + intros old' Hin Hu Hp Hne.
      assert (old' ∈ [old]) as ->%list_elem_of_singleton
        by (rewrite <- Hold; by apply list_elem_of_filter).
      rewrite Hrows', elem_of_insert_or_update. right. split; [|done].
      rewrite Hrows1, elem_of_insert_or_update. by left.
    + intros x Hu. rewrite Hrows', elem_of_insert_or_update, Hrows1,
        elem_of_insert_or_update. cbn. split.
      * intros [->|[[->|[Hx _]] _]]; [done| |done]. cbn in Hu. congruence.
      * intros Hx. right. split; [right; split; [done|]|by apply Hother].
        apply Hother in Hx as Hne; [|done]. intros Heq. apply Hu.
        rewrite <- Hou. f_equal. by apply (NoDup_fmap_eq pk (emailaddress (db w))).
    + rewrite Hrows'. apply NoDup_pk_insert_or_update, Hwf1.
    + rewrite Hus'. unfold w1. cbn. by rewrite users_save_effect.
Qed.

(** *** Primary-address bookkeeping (C3) *)

(** Every user who owns an address owns exactly one primary address. *)
Definition one_primary_each (d : Database) : Prop :=
  Forall (fun r =>
            length (filter (fun e => user_id e = user_id r ∧ primary e = true)
                      (emailaddress d)) = 1%nat)
         (emailaddress d).

Definition alice : BadgeUser := {| id := 1; user_email := "alice@example.org" |}.
Definition bob : BadgeUser := {| id := 2; user_email := "bob@example.org" |}.

Definition world_two_users : World :=
  {| db := {| emailaddress :=
                [ {| pk := 1; email := "alice@example.org"; user_id := 1;
                     primary := true; verified := true |};
                  {| pk := 2; email := "bob@example.org"; user_id := 2;
                     primary := true; verified := false |};
                  {| pk := 3; email := "bob@work.example"; user_id := 2;
                     primary := false; verified := true |} ];
              emailaddressvariant := [];
              users := <[1 := alice]> {[ 2 := bob ]} |};
     outbox := [] |}.

Definition value_takes_bobs_address : list EmailData :=
  [ {| data_email := "alice@example.org"; data_primary := Some true |};
    {| data_email := "bob@example.org"; data_primary := None |} ].

Definition value_with_repeated_address : list EmailData :=
  [ {| data_email := "alice@example.org"; data_primary := Some true |};
    {| data_email := "alice@example.org"; data_primary := Some false |} ].

Definition value_second_address : list EmailData :=
  [ {| data_email := "alice@example.org"; data_primary := Some false |};
    {| data_email := "Alice@Work.example"; data_primary := Some true |} ].

Lemma atomic_rollback {A} (body : M A) w e w' :
  atomic body w = (Raise e, w') → db w' = db w.
Proof.
  unfold atomic. destruct (body w) as [[a|e0] w1]; [done|by intros [= _ <-]].
Qed.

Lemma setter_rollback self value w e w' :
  email_items_setter self value w = (Raise e, w') → db w' = db w.
Proof.
  unfold email_items_setter. case_bool_decide; [by intros [= _ <-]|].
  case_bool_decide; [by intros [= _ <-]|]. apply atomic_rollback.
Qed.

(** C3 (amended): a user owns zero or more addresses.  The [email_items]
    setter raises [ValidationError], changing nothing, unless exactly one
    submitted item is marked primary.  When it goes through on a list of
    pairwise distinct addresses, the user's addresses are afterwards exactly
    the submitted ones with the submitted flags, so exactly one of them is
    primary; every other user keeps their primary addresses but for the ones
    named in the list (which were handed over), so whoever had none of their
    primary addresses named has as many as before, and nobody ends up with
    more than one if nobody had.  A setter that fails leaves the primary
    addresses of everybody as they were.  [set_as_primary] on a stored address
    demotes the user's previous primary address and then promotes the new one,
    which leaves the user with that one primary address and every other user
    with the primary addresses they had; with [conditional=True] and a primary
    address in place it returns [False] and changes nothing. *)
Theorem primary_address_bookkeeping
    (self : BadgeUser) (value : list EmailData)
    (address old : EmailAddress) (owner : BadgeUser) (w : World) :
  (primary_count value ≠ 1 →
   ∃ message, email_items_setter self value w = (Raise (ValidationError message), w)) ∧
  (wf (emailaddress (db w)) →
   is_Some (users (db w) !! id self) →
   NoDup (data_email <$> value) →
   primary_count value = 1 →
   (∀ d, d ∈ value → ¬ blocked (id self) (emailaddress (db w)) (data_email d)) →
   ∃ w', email_items_setter self value w = (Return tt, w') ∧
         email_and_flag <$> cached_emails self (db w') ≡ₚ data_and_flag <$> value ∧
         length (primaries self (db w')) = 1%nat ∧
         (∀ other, id other ≠ id self →
            primaries other (db w')
            ≡ₚ filter (fun e => email e ∉ data_email <$> value)
                 (primaries other (db w))) ∧
         (∀ other, id other ≠ id self →
            (∀ e, e ∈ primaries other (db w) → email e ∉ data_email <$> value) →
            length (primaries other (db w')) = length (primaries other (db w))) ∧
         (at_most_one_primary (db w) → at_most_one_primary (db w'))) ∧
  (∀ e w', email_items_setter self value w = (Raise e, w') →
     ∀ other, primaries other (db w') = primaries other (db w)) ∧
  (wf (emailaddress (db w)) →
   address ∈ emailaddress (db w) →
   users (db w) !! user_id address = Some owner →
   id owner = user_id address →
   (length (primaries owner (db w)) ≤ 1)%nat →
   ∃ w', set_as_primary address false w = (Return true, w') ∧
         primaries owner (db w') = [set_primary true address] ∧
         (∀ e, e ∈ primaries owner (db w) → pk e ≠ pk address →
               set_primary false e ∈ emailaddress (db w')) ∧
         (∀ other, id other ≠ id owner →
            primaries other (db w') ≡ₚ primaries other (db w)) ∧
         (at_most_one_primary (db w) → at_most_one_primary (db w'))) ∧
  (primaries owner (db w) = [old] →
   id owner = user_id address →
   set_as_primary address true w = (Return false, w)).
Proof.
  split_and!.
  - apply setter_guard.
  - intros Hwf Hself Hnodup Hcount Hfree.
    destruct (setter_ok self value w)
      as (w' & Hrun & Hwf' & Hperm & _ & _ & _ & Hframe); [done..|].
    assert (length (primaries self (db w')) = 1%nat) as Hone
      by (by eapply exactly_one_primary).
    assert (∀ other, id other ≠ id self →
              primaries other (db w')
              ≡ₚ filter (fun e => email e ∉ data_email <$> value)
                   (primaries other (db w))) as Hothers.
    { intros other Hid. apply primaries_frame; [apply Hwf|apply Hwf'|].
      intros x Hx. apply Hframe. congruence. }
    exists w'. split; [done|]. split; [done|]. split; [done|]. split; [done|]. split.
    + intros other Hid Hkeep. rewrite (Hothers other Hid).
      by rewrite (filter_all _ _ Hkeep).
    + intros Hall u. destruct (decide (id u = id self)) as [Hid|Hid].
      * rewrite (primaries_same_user u self) by done. lia.
      * rewrite (Hothers u Hid). etrans; [apply length_filter|apply Hall].
  - intros e w' Hrun other. by rewrite (setter_rollback self value w e w' Hrun).
  - intros Hwf Haddress Husr Hid Hlen. rewrite primaries_eq, Hid in Hlen.
    destruct (set_as_primary_unconditional address owner w)
      as (w' & Hrun & Hone & Hold & Hframe & Hnodup' & _); [done..|].
    assert (∀ other, id other ≠ id owner →
              primaries other (db w') ≡ₚ primaries other (db w)) as Hothers.
    { intros other Hne.
      rewrite (primaries_frame other [] (db w) (db w')); [|apply Hwf|done|].
      - rewrite filter_all; [done|]. intros x _. apply not_elem_of_nil.
      - intros x Hx. rewrite Hframe by congruence.
        split; [intros ?; split; [done|apply not_elem_of_nil]|by intros []]. }
    assert (primaries owner (db w') = [set_primary true address]) as Hone'
      by (by rewrite primaries_eq, Hid).
    exists w'. split; [done|]. split; [done|]. split; [|split; [done|]].
    + intros e (He & Hu & Hp)%elem_of_primaries Hne. apply Hold; [done| |done..].
      congruence.
    + intros Hall u. destruct (decide (id u = id owner)) as [Hu|Hu].
      * by rewrite (primaries_same_user u owner), Hone' by done.
      * rewrite (Hothers u Hu). apply Hall.
  - intros Hold Hid. rewrite primaries_eq, Hid in Hold.
    by eapply set_as_primary_conditional.
Qed.

Lemma primary_address_bookkeeping_witness :
  ∃ w', email_items_setter alice value_second_address world_two_users = (Return tt, w') ∧
        email_and_flag <$> cached_emails alice (db w')
        ≡ₚ data_and_flag <$> value_second_address ∧
        length (primaries alice (db w')) = 1%nat ∧
        length (primaries bob (db w')) = length (primaries bob (db world_two_users)).
Proof.
  destruct (proj1 (proj2 (primary_address_bookkeeping alice value_second_address
              {| pk := 1; email := "alice@example.org"; user_id := 1;
                 primary := true; verified := true |}
              {| pk := 1; email := "alice@example.org"; user_id := 1;
                 primary := true; verified := true |}
              alice world_two_users)))
    as (w' & Hrun & Hperm & Hone & _ & Hkeep & _).
  - unfold wf. split_and!; compute_done.
  - by eexists.
  - compute_done.
  - reflexivity.
  - intros d Hd. repeat (apply elem_of_cons in Hd as [->|Hd]); [..|by apply elem_of_nil in Hd];
      compute_done.
  - exists w'. split; [done|]. split; [done|]. split; [done|].
    apply (Hkeep bob); [done|].
    intros e He. repeat (apply elem_of_cons in He as [->|He]); [..|by apply elem_of_nil in He];
      compute_done.
Defined.

(** C3 (as stated) fails: handing Bob's unverified primary address over to
    Alice leaves Bob with an address and no primary one; and a list naming one
    address twice leaves Alice herself without a primary address. *)
Lemma primary_address_bookkeeping_counterexample :
  (one_primary_each (db world_two_users) ∧
   wf (emailaddress (db world_two_users)) ∧
   primary_count value_takes_bobs_address = 1 ∧
   (email_items_setter alice value_takes_bobs_address world_two_users).1 = Return tt ∧
   ¬ one_primary_each
       (db (email_items_setter alice value_takes_bobs_address world_two_users).2) ∧
   primaries bob (db (email_items_setter alice value_takes_bobs_address world_two_users).2)
   = []) ∧
  (primary_count value_with_repeated_address = 1 ∧
   (email_items_setter alice value_with_repeated_address world_two_users).1 = Return tt ∧
   primaries alice
     (db (email_items_setter alice value_with_repeated_address world_two_users).2) = []).
Proof.
  unfold wf. split_and!; try by vm_compute. all: compute_done.
Qed.

(** *** Addresses held by somebody else (C4) *)


Definition value_takes_verified_address : list EmailData :=
  [ {| data_email := "carol@example.org"; data_primary := Some true |};
    {| data_email := "bob@work.example"; data_primary := None |} ].



(** In the refused update the loop had created Carol's address and sent her
    confirmation before it came to Bob's; the row is gone after the call, the
    mail is not. *)
Example partial_changes_undone :
  let loop := for_each value_takes_verified_address (email_items_add_or_update alice)
                world_two_users in
  let call := email_items_setter alice value_takes_verified_address world_two_users in
  loop.1 = Raise (ValidationError (in_use_message "bob@work.example")) ∧
  "carol@example.org"%string ∈ email <$> emailaddress (db loop.2) ∧
  call.1 = loop.1 ∧
  db call.2 = db world_two_users ∧
  outbox call.2 = ["carol@example.org"%string].
Proof. split_and!; try by vm_compute. compute_done. Qed.

(** *** Variants (C7, C8) *)

Lemma from_db_verified row c w :
  NoDup (pk <$> emailaddress (db w)) → c ∈ emailaddress (db w) →
  pk c = row_canonical_email_id row →
  (v ← EmailAddressVariant_from_db row; EmailAddressVariant_verified v) w
  = (Return (verified c), w).
Proof.
  intros Hnodup Hc Hpk.
  unfold EmailAddressVariant_from_db, EmailAddressVariant_verified, get_canonical_email.
  unfold_M. cbn. rewrite <- Hpk, (filter_unique pk) by done. done.
Qed.

Definition world_with_variant : World :=
  {| db := {| emailaddress :=
                [ {| pk := 1; email := "Alice@Example.org"; user_id := 1;
                     primary := true; verified := false |} ];
              emailaddressvariant :=
                [ {| row_pk := 1; row_email := "alice@example.org";
                     row_canonical_email_id := 1 |} ];
              users := {[ 1 := alice ]} |};
     outbox := [] |}.

(** C7: a variant has no verification state of its own; its [verified] is
    that of the canonical address it holds, and for a stored variant that of
    the row its foreign key resolves to when it is read -- so a change of the
    canonical row shows in the next reading. *)
Theorem variant_verified_is_canonical
    (self : EmailAddressVariant) (row : EmailAddressVariantRow)
    (c : EmailAddress) (b : bool) (w : World) :
  (canonical_email self = Some c →
   EmailAddressVariant_verified self w = (Return (verified c), w)) ∧
  (NoDup (pk <$> emailaddress (db w)) → c ∈ emailaddress (db w) →
   pk c = row_canonical_email_id row →
   (v ← EmailAddressVariant_from_db row; EmailAddressVariant_verified v) w
   = (Return (verified c), w)) ∧
  (wf (emailaddress (db w)) → c ∈ emailaddress (db w) →
   pk c = row_canonical_email_id row →
   ∃ w', (_ ← CachedEmailAddress_save (set_verified b c);
          v ← EmailAddressVariant_from_db row;
          EmailAddressVariant_verified v) w = (Return b, w')).
Proof.
  split_and!.
  - intros Hc. unfold EmailAddressVariant_verified, get_canonical_email.
    unfold_M. by rewrite Hc.
  - apply from_db_verified.
  - intros Hwf Hc Hpk.
    assert (pk (set_verified b c) ≠ 0) as Hpos
      by (cbn; by apply (stored_row_nonzero (emailaddress (db w)))).
    assert (accepted (set_verified b c) (db w)) as Hok
      by (apply (accepted_stored _ c); [done..|by left]).
    eexists. unfold mbind at 1. unfold M_bind.
    rewrite CachedEmailAddress_save_spec by done.
    rewrite (from_db_verified row (set_verified b c)); [done| |..|done].
    + cbn. rewrite emailaddress_save_effect. apply NoDup_pk_insert_or_update, Hwf.
    + cbn. rewrite emailaddress_save_effect, elem_of_insert_or_update. by left.
Qed.

Lemma variant_verified_is_canonical_witness :
  (v ← EmailAddressVariant_from_db
         {| row_pk := 1; row_email := "alice@example.org"; row_canonical_email_id := 1 |};
   EmailAddressVariant_verified v) world_with_variant
  = (Return false, world_with_variant).
Proof.
  refine (proj1 (proj2 (variant_verified_is_canonical
            {| variant_pk := None; variant_email := ""; canonical_email := None;
               error := None |}
            {| row_pk := 1; row_email := "alice@example.org"; row_canonical_email_id := 1 |}
            {| pk := 1; email := "Alice@Example.org"; user_id := 1;
               primary := true; verified := false |}
            true world_with_variant)) _ _ _).
  - compute_done.
  - compute_done.
  - reflexivity.
Defined.

Definition not_found_message : string := "Canonical Email Address not found".
Definition mismatch_message : string :=
  "New EmailAddressVariant does not match stored email address.".

(** C8: saving a variant goes through only for an alternate-case form of
    its canonical address: when the lower-cased texts differ, or when no
    canonical address is held and none is stored under the variant's text,
    [save] raises [ValidationError] and leaves the database as it was. *)
Theorem variant_save_needs_case_variant (self : EmailAddressVariant) (w : World) :
  (∀ c, canonical_email self = Some c → pk c ≠ 0 →
        lower (email c) ≠ lower (variant_email self) →
        EmailAddressVariant_save self w = (Raise (ValidationError mismatch_message), w)) ∧
  (id_truthy (canonical_email_id self) = false →
   (∀ r, r ∈ emailaddress (db w) → email r ≠ variant_email self) →
   EmailAddressVariant_save self w = (Raise (ValidationError not_found_message), w)) ∧
  (∀ self' w', EmailAddressVariant_save self w = (Return self', w') →
     ∃ c, canonical_email self' = Some c ∧
          lower (email c) = lower (variant_email self)).
Proof.
  split_and!.
  - intros c Hc Hpk Hne.
    unfold EmailAddressVariant_save, EmailAddressVariant_save_with, is_valid,
      canonical_email_id, get_canonical_email. unfold_M. rewrite Hc. cbn.
    apply Z.eqb_neq in Hpk. rewrite Hpk. cbn. rewrite Hc.
    apply String.eqb_neq in Hne. by rewrite Hne.
  - intros Hid Hnone.
    unfold EmailAddressVariant_save, EmailAddressVariant_save_with, is_valid. unfold_M.
    rewrite Hid. cbn. by rewrite (filter_absent email).
  - intros self' w'.
    unfold EmailAddressVariant_save, EmailAddressVariant_save_with, is_valid,
      EmailAddressVariant_super_save, get_canonical_email, fail. unfold_M.
    destruct (negb (id_truthy (canonical_email_id self))).
    + cbn. destruct (orm_get _) as [c|e]; [|by destruct e].
      cbn. destruct (negb (lower (email c) =? lower (variant_email self))%string) eqn:Heq;
        [done|].
      apply negb_false_iff, String.eqb_eq in Heq.
      cbn. destruct (variant_pk self); cbn; destruct (bool_decide _); cbn; try done;
        match goal with
        | |- context [CachedEmailAddress_save c ?w0] =>
            destruct (CachedEmailAddress_save c w0) as [[?|?] ?]
        end; intros [= <- <-]; by exists c.
    + cbn. destruct (canonical_email self) as [c|] eqn:Hc; [|done].
      cbn. destruct (negb (lower (email c) =? lower (variant_email self))%string) eqn:Heq;
        [done|].
      apply negb_false_iff, String.eqb_eq in Heq. rewrite Hc.
      cbn. destruct (variant_pk self); cbn; destruct (bool_decide _); cbn; try done;
        rewrite ?Hc; cbn;
        match goal with
        | |- context [CachedEmailAddress_save c ?w0] =>
            destruct (CachedEmailAddress_save c w0) as [[?|?] ?]
        end; intros [= <- <-]; exists c; by rewrite ?Hc.
Qed.

Lemma variant_save_needs_case_variant_witness :
  EmailAddressVariant_save
    {| variant_pk := None; variant_email := "bob@example.org";
       canonical_email := Some {| pk := 1; email := "Alice@Example.org"; user_id := 1;
                                  primary := true; verified := false |};
       error := None |}
    world_with_variant
  = (Raise (ValidationError mismatch_message), world_with_variant).
Proof.
  refine (proj1 (variant_save_needs_case_variant
            {| variant_pk := None; variant_email := "bob@example.org";
               canonical_email := Some {| pk := 1; email := "Alice@Example.org";
                                          user_id := 1; primary := true;
                                          verified := false |};
               error := None |}
            world_with_variant)
          {| pk := 1; email := "Alice@Example.org"; user_id := 1;
             primary := true; verified := false |} eq_refl _ _).
  - done.
  - by vm_compute.
Defined.

(** *** [primary_email] (C10) *)

Lemma first_primary (l : list EmailAddress) :
  (∃ l1 e l2, l = l1 ++ e :: l2 ∧ Forall (fun x => primary x = false) l1 ∧
              primary e = true ∧
              filter (fun x => primary x = true) l
              = e :: filter (fun x => primary x = true) l2) ∨
  (Forall (fun x => primary x = false) l ∧ filter (fun x => primary x = true) l = []).
Proof.
  induction l as [|x l IH]; [by right|].
  destruct (primary x) eqn:Hx.
  - left. exists [], x, l. rewrite filter_cons_True by done. done.
  - rewrite filter_cons_False by (by rewrite Hx).
    destruct IH as [(l1 & e & l2 & -> & Hl1 & He & Hf)|[Hall Hf]].
    + left. exists (x :: l1), e, l2. split_and!; [done|by constructor|done..].
    + right. split; [by constructor|done].
Qed.

(** C10: [primary_email] always returns: the text of the first of the
    user's addresses whose primary flag is set, when there is one, and the
    [email] field of the user record otherwise. *)
Theorem primary_email_total (self : BadgeUser) (d : Database) :
  (∃ l1 e l2, cached_emails self d = l1 ++ e :: l2 ∧
              Forall (fun x => primary x = false) l1 ∧ primary e = true ∧
              primary_email self d = email e) ∨
  (Forall (fun x => primary x = false) (cached_emails self d) ∧
   primary_email self d = user_email self).
Proof.
  unfold primary_email.
  destruct (first_primary (cached_emails self d))
    as [(l1 & e & l2 & Hl & Hl1 & He & ->)|[Hall ->]].
  - left. by exists l1, e, l2.
  - by right.
Qed.

Example primary_email_fallback :
  primary_email bob
    (db (email_items_setter alice value_takes_bobs_address world_two_users).2)
  = "bob@example.org"%string.
Proof. by vm_compute. Qed.

End Accounts.

(** ** [apps/badgeuser/models.py]: terms agreements *)

Module Terms.

Record TermsAgreement : Type := {
  user : Z;
  terms_version : Z;
  agreed : bool;
  valid : bool
}.

(** [order_by('-terms_version')] *)
Definition version_desc (a b : TermsAgreement) : Prop :=
  terms_version b ≤ terms_version a.

#[global] Instance version_desc_dec a b : Decision (version_desc a b).
Proof. unfold version_desc. apply _. Defined.

#[global] Instance version_desc_trans : Transitive version_desc.
Proof. unfold version_desc. intros a b c ? ?. lia. Qed.

#[global] Instance version_desc_total : Total version_desc.
Proof. unfold version_desc. intros a b. lia. Qed.

(** [self.termsagreement_set.all().filter(valid=True).order_by('-terms_version')] *)
Definition valid_agreements (self : Z) (table : list TermsAgreement)
  : list TermsAgreement :=
  merge_sort version_desc (filter (fun a => user a = self ∧ valid a = true) table).

(** [queryset[0]] *)
Definition first_item {A} (l : list A) : result A :=
  match l with
  | [] => Raise IndexError
  | x :: _ => Return x
  end.

Definition cached_agreed_terms_version (self : Z) (table : list TermsAgreement)
  : result (option TermsAgreement) :=
  match first_item (valid_agreements self table) with
  | Return v => Return (Some v)
  | Raise IndexError => Return None
  | Raise e => Raise e
  end.

Definition agreed_terms_version (self : Z) (table : list TermsAgreement) : result Z :=
  v ← cached_agreed_terms_version self table;
  match v with
  | None => Return 0
  | Some v => Return (terms_version v)
  end.

Definition terms_table : list TermsAgreement :=
  [ {| user := 1; terms_version := 2; agreed := true; valid := true |};
    {| user := 1; terms_version := 5; agreed := true; valid := false |};
    {| user := 2; terms_version := 7; agreed := true; valid := true |};
    {| user := 1; terms_version := 3; agreed := true; valid := true |} ].

Example agreed_terms_version_3 : agreed_terms_version 1 terms_table = Return 3.
Proof. reflexivity. Qed.

Example agreed_terms_version_none : agreed_terms_version 4 terms_table = Return 0.
Proof. reflexivity. Qed.

(** C5: [agreed_terms_version] is the highest [terms_version] among the
    user's agreements with [valid] set, and 0 when the user has none. *)
Theorem agreed_terms_version_highest (self : Z) (table : list TermsAgreement) :
  ∃ v, agreed_terms_version self table = Return v ∧
       ((filter (fun a => user a = self ∧ valid a = true) table = [] ∧ v = 0) ∨
        ((∃ a, a ∈ table ∧ user a = self ∧ valid a = true ∧ terms_version a = v) ∧
         (∀ a, a ∈ table → user a = self → valid a = true → terms_version a ≤ v))).
Proof.
  unfold agreed_terms_version, cached_agreed_terms_version, valid_agreements.
  set (l := filter _ table).
  pose proof (merge_sort_Permutation version_desc l) as Hperm.
  pose proof (StronglySorted_merge_sort version_desc l) as Hsorted.
  destruct (merge_sort version_desc l) as [|x s]; cbn.
  - exists 0. split; [done|]. left. split; [|done].
    by apply Permutation_nil_l in Hperm.
  - exists (terms_version x). split; [done|]. right.
    assert (∀ a, a ∈ l ↔ (user a = self ∧ valid a = true) ∧ a ∈ table) as Hl
      by (intros a; unfold l; by rewrite list_elem_of_filter).
    split.
    + exists x. assert (x ∈ l) as [[? ?] ?]%Hl by (rewrite <- Hperm; left). done.
    + intros a Ha Hu Hv.
      assert (a ∈ x :: s) as [->|Hin]%elem_of_cons
        by (rewrite Hperm; apply Hl; done); [done|].
      apply StronglySorted_inv in Hsorted as [_ Hall].
      rewrite Forall_forall in Hall. by apply Hall.
Qed.

End Terms.

(** ** [apps/badgeuser/models.py]: group ranks *)

Module Groups.

(** A [GroupEntity] instance; [pk] is [None] until the instance is saved. *)
Record GroupEntity : Type := {
  pk : option Z;
  group : Z;
  entity_id : option string;
  rank : option Z
}.

#[global] Instance GroupEntity_eq_dec : EqDecision GroupEntity.
Proof. solve_decision. Defined.

Definition set_pk (k : Z) (e : GroupEntity) : GroupEntity :=
  {| pk := Some k; group := group e; entity_id := entity_id e; rank := rank e |}.

(** [Model.__eq__]: the same key; an unsaved instance equals no stored row. *)
Definition model_eq (a b : GroupEntity) : bool :=
  match pk a, pk b with
  | Some x, Some y => x =? y
  | _, _ => false
  end.

(** [QuerySet.first()]: the match with the smallest key, if any. *)
Definition pk_asc (a b : GroupEntity) : Prop := default 0 (pk a) ≤ default 0 (pk b).

#[global] Instance pk_asc_dec a b : Decision (pk_asc a b).
Proof. unfold pk_asc. apply _. Defined.

Definition first (matches : list GroupEntity) : option GroupEntity :=
  head (merge_sort pk_asc matches).

Definition rank_message : string := "Group rank already ascribed, choose another".

(** The [pre_save] receiver. *)
Definition check_rank_uniqueness (instance : GroupEntity) (table : list GroupEntity)
  : result unit :=
  match rank instance with
  | Some r =>
      let instance_with_same_rank := first (filter (fun e => rank e = Some r) table) in
      match instance_with_same_rank with
      | Some other =>
          if negb (model_eq other instance)
          then Raise (ValidationError rank_message)
          else Return tt
      | None => Return tt
      end
  | None => Return tt
  end.

(** [GroupEntity.save]: the [pre_save] signal, then the write, which the
    one-to-one [group] column refuses when another row has the group. *)
Definition save (instance : GroupEntity) (table : list GroupEntity)
  : result (GroupEntity * list GroupEntity) :=
  _ ← check_rank_uniqueness instance table;
  if bool_decide (Exists (fun e => group e = group instance ∧ pk e ≠ pk instance) table)
  then Raise IntegrityError
  else
    match pk instance with
    | None =>
        let obj := set_pk (Accounts.next_pk (omap pk table)) instance in
        Return (obj, table ++ [obj])
    | Some k =>
        if bool_decide (Some k ∈ pk <$> table)
        then Return (instance,
                     (fun e => if bool_decide (pk e = Some k) then instance else e) <$> table)
        else Return (instance, table ++ [instance])
    end.

Definition delete (k : Z) (table : list GroupEntity) : list GroupEntity :=
  filter (fun e => pk e ≠ Some k) table.

(** The tables the application can produce: rows are only written by [save]
    and removed by [delete]. *)
Inductive reachable : list GroupEntity → Prop :=
  | reachable_empty : reachable []
  | reachable_save table instance instance' table' :
      reachable table → save instance table = Return (instance', table') →
      reachable table'
  | reachable_delete table k :
      reachable table → reachable (delete k table).

Definition unique_ranks (table : list GroupEntity) : Prop :=
  ∀ a b r, a ∈ table → b ∈ table → rank a = Some r → rank b = Some r → a = b.

Definition stored (table : list GroupEntity) : Prop :=
  Forall (fun e => is_Some (pk e)) table ∧ NoDup (pk <$> table).

Lemma first_None matches : first matches = None ↔ matches = [].
Proof.
  unfold first. pose proof (merge_sort_Permutation pk_asc matches) as Hperm.
  destruct (merge_sort pk_asc matches) as [|x l]; cbn.
  - split; [intros _|done]. by apply Permutation_nil_l in Hperm.
  - split; [done|]. intros ->. by apply Permutation_nil_r in Hperm.
Qed.

Lemma first_Some matches x : first matches = Some x → x ∈ matches.
Proof.
  unfold first. pose proof (merge_sort_Permutation pk_asc matches) as Hperm.
  destruct (merge_sort pk_asc matches) as [|y l]; cbn; [done|].
  intros [= ->]. rewrite <- Hperm. left.
Qed.

Lemma model_eq_true a b : model_eq a b = true ↔ pk a = pk b ∧ is_Some (pk a).
Proof.
  unfold model_eq. destruct (pk a) as [x|], (pk b) as [y|];
    rewrite ?Z.eqb_eq; split; try done; try (by intros [? [? ?]]).
  - intros ->. eauto.
  - by intros [[= ->] _].
Qed.

Lemma check_rank_uniqueness_cases instance table :
  check_rank_uniqueness instance table = Return tt ∨
  check_rank_uniqueness instance table = Raise (ValidationError rank_message).
Proof.
  unfold check_rank_uniqueness. destruct (rank instance); [|by left].
  destruct (first _); [|by left]. destruct (negb _); [by right|by left].
Qed.

(** What a passed check tells: the stored rows of that rank are the
    instance itself. *)
Lemma check_passed instance table r a :
  unique_ranks table →
  check_rank_uniqueness instance table = Return tt →
  rank instance = Some r → a ∈ table → rank a = Some r →
  pk a = pk instance ∧ is_Some (pk a).
Proof.
  intros Huniq Hcheck Hr Ha Hra. unfold check_rank_uniqueness in Hcheck.
  rewrite Hr in Hcheck.
  destruct (first _) as [other|] eqn:Hfirst.
  - destruct (model_eq other instance) eqn:Heq; [|done].
    apply first_Some, list_elem_of_filter in Hfirst as [Hor Ho].
    rewrite (Huniq a other r) by done. by apply model_eq_true.
  - apply first_None in Hfirst.
    assert (a ∈ filter (fun e => rank e = Some r) table) as Hin
      by (by apply list_elem_of_filter).
    rewrite Hfirst in Hin. by apply elem_of_nil in Hin.
Qed.

Lemma check_raises_iff instance table r :
  stored table → unique_ranks table → rank instance = Some r →
  check_rank_uniqueness instance table = Raise (ValidationError rank_message)
  ↔ ∃ other, other ∈ table ∧ rank other = Some r ∧ pk other ≠ pk instance.
Proof.
  intros [Hsome _] Huniq Hr. rewrite Forall_forall in Hsome. split.
  - unfold check_rank_uniqueness. rewrite Hr.
    destruct (first _) as [other|] eqn:Hfirst; [|done].
    destruct (model_eq other instance) eqn:Heq; [done|]. intros _.
    apply first_Some, list_elem_of_filter in Hfirst as [Hor Ho].
    exists other. split_and!; [done..|]. intros Hpk.
    assert (model_eq other instance = true); [|congruence].
    apply model_eq_true. split; [done|by apply Hsome].
  - intros (other & Ho & Hor & Hpk).
    destruct (check_rank_uniqueness_cases instance table) as [Hok|Hraise]; [|done].
    destruct (check_passed instance table r other); done.
Qed.

Lemma save_raises_iff instance table :
  save instance table = Raise (ValidationError rank_message)
  ↔ check_rank_uniqueness instance table = Raise (ValidationError rank_message).
Proof.
  unfold save.
  destruct (check_rank_uniqueness_cases instance table) as [->| ->]; [|done].
  cbn. case_bool_decide; [done|].
  destruct (pk instance); [case_bool_decide|]; done.
Qed.

Lemma elem_of_omap_pk (table : list GroupEntity) k :
  k ∈ omap pk table ↔ Some k ∈ pk <$> table.
Proof.
  rewrite list_elem_of_omap, list_elem_of_fmap. split.
  - intros (x & Hx & Hk). by exists x.
  - intros (x & Hk & Hx). by exists x.
Qed.

Lemma save_preserves instance instance' table table' :
  stored table → unique_ranks table →
  save instance table = Return (instance', table') →
  stored table' ∧ unique_ranks table'.
Proof.
  intros [Hsome Hnodup] Huniq. unfold save.
  destruct (check_rank_uniqueness_cases instance table) as [Hcheck|Hcheck];
    rewrite Hcheck; [|done]. cbn.
  pose proof (check_passed instance table) as Hsame.
  specialize (fun r a => Hsame r a Huniq Hcheck).
  case_bool_decide as Hgroup; [done|].
  assert (∀ obj (rest : list GroupEntity),
            rank obj = rank instance →
            (∀ x, x ∈ rest → x ∈ table ∧ pk x ≠ pk obj) →
            (pk instance = None ∨ pk instance = pk obj) →
            ∀ a b r, a ∈ obj :: rest → b ∈ obj :: rest →
                     rank a = Some r → rank b = Some r → a = b) as Hrows.
  { intros obj rest Hrank Hrest Hpk a b r Ha Hb Hra Hrb.
    assert (∀ x, x ∈ rest → rank x = Some r → rank instance = Some r → False) as Hno.
    { intros x [Hx Hne]%Hrest Hrx Hri.
      destruct (Hsame r x Hri Hx Hrx) as [Heq [k Hk]].
      destruct Hpk as [Hpk|Hpk]; congruence. }
    apply elem_of_cons in Ha as [->|Ha], Hb as [->|Hb].
    - done.
    - destruct (Hno b); [done..|congruence].
    - destruct (Hno a); [done..|congruence].
    - apply (Huniq a b r); [by apply Hrest..|done|done]. }
  destruct (pk instance) as [k|] eqn:Hpk.
  - case_bool_decide as Hin; intros [= <- <-].
    + split.
      * split.
        -- apply Forall_fmap, Forall_forall. intros x Hx. cbn.
           rewrite Forall_forall in Hsome. case_bool_decide; [by rewrite Hpk|by apply Hsome].
        -- rewrite <- list_fmap_compose. erewrite list_fmap_ext; [exact Hnodup|].
           intros _ x _. cbn. case_bool_decide; congruence.
      * intros a b r Ha Hb. apply (Hrows instance (filter (fun e => pk e ≠ Some k) table)).
        -- done.
        -- intros x [Hne Hx]%list_elem_of_filter. split; [done|congruence].
        -- by right.
        -- apply list_elem_of_fmap in Ha as (x & -> & Hx).
           case_bool_decide; [left|right]. by apply list_elem_of_filter.
        -- apply list_elem_of_fmap in Hb as (x & -> & Hx).
           case_bool_decide; [left|right]. by apply list_elem_of_filter.
    + split.
      * split; [apply Forall_app; split; [done|]; constructor; [by rewrite Hpk|done]|].
        rewrite fmap_app. apply NoDup_app. split_and!; [done| |apply NoDup_singleton].
        intros x Hx ->%list_elem_of_singleton. apply Hin. by rewrite <- Hpk.
      * intros a b r Ha Hb. apply (Hrows instance table).
        -- done.
        -- intros x Hx. split; [done|]. intros Heq. apply Hin.
           rewrite <- Hpk, <- Heq. by apply list_elem_of_fmap_2.
        -- by right.
        -- apply elem_of_app in Ha as [Ha|Ha%list_elem_of_singleton]; [by right|subst a; left].
        -- apply elem_of_app in Hb as [Hb|Hb%list_elem_of_singleton]; [by right|subst b; left].
  - intros [= <- <-].
    assert (Some (Accounts.next_pk (omap pk table)) ∉ pk <$> table) as Hfresh.
    { rewrite <- elem_of_omap_pk. apply Accounts.next_pk_fresh. }
    split.
    + split; [apply Forall_app; split; [done|]; constructor; [by eexists|done]|].
      rewrite fmap_app. apply NoDup_app. split_and!; [done| |apply NoDup_singleton].
      by intros x Hx ->%list_elem_of_singleton.
    + intros a b r Ha Hb.
      apply (Hrows (set_pk (Accounts.next_pk (omap pk table)) instance) table).
      * done.
      * intros x Hx. split; [done|]. intros Heq. apply Hfresh.
        cbn in Heq. rewrite <- Heq. by apply list_elem_of_fmap_2.
      * by left.
      * apply elem_of_app in Ha as [Ha|Ha%list_elem_of_singleton]; [by right|subst a; left].
      * apply elem_of_app in Hb as [Hb|Hb%list_elem_of_singleton]; [by right|subst b; left].
Qed.

Lemma reachable_invariant table : reachable table → stored table ∧ unique_ranks table.
Proof.
  induction 1 as [|table instance instance' table' _ IH Hsave|table k _ [[Hsome Hnodup] Huniq]].
  - split; [split; [constructor|constructor]|]. by intros a b r ?%elem_of_nil.
  - destruct IH. by eapply save_preserves.
  - unfold delete. split; [split|].
    + rewrite Forall_forall in *. intros x [_ Hx]%list_elem_of_filter. by apply Hsome.
    + eapply sublist_NoDup; [exact Hnodup|]. apply fmap_sublist, sublist_filter.
    + intros a b r [_ Ha]%list_elem_of_filter [_ Hb]%list_elem_of_filter.
      by apply Huniq.
Qed.

Definition ranked_groups : list GroupEntity :=
  [ {| pk := Some 1; group := 10; entity_id := None; rank := Some 0 |};
    {| pk := Some 2; group := 20; entity_id := None; rank := Some 1 |} ].

Lemma ranked_groups_reachable : reachable ranked_groups.
Proof.
  apply (reachable_save
           [ {| pk := Some 1; group := 10; entity_id := None; rank := Some 0 |} ]
           {| pk := None; group := 20; entity_id := None; rank := Some 1 |}
           {| pk := Some 2; group := 20; entity_id := None; rank := Some 1 |}
           ranked_groups); [|reflexivity].
  apply (reachable_save []
           {| pk := None; group := 10; entity_id := None; rank := Some 0 |}
           {| pk := Some 1; group := 10; entity_id := None; rank := Some 0 |}
           [ {| pk := Some 1; group := 10; entity_id := None; rank := Some 0 |} ]);
    [|reflexivity].
  constructor.
Defined.

(** C6: on every table the application can produce, no two rows share a
    rank that is not [None], and saving an instance whose rank is not [None]
    raises [ValidationError] exactly when another stored row holds that rank. *)
Theorem rank_uniqueness (table : list GroupEntity) :
  reachable table →
  unique_ranks table ∧
  ∀ instance r, rank instance = Some r →
    save instance table = Raise (ValidationError rank_message)
    ↔ ∃ other, other ∈ table ∧ rank other = Some r ∧ pk other ≠ pk instance.
Proof.
  intros [Hstored Huniq]%reachable_invariant. split; [done|].
  intros instance r Hr. rewrite save_raises_iff. by apply check_raises_iff.
Qed.

Lemma rank_uniqueness_witness :
  save {| pk := None; group := 30; entity_id := None; rank := Some 1 |} ranked_groups
  = Raise (ValidationError rank_message)
  ∧ save {| pk := Some 2; group := 20; entity_id := None; rank := Some 1 |} ranked_groups
    ≠ Raise (ValidationError rank_message).
Proof.
  split.
  - apply (proj2 (rank_uniqueness ranked_groups ranked_groups_reachable)
             {| pk := None; group := 30; entity_id := None; rank := Some 1 |} 1 eq_refl).
    exists {| pk := Some 2; group := 20; entity_id := None; rank := Some 1 |}.
    split_and!; [compute_done|done|done].
  - rewrite (proj2 (rank_uniqueness ranked_groups ranked_groups_reachable)
               {| pk := Some 2; group := 20; entity_id := None; rank := Some 1 |} 1 eq_refl).
    intros (other & Hin & Hrank & Hpk).
    repeat (apply elem_of_cons in Hin as [->|Hin]); [done|done|by apply elem_of_nil in Hin].
Defined.

(** Reachability matters: on a table written behind the signal's back, a
    second holder of the rank goes unnoticed when the instance itself comes
    first. *)
Example duplicate_rank_unnoticed :
  save {| pk := Some 1; group := 10; entity_id := None; rank := Some 5 |}
    [ {| pk := Some 1; group := 10; entity_id := None; rank := Some 5 |};
      {| pk := Some 2; group := 20; entity_id := None; rank := Some 5 |} ]
  = Return ({| pk := Some 1; group := 10; entity_id := None; rank := Some 5 |},
            [ {| pk := Some 1; group := 10; entity_id := None; rank := Some 5 |};
              {| pk := Some 2; group := 20; entity_id := None; rank := Some 5 |} ]).
Proof. reflexivity. Qed.

End Groups.

(** ** [apps/badgrsocialauth/providers/surf_conext/views.py] *)

Module SurfConext.

(** A decoded JSON text, as [response.json()] hands it back: [None], a
    boolean, a number (its literal), a string, a list or a dictionary. *)
#[warnings="-register-all"]
Inductive JSON : Type :=
  | JNull
  | JBool (b : bool)
  | JNumber (literal : string)
  | JString (s : string)
  | JArray (items : list JSON)
  | JObject (members : gmap string JSON).

(** What [requests] hands back: the status and the decoded body, [None] for
    a body that is no JSON text ([response.json()] raises [ValueError] then). *)
Record Response : Type := {
  status_code : Z;
  body : option JSON
}.

Definition json (response : Response) : result JSON :=
  match body response with
  | Some data => Return data
  | None => Raise ValueError
  end.

(** [data.get(key, None)]: only a dictionary has [get]. *)
Definition get (data : JSON) (key : string) : result (option JSON) :=
  match data with
  | JObject members => Return (members !! key)
  | _ => Raise AttributeError
  end.

(** [x == key] for a string [key]. *)
Definition equals_string (key : string) (x : JSON) : bool :=
  match x with
  | JString s => String.eqb s key
  | _ => false
  end.

Fixpoint startswith (s prefix : string) : bool :=
  match prefix, s with
  | EmptyString, _ => true
  | String a prefix', String b s' => Ascii.eqb a b && startswith s' prefix'
  | String _ _, EmptyString => false
  end.

(** [key in s] for two strings. *)
Fixpoint substring (key s : string) : bool :=
  startswith s key ||
  match s with
  | EmptyString => false
  | String _ s' => substring key s'
  end.

(** [key in data]: a key of a dictionary, an element of a list, a
    substring of a string; [TypeError] for what cannot be iterated. *)
Definition contains (data : JSON) (key : string) : result bool :=
  match data with
  | JObject members => Return (bool_decide (is_Some (members !! key)))
  | JArray items => Return (existsb (equals_string key) items)
  | JString s => Return (substring key s)
  | JNull | JBool _ | JNumber _ => Raise TypeError
  end.

Record Request : Type := {
  GET : gmap string string;
  user : Z;
  user_is_anonymous : bool
}.

Record SocialApp : Type := {
  client_id : string;
  secret : string
}.

(** The two ways the view answers. *)
Inductive HttpResponse : Type :=
  | render_authentication_error (provider_id : string) (error : string)
  | complete_social_login (acting_user : Z) (process : string) (extra_data : JSON).

Definition SurfConextProvider_id : string := "surf_conext".

(** [s.split(sep)] *)
Fixpoint split (sep : Ascii.ascii) (s : string) : list string :=
  match s with
  | EmptyString => [EmptyString]
  | String c rest =>
      if Ascii.eqb c sep then EmptyString :: split sep rest
      else match split sep rest with
           | part :: parts => String c part :: parts
           | [] => [String c EmptyString]
           end
  end.

(** [process, auth_token, badgr_app_pk = tuple(state.split('-'))] *)
Definition unpack3 (parts : list string) : result (string * string * string) :=
  match parts with
  | [a; b; c] => Return (a, b, c)
  | _ => Raise ValueError
  end.

Definition no_code_error : string := "Server error: No userToken found in callback".
Definition token_endpoint_error (status : Z) : string :=
  "Server error: Token endpoint error (http " +:+ pretty status
  +:+ ") try alternative login methods".
Definition no_access_token_error : string :=
  "Server error: No access token, try alternative login methods.".
Definition userinfo_endpoint_error (status : Z) : string :=
  "Server error: User info endpoint error (http " +:+ pretty status
  +:+ "). Try alternative login methods".
Definition no_email_error : string :=
  "Sorry, your account has no email attached from SurfConext, try another login method.".

Section callback.

(** The world outside the view, each call of which may raise:
    [SocialApp.objects.get_current], the request to the provider's token
    endpoint (by the application and the code put in its URL) and to its
    userinfo endpoint (by the access token put in the header), the provider's
    [sociallogin_from_response], [BadgrApp.objects.get] (by the key read from
    [state]), [set_session_badgr_app] and [get_verified_user]. *)
Variable SocialApp_objects_get_current : result SocialApp.
Variable token_endpoint : SocialApp → string → result Response.
Variable userinfo_endpoint : JSON → result Response.
Variable sociallogin_from_response : JSON → result unit.
Variable BadgrApp_objects_get : string → result Z.
Variable set_session_badgr_app : Z → result unit.
Variable get_verified_user : string → result Z.

Definition callback (request : Request) : result HttpResponse :=
  state ← match GET request !! "state"%string with
          | Some state => Return state
          | None => Raise AttributeError
          end;
  parts ← unpack3 (split "-"%char state);
  let process := parts.1.1 in
  let auth_token := parts.1.2 in
  let badgr_app_pk := parts.2 in
  match GET request !! "code"%string with
  | None => Return (render_authentication_error SurfConextProvider_id no_code_error)
  | Some code =>
      _current_app ← SocialApp_objects_get_current;
      response ← token_endpoint _current_app code;
      if negb (status_code response =? 200) then
        Return (render_authentication_error SurfConextProvider_id
                  (token_endpoint_error (status_code response)))
      else
        data ← json response;
        access_token ← get data "access_token";
        match access_token with
        | None | Some JNull =>
            Return (render_authentication_error SurfConextProvider_id
                      no_access_token_error)
        | Some access_token =>
            response ← userinfo_endpoint access_token;
            if negb (status_code response =? 200) then
              Return (render_authentication_error SurfConextProvider_id
                        (userinfo_endpoint_error (status_code response)))
            else
              extra_data ← json response;
              has_email ← contains extra_data "email";
              missing ← (if negb has_email then Return true
                         else has_sub ← contains extra_data "sub";
                              Return (negb has_sub));
              if missing : bool then
                Return (render_authentication_error SurfConextProvider_id no_email_error)
              else
                _ ← sociallogin_from_response extra_data;
                badgr_app ← BadgrApp_objects_get badgr_app_pk;
                _ ← set_session_badgr_app badgr_app;
                acting_user ←
                  (if String.eqb process "connect" && user_is_anonymous request
                      && negb (String.eqb auth_token "")
                   then get_verified_user auth_token
                   else Return (user request));
                Return (complete_social_login acting_user process extra_data)
        end
  end.

(** The [state] parameter is there and has the three parts [login] put in. *)
Definition state_well_formed (request : Request) : Prop :=
  ∃ state, GET request !! "state"%string = Some state ∧
           length (split "-"%char state) = 3%nat.

Definition is_authentication_error (r : result HttpResponse) : Prop :=
  ∃ error, r = Return (render_authentication_error SurfConextProvider_id error).

(** The token endpoint answered [code] with status 200 and a dictionary
    holding this access token. *)
Definition token_step (request : Request) (access_token : JSON) : Prop :=
  ∃ code app response members,
    GET request !! "code"%string = Some code ∧
    SocialApp_objects_get_current = Return app ∧
    token_endpoint app code = Return response ∧
    status_code response = 200 ∧
    body response = Some (JObject members) ∧
    members !! "access_token"%string = Some access_token ∧
    access_token ≠ JNull.

Lemma unpack3_length parts :
  length parts = 3%nat → ∃ a b c, unpack3 parts = Return (a, b, c).
Proof. destruct parts as [|a [|b [|c [|? ?]]]]; try done. by exists a, b, c. Qed.

(** C9 (amended): given a [state] parameter that splits on [-] into three
    parts, the callback renders an authentication error when the request has no
    [code]; and, when the application is found and the endpoints answer, when
    the token endpoint answers with a status other than 200 or with a
    dictionary without [access_token] (absent or [null]), when the userinfo
    endpoint answers with a status other than 200, or when the user data (a
    dictionary, a list or a string) lacks [email] or [sub].  Whatever the
    request, the social login is completed only when every one of these steps
    went through. *)
Theorem callback_completes_only_after_every_step (request : Request) :
  (state_well_formed request →
   (GET request !! "code"%string = None →
    is_authentication_error (callback request)) ∧
   (∀ code app response,
      GET request !! "code"%string = Some code →
      SocialApp_objects_get_current = Return app →
      token_endpoint app code = Return response →
      (status_code response ≠ 200 ∨
       ∃ members, body response = Some (JObject members) ∧
                  (members !! "access_token"%string = None ∨
                   members !! "access_token"%string = Some JNull)) →
      is_authentication_error (callback request)) ∧
   (∀ access_token response,
      token_step request access_token →
      userinfo_endpoint access_token = Return response →
      (status_code response ≠ 200 ∨
       ∃ extra_data has_email has_sub,
         body response = Some extra_data ∧
         contains extra_data "email" = Return has_email ∧
         contains extra_data "sub" = Return has_sub ∧
         has_email && has_sub = false) →
      is_authentication_error (callback request))) ∧
  (∀ acting_user process extra_data,
     callback request = Return (complete_social_login acting_user process extra_data) →
     ∃ access_token response,
       token_step request access_token ∧
       userinfo_endpoint access_token = Return response ∧
       status_code response = 200 ∧
       body response = Some extra_data ∧
       contains extra_data "email" = Return true ∧
       contains extra_data "sub" = Return true ∧
       sociallogin_from_response extra_data = Return tt).
Proof.
  split.
  - intros (state & Hstate & Hlen).
    destruct (unpack3_length _ Hlen) as (process & auth_token & badgr_app_pk & Hparts).
    unfold callback, is_authentication_error. rewrite Hstate. cbn. rewrite Hparts. cbn.
    split_and!.
    + intros ->. by eexists.
    + intros code app response Hcode Happ Hpost. rewrite Hcode, Happ. cbn.
      rewrite Hpost. cbn.
      intros [Hstatus%Z.eqb_neq|(members & Hbody & Htoken)].
      * rewrite Hstatus. by eexists.
      * destruct (status_code response =? 200); [|by eexists]. cbn.
        unfold json. rewrite Hbody. cbn. destruct Htoken as [-> | ->]; by eexists.
    + intros access_token response
        (code & app & response0 & members & Hcode & Happ & Hpost & Hstatus%Z.eqb_eq
         & Hbody & Htoken & Hnull) Hget.
      rewrite Hcode, Happ. cbn. rewrite Hpost. cbn. rewrite Hstatus. cbn.
      unfold json. rewrite Hbody. cbn. rewrite Htoken.
      destruct access_token; try done; rewrite Hget; cbn;
      (intros [Hinfo%Z.eqb_neq|(extra_data & has_email & has_sub & Hextra & Hemail & Hsub
                                & Hmissing)];
       [rewrite Hinfo; by eexists|];
       destruct (status_code response =? 200); [|by eexists]; cbn;
       rewrite Hextra; cbn; rewrite Hemail; cbn;
       destruct has_email; cbn; [|by eexists];
       rewrite Hsub; cbn; cbn in Hmissing; rewrite Hmissing; by eexists).
  - intros acting_user process extra_data. unfold callback, token_step.
    destruct (GET request !! "state"%string) as [state|]; [|done]. cbn.
    destruct (unpack3 _) as [parts|]; [|done]. cbn.
    destruct (GET request !! "code"%string) as [code|]; [|done].
    destruct SocialApp_objects_get_current as [app|]; [|done]. cbn.
    destruct (token_endpoint app code) as [response|] eqn:Hpost; [|done]. cbn.
    destruct (status_code response =? 200) eqn:Hstatus; [|done]. cbn.
    unfold json. destruct (body response) as [data|] eqn:Hbody; [|done]. cbn.
    destruct data as [| | | | |members]; try done. cbn.
    destruct (members !! "access_token"%string) as [access_token|] eqn:Htoken; [|done].
    intros Hrun. exists access_token.
    assert (access_token ≠ JNull) as Hnull by (by intros ->).
    assert (∃ response',
              userinfo_endpoint access_token = Return response' ∧
              (response' ← Return response';
               if negb (status_code response' =? 200) then
                 Return (render_authentication_error SurfConextProvider_id
                           (userinfo_endpoint_error (status_code response')))
               else
                 extra_data ← json response';
                 has_email ← contains extra_data "email";
                 missing ← (if negb has_email then Return true
                            else has_sub ← contains extra_data "sub";
                                 Return (negb has_sub));
                 if missing : bool then
                   Return (render_authentication_error SurfConextProvider_id no_email_error)
                 else
                   _ ← sociallogin_from_response extra_data;
                   badgr_app ← BadgrApp_objects_get parts.2;
                   _ ← set_session_badgr_app badgr_app;
                   acting_user ←
                     (if String.eqb parts.1.1 "connect" && user_is_anonymous request
                         && negb (String.eqb parts.1.2 "")
                      then get_verified_user parts.1.2
                      else Return (user request));
                   Return (complete_social_login acting_user parts.1.1 extra_data))
              = Return (complete_social_login acting_user process extra_data))
      as (response' & Hget & Hrest).
    { destruct access_token; try done;
        (destruct (userinfo_endpoint _) as [response'|] eqn:Hget; [|done];
         by exists response'). }
    clear Hrun. exists response'. cbn in Hrest.
    destruct (status_code response' =? 200) eqn:Hinfo; [|done]. cbn in Hrest.
    unfold json in Hrest. destruct (body response') as [extra|] eqn:Hextra; [|done].
    cbn in Hrest.
    destruct (contains extra "email") as [[]|] eqn:Hemail; [|done..]. cbn in Hrest.
    destruct (contains extra "sub") as [[]|] eqn:Hsub; [|done..]. cbn in Hrest.
    destruct (sociallogin_from_response extra) as [[]|] eqn:Hlogin; [|done].
    cbn in Hrest.
    destruct (BadgrApp_objects_get _); [|done]. cbn in Hrest.
    destruct (set_session_badgr_app _); [|done]. cbn in Hrest.
    match type of Hrest with
    | context [mbind _ ?m] => destruct m as [u|]; [|done]
    end. cbn in Hrest.
    injection Hrest as _ _ <-.
    apply Z.eqb_eq in Hstatus, Hinfo.
    split; [by exists code, app, response, members|]. done.
Qed.

End callback.

(** A provider that answers every step, one whose token endpoint answers 200
    with an empty list, and one whose userinfo endpoint answers 200 with
    [null]. *)
Definition the_app : SocialApp := {| client_id := "badgr"; secret := "s3cret" |}.

Definition good_token_endpoint (app : SocialApp) (code : string) : result Response :=
  Return {| status_code := 200;
            body := Some (JObject {[ "access_token"%string := JString "t0k3n" ]}) |}.

Definition good_userinfo_endpoint (access_token : JSON) : result Response :=
  Return {| status_code := 200;
            body := Some (JObject (<[ "email"%string := JString "alice@example.org" ]>
                                     {[ "sub"%string := JString "urn:alice" ]})) |}.

Definition list_token_endpoint (app : SocialApp) (code : string) : result Response :=
  Return {| status_code := 200; body := Some (JArray []) |}.

Definition null_userinfo_endpoint (access_token : JSON) : result Response :=
  Return {| status_code := 200; body := Some JNull |}.

Definition list_userinfo_endpoint (access_token : JSON) : result Response :=
  Return {| status_code := 200; body := Some (JArray [JString "sub"]) |}.

Definition failing_token_endpoint (app : SocialApp) (code : string) : result Response :=
  Return {| status_code := 500; body := None |}.

Definition any_login (extra_data : JSON) : result unit := Return tt.
Definition any_BadgrApp (key : string) : result Z := Return 1.
Definition any_session (badgr_app : Z) : result unit := Return tt.
Definition verified_user (auth_token : string) : result Z := Return 7.

Definition request_without_code : Request :=
  {| GET := {[ "state"%string := "login-None-1"%string ]};
     user := 0; user_is_anonymous := true |}.

Definition request_without_state : Request :=
  {| GET := ∅; user := 0; user_is_anonymous := true |}.

Definition request_with_code : Request :=
  {| GET := <[ "code"%string := "c0de"%string ]>
              {[ "state"%string := "connect-abc-1"%string ]};
     user := 0; user_is_anonymous := true |}.

Example callback_completes :
  callback (Return the_app) good_token_endpoint good_userinfo_endpoint any_login
    any_BadgrApp any_session verified_user request_with_code
  = Return (complete_social_login 7 "connect"
              (JObject (<[ "email"%string := JString "alice@example.org" ]>
                          {[ "sub"%string := JString "urn:alice" ]}))).
Proof. by vm_compute. Qed.

Lemma callback_completes_only_after_every_step_witness :
  is_authentication_error
    (callback (Return the_app) good_token_endpoint good_userinfo_endpoint any_login
       any_BadgrApp any_session verified_user request_without_code) ∧
  is_authentication_error
    (callback (Return the_app) good_token_endpoint list_userinfo_endpoint any_login
       any_BadgrApp any_session verified_user request_with_code).
Proof.
  split.
  - refine (proj1 (proj1 (callback_completes_only_after_every_step
              (Return the_app) good_token_endpoint good_userinfo_endpoint any_login
              any_BadgrApp any_session verified_user request_without_code) _) _).
    + exists "login-None-1"%string. split; reflexivity.
    + reflexivity.
  - refine (proj2 (proj2 (proj1 (callback_completes_only_after_every_step
              (Return the_app) good_token_endpoint list_userinfo_endpoint any_login
              any_BadgrApp any_session verified_user request_with_code) _))
              (JString "t0k3n") _ _ eq_refl _).
    + exists "connect-abc-1"%string. split; reflexivity.
    + eexists "c0de"%string, the_app, _, _. split_and!; try reflexivity. done.
    + right. exists (JArray [JString "sub"]), false, true. by split_and!.
Defined.

(** C9 (as stated) fails: without a [state] parameter the callback raises
    before it looks for the code; a token endpoint answering 200 with a list
    (so without [access_token]) makes it raise [AttributeError]; user data
    that is [null] (so without [email]) makes it raise [TypeError]; and
    without a [SocialApp] the callback raises before it asks the token
    endpoint, which would have answered 500.  None of them renders an
    authentication error. *)
Lemma callback_completes_only_after_every_step_counterexample :
  (GET request_without_state !! "code"%string = None ∧
   callback (Return the_app) good_token_endpoint good_userinfo_endpoint any_login
     any_BadgrApp any_session verified_user request_without_state
   = Raise AttributeError) ∧
  (list_token_endpoint the_app "c0de"
   = Return {| status_code := 200; body := Some (JArray []) |} ∧
   callback (Return the_app) list_token_endpoint good_userinfo_endpoint any_login
     any_BadgrApp any_session verified_user request_with_code
   = Raise AttributeError) ∧
  (null_userinfo_endpoint (JString "t0k3n")
   = Return {| status_code := 200; body := Some JNull |} ∧
   callback (Return the_app) good_token_endpoint null_userinfo_endpoint any_login
     any_BadgrApp any_session verified_user request_with_code
   = Raise TypeError) ∧
  (failing_token_endpoint the_app "c0de"
   = Return {| status_code := 500; body := None |} ∧
   callback (Raise DoesNotExist) failing_token_endpoint good_userinfo_endpoint any_login
     any_BadgrApp any_session verified_user request_with_code
   = Raise DoesNotExist).
Proof. by vm_compute. Qed.

End SurfConext.

(** ** [apps/badgrsocialauth/providers/surf_conext/views.py]: the [state]
    that [login] sends and [callback] takes apart *)

Module SurfConextState.
Import SurfConext.

(** ['%s' % value] for a string or [None], and for a key or [None]. *)
Definition format_str (value : option string) : string := default "None" value.
Definition format_pk (value : option Z) : string := from_option pretty "None" value.

(** The [state] that [login] puts in the redirect:
    ['%s-%s-%s' % (request.GET.get('process', 'login'),
                   get_session_auth_token(request),
                   request.session.get('badgr_app_pk', None))]. *)
Definition login_state (request : Request) (session_auth_token : option string)
    (session_badgr_app_pk : option Z) : string :=
  default "login" (GET request !! "process"%string) +:+ "-"
  +:+ format_str session_auth_token +:+ "-"
  +:+ format_pk session_badgr_app_pk.

(** [s.count(c)] *)
Fixpoint count (c : Ascii.ascii) (s : string) : nat :=
  match s with
  | EmptyString => 0
  | String x rest => (if Ascii.eqb x c then 1 else 0) + count c rest
  end.

Lemma count_app c (a b : string) : count c (a +:+ b) = (count c a + count c b)%nat.
Proof. induction a as [|x a IH]; [done|]. simpl. rewrite IH. lia. Qed.

Lemma split_not_nil sep s : split sep s ≠ [].
Proof.
  destruct s as [|c s]; cbn; [done|].
  destruct (Ascii.eqb c sep); [done|]. by destruct (split sep s).
Qed.

Lemma length_split sep s : length (split sep s) = S (count sep s).
Proof.
  induction s as [|c s IH]; cbn; [done|].
  destruct (Ascii.eqb c sep); cbn; [by rewrite IH|].
  pose proof (split_not_nil sep s). destruct (split sep s); [done|]. done.
Qed.

Lemma split_no_sep sep s : count sep s = 0%nat → split sep s = [s].
Proof.
  induction s as [|c s IH]; cbn; [done|].
  destruct (Ascii.eqb c sep); cbn; [done|]. intros Hs. by rewrite IH.
Qed.

Lemma split_app sep (a rest : string) :
  count sep a = 0%nat → split sep (a +:+ String sep rest) = a :: split sep rest.
Proof.
  induction a as [|c a IH]; simpl.
  - intros _. by rewrite Ascii.eqb_refl.
  - destruct (Ascii.eqb c sep); simpl; [done|]. intros Ha. by rewrite IH.
Qed.

Definition request_with_dashed_process : Request :=
  {| GET := {[ "process"%string := "sign-up"%string ]};
     user := 0; user_is_anonymous := true |}.

(** X9: [callback] gets back the three parts that [login] put in the
    [state] -- the process, the session's token and the application key as
    text -- exactly when none of them holds a [-]; when one does, the state
    splits into more than three parts and [callback] raises [ValueError],
    whatever else the request and the provider say. *)
Theorem state_round_trip (request : Request) (session_auth_token : option string)
    (session_badgr_app_pk : option Z) :
  let process := default "login" (GET request !! "process"%string) in
  let auth_token := format_str session_auth_token in
  let badgr_app_pk := format_pk session_badgr_app_pk in
  let state := login_state request session_auth_token session_badgr_app_pk in
  (count "-" process = 0%nat → count "-" auth_token = 0%nat →
   count "-" badgr_app_pk = 0%nat →
   unpack3 (split "-" state) = Return (process, auth_token, badgr_app_pk)) ∧
  ((count "-" process + count "-" auth_token + count "-" badgr_app_pk)%nat ≠ 0%nat →
   unpack3 (split "-" state) = Raise ValueError ∧
   ∀ get_current token_endpoint userinfo_endpoint sociallogin_from_response
     BadgrApp_objects_get set_session_badgr_app get_verified_user back,
     GET back !! "state"%string = Some state →
     callback get_current token_endpoint userinfo_endpoint sociallogin_from_response
       BadgrApp_objects_get set_session_badgr_app get_verified_user back
     = Raise ValueError).
Proof.
  cbn zeta. unfold login_state.
  set (process := default "login" (GET request !! "process"%string)).
  set (auth_token := format_str session_auth_token).
  set (badgr_app_pk := format_pk session_badgr_app_pk).
  change (process +:+ "-" +:+ auth_token +:+ "-" +:+ badgr_app_pk)
    with (process +:+ String "-" (auth_token +:+ String "-" badgr_app_pk)).
  split.
  - intros Hp Ht Hk. rewrite split_app by done. rewrite split_app by done.
    by rewrite split_no_sep.
  - intros Hdash.
    assert (unpack3 (split "-" (process +:+ String "-" (auth_token +:+ String "-" badgr_app_pk)))
            = Raise ValueError) as Hraise.
    { pose proof (length_split "-" (process +:+ String "-" (auth_token +:+ String "-" badgr_app_pk)))
        as Hlen.
      rewrite count_app in Hlen. cbn [count] in Hlen. rewrite count_app in Hlen.
      cbn [count] in Hlen. rewrite Ascii.eqb_refl in Hlen.
      destruct (split _ _) as [|a [|b [|c [|? ?]]]]; cbn in Hlen; try done; lia. }
    split; [done|]. intros. unfold callback.
    match goal with H : GET back !! _ = Some _ |- _ => rewrite H end.
    cbn. by rewrite Hraise.
Qed.

Lemma state_round_trip_witness :
  unpack3 (split "-" (login_state request_with_code (Some "abc"%string) (Some 1)))
  = Return ("login"%string, "abc"%string, "1"%string) ∧
  unpack3 (split "-" (login_state request_with_dashed_process (Some "abc"%string) (Some 1)))
  = Raise ValueError.
Proof.
  split.
  - apply (proj1 (state_round_trip request_with_code (Some "abc"%string) (Some 1)));
      reflexivity.
  - apply (proj2 (state_round_trip request_with_dashed_process (Some "abc"%string)
                    (Some 1))).
    by vm_compute.
Defined.

End SurfConextState.

(** ** [apps/staff/mixins.py], [apps/staff/permissions.py]: inheritance,
    staff selection and the object permission check *)

Module StaffInheritance.
Import Staff.

(** A Python value used as a condition. *)
Definition nonzero (v : Z) : bool := negb (v =? 0).

(** The inner loop of [get_local_staff_members]:
    [for perm in permissions: if staff.permissions[perm]: has_perms.append(perm)]. *)
Fixpoint has_perms_loop (perms : list string) (staff : StaffMembership)
    (has_perms : list string) : result (list string) :=
  match perms with
  | [] => Return has_perms
  | perm :: rest =>
      v ← getitem (permissions staff) perm;
      has_perms_loop rest staff (if nonzero v then has_perms ++ [perm] else has_perms)
  end.

(** The outer loop, [for staff in self.staff_items]. *)
Fixpoint staff_loop (items : list StaffMembership) (perms : list string)
    (selected : list StaffMembership) : result (list StaffMembership) :=
  match items with
  | [] => Return selected
  | staff :: rest =>
      has_perms ← has_perms_loop perms staff [];
      staff_loop rest perms
        (if bool_decide (length has_perms = length perms)
         then selected ++ [staff] else selected)
  end.

(** [get_local_staff_members(permissions=None)] *)
Definition get_local_staff_members (self : Entity) (perms : option (list string))
  : result (list StaffMembership) :=
  match perms with
  | Some (perm :: rest) => staff_loop (staff_items self) (perm :: rest) []
  | _ => Return (staff_items self)
  end.

(** The staff member holds every one of the permissions. *)
Definition holds_all (perms : list string) (staff : StaffMembership) : Prop :=
  Forall (fun perm => ∃ v, permissions staff !! perm = Some v ∧ v ≠ 0) perms.

#[global] Instance holds_all_dec perms staff : Decision (holds_all perms staff).
Proof.
  unfold holds_all. apply Forall_dec. intros perm.
  destruct (permissions staff !! perm) as [v|] eqn:Hv.
  - destruct (decide (v = 0)) as [->|Hne].
    + right. intros (v' & [= <-] & Hne). done.
    + left. eauto.
  - right. by intros (v' & [=] & _).
Defined.

(** What a view hands to the permission class. *)
Record View : Type := {
  permission_map : gmap string string;
  method : string
}.

(** The outcomes of [has_object_permission]: its value, or one of the
    exceptions of the dictionary code, or the [TypeError] of indexing [None]. *)
Inductive outcome : Type :=
  | Value (v : Z)
  | Thrown (e : exception)
  | TypeError.

(** [HasObjectPermission.has_object_permission] *)
Definition has_object_permission (usr : Z) (view : View) (obj : Entity) : outcome :=
  match permission_map view !! method view with
  | None => Thrown KeyError
  | Some object_permission_required_for_method =>
      match get_permissions obj usr with
      | Raise e => Thrown e
      | Return None => TypeError
      | Return (Some perms) =>
          match perms !! object_permission_required_for_method with
          | Some v => Value v
          | None => Thrown KeyError
          end
      end
  end.

(** [a] is [self] or one of its ancestors. *)
Inductive on_path (a : Entity) : Entity → Prop :=
  | on_path_self : on_path a a
  | on_path_parent items p : on_path a p → on_path a (Build_Entity items (Some p)).

(** *** Selecting staff by permissions *)

Definition holds (staff : StaffMembership) (perm : string) : Prop :=
  ∃ v, permissions staff !! perm = Some v ∧ v ≠ 0.

#[global] Instance holds_dec staff perm : Decision (holds staff perm).
Proof.
  unfold holds. destruct (permissions staff !! perm) as [v|] eqn:Hv.
  - destruct (decide (v = 0)) as [->|Hne].
    + right. intros (v' & [= <-] & Hne). done.
    + left. eauto.
  - right. by intros (v' & [=] & _).
Defined.

Lemma has_perms_loop_ok perms staff acc :
  (∀ perm, perm ∈ perms → is_Some (permissions staff !! perm)) →
  has_perms_loop perms staff acc = Return (acc ++ filter (holds staff) perms).
Proof.
  revert acc. induction perms as [|perm perms IH]; intros acc Hkeys.
  - cbn. by rewrite app_nil_r.
  - destruct (Hkeys perm) as [v Hv]; [left|].
    rewrite filter_cons. cbn [has_perms_loop]. unfold getitem. rewrite Hv.
    cbn [mbind result_bind].
    rewrite IH by (intros perm' Hin; apply Hkeys; by right).
    f_equal. unfold nonzero. destruct (Z.eqb_spec v 0) as [->|Hne]; cbn [negb].
    + rewrite decide_False; [done|]. intros (v' & Hv' & Hne). congruence.
    + rewrite decide_True by (by exists v). by rewrite <- app_assoc.
Qed.

Lemma has_perms_loop_fail perms staff acc perm :
  perm ∈ perms → permissions staff !! perm = None →
  has_perms_loop perms staff acc = Raise KeyError.
Proof.
  revert acc. induction perms as [|perm' perms IH]; intros acc Hin Hnone.
  - by apply elem_of_nil in Hin.
  - cbn. unfold getitem. destruct (permissions staff !! perm') as [v|] eqn:Hv; [|done].
    cbn. apply IH; [|done]. apply elem_of_cons in Hin as [->|Hin]; [congruence|done].
Qed.

Lemma has_perms_loop_cases perms staff acc :
  (∃ has_perms, has_perms_loop perms staff acc = Return has_perms) ∨
  has_perms_loop perms staff acc = Raise KeyError.
Proof.
  revert acc. induction perms as [|perm perms IH]; intros acc; cbn; [by left; eexists|].
  unfold getitem. destruct (permissions staff !! perm); [apply IH|by right].
Qed.

Lemma filter_length_all {A} (P : A → Prop) `{∀ x, Decision (P x)} (l : list A) :
  length (filter P l) = length l ↔ Forall P l.
Proof.
  induction l as [|x l IH]; [by split; [constructor|]|].
  rewrite filter_cons. destruct (decide (P x)) as [Hx|Hx]; cbn.
  - rewrite Forall_cons. split.
    + intros [= Hlen]. split; [done|by apply IH].
    + intros [_ Hall]. f_equal. by apply IH.
  - pose proof (length_filter P l). split; [lia|]. by intros [? _]%Forall_cons.
Qed.

Lemma staff_loop_ok items perms selected :
  (∀ staff perm, staff ∈ items → perm ∈ perms →
                 is_Some (permissions staff !! perm)) →
  staff_loop items perms selected
  = Return (selected ++ filter (holds_all perms) items).
Proof.
  revert selected. induction items as [|staff items IH]; intros selected Hkeys.
  - cbn. by rewrite app_nil_r.
  - rewrite filter_cons. cbn [staff_loop].
    rewrite has_perms_loop_ok by (intros perm Hin; apply Hkeys; [left|done]).
    cbn [mbind result_bind app].
    rewrite IH by (intros staff' perm Hs Hp; apply Hkeys; [by right|done]).
    f_equal.
    destruct (decide (holds_all perms staff)) as [Hall|Hnot].
    + rewrite bool_decide_eq_true_2 by (by apply (filter_length_all (holds staff))).
      by rewrite <- app_assoc.
    + rewrite bool_decide_eq_false_2; [done|].
      intros Hlen. apply Hnot. by apply (filter_length_all (holds staff)).
Qed.

Lemma staff_loop_fail items perms selected staff perm :
  staff ∈ items → perm ∈ perms → permissions staff !! perm = None →
  staff_loop items perms selected = Raise KeyError.
Proof.
  revert selected. induction items as [|staff' items IH]; intros selected Hs Hp Hnone.
  - by apply elem_of_nil in Hs.
  - cbn [staff_loop].
    destruct (has_perms_loop_cases perms staff' []) as [[has Hhas]|Hraise];
      [|by rewrite Hraise].
    rewrite Hhas. cbn [mbind result_bind].
    apply elem_of_cons in Hs as [->|Hs]; [|by apply IH].
    by rewrite (has_perms_loop_fail perms staff' [] perm) in Hhas.
Qed.

Definition three_staff : Entity :=
  Build_Entity
    [ {| user := 7;
         permissions := <[ "may_award"%string := 1 ]> {[ "may_read"%string := 1 ]} |};
      {| user := 8;
         permissions := <[ "may_award"%string := 0 ]> {[ "may_read"%string := 1 ]} |};
      {| user := 9;
         permissions := <[ "may_award"%string := 1 ]> {[ "may_read"%string := 1 ]} |} ]
    None.

(** X1: [get_local_staff_members] with a non-empty list of permissions
    returns, in the order of [staff_items], exactly the staff members whose
    dictionary holds a true value for every listed permission, provided every
    staff dictionary has the listed keys; one missing key on any staff member
    makes the call raise [KeyError]. *)
Theorem get_local_staff_members_selects (self : Entity) (perm : string)
    (rest : list string) :
  ((∀ staff p, staff ∈ staff_items self → p ∈ perm :: rest →
               is_Some (permissions staff !! p)) →
   get_local_staff_members self (Some (perm :: rest))
   = Return (filter (holds_all (perm :: rest)) (staff_items self))) ∧
  (∀ staff p, staff ∈ staff_items self → p ∈ perm :: rest →
              permissions staff !! p = None →
              get_local_staff_members self (Some (perm :: rest)) = Raise KeyError).
Proof.
  split.
  - intros Hkeys. unfold get_local_staff_members. by rewrite staff_loop_ok.
  - intros staff p Hs Hp Hnone. unfold get_local_staff_members.
    by eapply staff_loop_fail.
Qed.

Lemma get_local_staff_members_selects_witness :
  get_local_staff_members three_staff (Some [ "may_award"%string; "may_read"%string ])
  = Return
      [ {| user := 7;
           permissions := <[ "may_award"%string := 1 ]> {[ "may_read"%string := 1 ]} |};
        {| user := 9;
           permissions := <[ "may_award"%string := 1 ]> {[ "may_read"%string := 1 ]} |} ].
Proof.
  rewrite (proj1 (get_local_staff_members_selects three_staff "may_award"
                    [ "may_read"%string ])).
  - by vm_compute.
  - intros staff p Hs Hp. cbn in Hs.
    repeat (apply elem_of_cons in Hs as [->|Hs]); [..|by apply elem_of_nil in Hs];
      repeat (apply elem_of_cons in Hp as [->|Hp]); try (by apply elem_of_nil in Hp);
      compute_done.
Defined.

(** *** Users without a membership *)

Lemma no_membership_None self usr :
  (∀ a, on_path a self → _get_local_permissions a usr = None) →
  get_permissions self usr = Return None.
Proof.
  induction self as [items|items p IH] using Entity_parent_ind; intros Hnone.
  - rewrite get_permissions_root. f_equal. apply Hnone. constructor.
  - rewrite (get_permissions_child items p usr None).
    + cbn. apply f_equal, Hnone. constructor.
    + apply IH. intros a Ha. apply Hnone. by constructor.
Qed.

Lemma combine_loop_Return ks (l q acc r : gmap string Z) :
  combine_loop ks l q acc = Return r →
  ∀ k, k ∈ ks → is_Some (l !! k) ∧ is_Some (q !! k).
Proof.
  revert acc. induction ks as [|key ks IH]; intros acc Hrun k Hin.
  - by apply elem_of_nil in Hin.
  - destruct (l !! key) as [a|] eqn:Ha;
      [|cbn [combine_loop] in Hrun; unfold getitem in Hrun; by rewrite Ha in Hrun].
    destruct (q !! key) as [b|] eqn:Hb;
      [|cbn [combine_loop] in Hrun; unfold getitem in Hrun; by rewrite Ha, Hb in Hrun].
    rewrite (combine_loop_step _ _ _ _ _ a b Ha Hb) in Hrun.
    apply elem_of_cons in Hin as [->|Hin]; [by rewrite Ha, Hb; eauto|].
    by eapply IH.
Qed.

(** The three ways a node with a parent can return a dictionary. *)
Lemma get_permissions_child_Some items p usr r :
  get_permissions (Build_Entity items (Some p)) usr = Return (Some r) →
  ∃ parent_perms, get_permissions p usr = Return parent_perms ∧
    let local_perms := _get_local_permissions (Build_Entity items (Some p)) usr in
    (truthy parent_perms = false ∧ local_perms = Some r) ∨
    (truthy parent_perms = true ∧ truthy local_perms = false ∧ parent_perms = Some r) ∨
    (∃ l q, local_perms = Some l ∧ parent_perms = Some q ∧ l ≠ ∅ ∧ q ≠ ∅ ∧
            dom l ⊆ dom q ∧ dom r = dom l ∧
            ∀ k a b, l !! k = Some a → q !! k = Some b → r !! k = Some (Z.max a b)).
Proof.
  intros Hrun.
  destruct (get_permissions p usr) as [parent_perms|e] eqn:Hparent;
    [|by rewrite (get_permissions_child_raise _ _ _ _ Hparent) in Hrun].
  exists parent_perms. split; [done|].
  rewrite (get_permissions_child _ _ _ _ Hparent) in Hrun. cbn zeta in *.
  destruct (truthy parent_perms) eqn:Hp; cbn [negb] in Hrun;
    [|left; split; [done|congruence]].
  destruct (truthy (_get_local_permissions _ usr)) eqn:Hl; cbn [negb] in Hrun;
    [|right; left; split_and!; [done..|congruence]].
  right. right.
  destruct (_get_local_permissions _ usr) as [l|]; [|done].
  destruct parent_perms as [q|]; [|done].
  cbn [default] in Hrun. unfold id in Hrun.
  destruct (combine_loop (keys l) l q ∅) as [r'|] eqn:Hloop; [|done].
  cbn in Hrun. injection Hrun as ->.
  assert (dom l ⊆ dom q) as Hsub.
  { intros k Hk%elem_of_dom%elem_of_keys.
    apply elem_of_dom. by eapply combine_loop_Return. }
  destruct (combine_local_keys l q Hsub) as (r' & Hloop' & Hdom & Hmax & _).
  rewrite Hloop in Hloop'. injection Hloop' as <-.
  exists l, q. apply truthy_Some in Hl, Hp. done.
Qed.

Lemma result_nonempty self usr r :
  (∀ b l, on_path b self → _get_local_permissions b usr = Some l → l ≠ ∅) →
  get_permissions self usr = Return (Some r) → r ≠ ∅.
Proof.
  revert r. induction self as [items|items p IH] using Entity_parent_ind;
    intros r Hfull Hrun.
  - rewrite get_permissions_root in Hrun. injection Hrun as Hlocal.
    apply (Hfull _ _ (on_path_self _) Hlocal).
  - destruct (get_permissions_child_Some _ _ _ _ Hrun)
      as (pp & Hparent & [[_ Hlocal]|[(Hp & _ & ->)|(l & q & Hlocal & _ & Hl & _ & _ & Hdom & _)]]).
    + apply (Hfull _ _ (on_path_self _) Hlocal).
    + by apply truthy_Some.
    + intros ->. rewrite dom_empty_L in Hdom. apply Hl. apply dom_empty_iff_L. done.
Qed.

Lemma membership_not_None self usr a l :
  (∀ b l', on_path b self → _get_local_permissions b usr = Some l' → l' ≠ ∅) →
  on_path a self → _get_local_permissions a usr = Some l →
  get_permissions self usr ≠ Return None.
Proof.
  intros Hfull Hpath. revert Hfull.
  induction Hpath as [|items p Hpath IH]; intros Hfull Hlocal Hrun.
  - destruct a as [items [p|]].
    + destruct (get_permissions p usr) as [pp|e] eqn:Hparent;
        [|by rewrite (get_permissions_child_raise _ _ _ _ Hparent) in Hrun].
      rewrite (get_permissions_child _ _ _ _ Hparent) in Hrun. cbn zeta in Hrun.
      rewrite Hlocal in Hrun.
      assert (truthy (Some l) = true) as Hl
        by (apply truthy_Some; by eapply Hfull; [constructor|]).
      rewrite Hl in Hrun. cbn [negb] in Hrun.
      destruct (truthy pp) eqn:Hp; cbn [negb] in Hrun; [|done].
      by destruct (combine_loop _ _ _ _).
    + rewrite get_permissions_root in Hrun. congruence.
  - destruct (get_permissions p usr) as [pp|e] eqn:Hparent;
      [|by rewrite (get_permissions_child_raise _ _ _ _ Hparent) in Hrun].
    assert (∀ b l', on_path b p → _get_local_permissions b usr = Some l' → l' ≠ ∅)
      as Hfull' by (intros b l' Hb; apply Hfull; by constructor).
    destruct pp as [q|]; [|by apply IH].
    assert (truthy (Some q) = true) as Hq
      by (apply truthy_Some; by eapply result_nonempty).
    rewrite (get_permissions_child _ _ _ _ Hparent) in Hrun. cbn zeta in Hrun.
    rewrite Hq in Hrun. cbn [negb] in Hrun.
    destruct (truthy _); cbn [negb] in Hrun; [|done].
    by destruct (combine_loop _ _ _ _).
Qed.

Definition view_award : View :=
  {| permission_map := {[ "POST"%string := "may_award"%string ]}; method := "POST" |}.

(** X2: a user with no staff membership on a node or any of its ancestors
    gets [None] from [get_permissions], so [has_object_permission] raises
    [TypeError] instead of answering; and when no staff dictionary on the path
    is empty, [None] is returned only for such users. *)
Theorem no_membership_no_permissions (self : Entity) (usr : Z) (view : View) :
  ((∀ a, on_path a self → _get_local_permissions a usr = None) →
   get_permissions self usr = Return None ∧
   (is_Some (permission_map view !! method view) →
    has_object_permission usr view self = TypeError)) ∧
  ((∀ b l, on_path b self → _get_local_permissions b usr = Some l → l ≠ ∅) →
   get_permissions self usr = Return None →
   ∀ a, on_path a self → _get_local_permissions a usr = None).
Proof.
  split.
  - intros Hnone%no_membership_None. split; [done|]. intros [perm Hperm].
    unfold has_object_permission. by rewrite Hperm, Hnone.
  - intros Hfull Hrun a Ha.
    destruct (_get_local_permissions a usr) as [l|] eqn:Hlocal; [|done].
    by destruct (membership_not_None self usr a l).
Qed.

Lemma no_membership_no_permissions_witness :
  get_permissions staff_tree_uniform 5 = Return None ∧
  has_object_permission 5 view_award staff_tree_uniform = TypeError.
Proof.
  destruct (proj1 (no_membership_no_permissions staff_tree_uniform 5 view_award))
    as [Hnone Htype].
  - intros a Ha. repeat (inversion Ha as [|? ? Ha']; subst; [reflexivity|clear Ha; rename Ha' into Ha]).
    inversion Ha; subst. reflexivity.
  - split; [exact Hnone|]. apply Htype. by eexists.
Defined.

(** *** Inheritance *)

(** X3: when a node with a parent returns a dictionary, no local value was
    lowered by the climb, and no value of the parent's answer was lowered
    either: every local key is in the result with a value at least the local
    one, and a key of the result that the parent's answer has carries at least
    the parent's value. *)
Theorem climb_never_lowers items p usr (r : gmap string Z) :
  get_permissions (Build_Entity items (Some p)) usr = Return (Some r) →
  (∀ l k a, _get_local_permissions (Build_Entity items (Some p)) usr = Some l →
            l !! k = Some a → ∃ v, r !! k = Some v ∧ a ≤ v) ∧
  (∀ q k b v, get_permissions p usr = Return (Some q) →
              q !! k = Some b → r !! k = Some v → b ≤ v).
Proof.
  intros Hrun.
  destruct (get_permissions_child_Some _ _ _ _ Hrun)
    as (pp & Hparent & [[Hp Hlocal]|[(Hp & Hl & ->)|(l & q & Hlocal & -> & Hl & Hq & Hsub & Hdom & Hmax)]]).
  - split.
    + intros l k a Hlocal' Ha. exists a. split; [congruence|lia].
    + intros q k b v Hparent'. rewrite Hparent in Hparent'. injection Hparent' as ->.
      intros Hb. cbn in Hp. apply negb_false_iff, bool_decide_eq_true in Hp.
      subst q. by rewrite lookup_empty in Hb.
  - split.
    + intros l k a Hlocal' Ha. rewrite Hlocal' in Hl. cbn in Hl.
      apply negb_false_iff, bool_decide_eq_true in Hl. subst l.
      by rewrite lookup_empty in Ha.
    + intros q k b v Hparent'. rewrite Hparent in Hparent'. injection Hparent' as ->.
      intros Hb Hv. assert (b = v) by congruence. lia.
  - split.
    + intros l' k a Hlocal' Ha. rewrite Hlocal in Hlocal'. injection Hlocal' as <-.
      assert (is_Some (q !! k)) as [b Hb]
        by (apply elem_of_dom, Hsub, elem_of_dom; eauto).
      exists (Z.max a b). split; [by apply Hmax|lia].
    + intros q' k b v Hparent'. rewrite Hparent in Hparent'. injection Hparent' as <-.
      intros Hb Hv.
      assert (is_Some (l !! k)) as [a Ha].
      { apply elem_of_dom. rewrite <- Hdom. apply elem_of_dom. eauto. }
      rewrite (Hmax k a b Ha Hb) in Hv. injection Hv as <-. lia.
Qed.

Lemma climb_never_lowers_witness :
  ∃ v, (<[ "may_award"%string := 1 ]> {[ "may_read"%string := 1 ]} : gmap string Z)
         !! "may_award"%string = Some v ∧ 1 ≤ v.
Proof.
  refine (proj1 (climb_never_lowers
            [ {| user := 7;
                 permissions := <[ "may_award"%string := 1 ]> {[ "may_read"%string := 0 ]} |} ]
            (Build_Entity
               [ {| user := 9;
                    permissions := <[ "may_award"%string := 1 ]> {[ "may_read"%string := 1 ]} |} ]
               (Some (Build_Entity
                  [ {| user := 7;
                       permissions := <[ "may_award"%string := 0 ]> {[ "may_read"%string := 1 ]} |} ]
                  None)))
            7 (<[ "may_award"%string := 1 ]> {[ "may_read"%string := 1 ]}) _)
          (<[ "may_award"%string := 1 ]> {[ "may_read"%string := 0 ]})
          "may_award"%string 1 _ _); by vm_compute.
Defined.

Lemma spec_merge_keeps self a usr (l : gmap string Z) k v :
  on_path a self → _get_local_permissions a usr = Some l → l !! k = Some v →
  ∃ r v', spec_get_permissions self usr = Some r ∧ r !! k = Some v' ∧ v ≤ v'.
Proof.
  intros Hpath Hlocal Hk. induction Hpath as [|items p Hpath IH].
  - destruct a as [items [p|]]; cbn [spec_get_permissions]; rewrite Hlocal.
    + destruct (spec_get_permissions p usr) as [q|]; cbn [spec_merge].
      * destruct (q !! k) as [b|] eqn:Hq.
        -- eexists _, (Z.max v b). split; [done|].
           rewrite lookup_union_with, Hk, Hq. split; [done|lia].
        -- eexists _, v. split; [done|].
           rewrite lookup_union_with, Hk, Hq. split; [done|lia].
      * exists l, v. split_and!; [done..|lia].
    + exists l, v. split_and!; [done..|lia].
  - destruct IH as (r & v' & Hspec & Hr & Hle). cbn [spec_get_permissions].
    rewrite Hspec.
    destruct (_get_local_permissions (Build_Entity items (Some p)) usr) as [l'|];
      cbn [spec_merge].
    + destruct (l' !! k) as [a'|] eqn:Hl'.
      * eexists _, (Z.max a' v'). split; [done|].
        rewrite lookup_union_with, Hr, Hl'. split; [done|lia].
      * eexists _, v'. split; [done|].
        rewrite lookup_union_with, Hr, Hl'. split; [done|lia].
    + by exists r, v'.
Qed.

(** X4: with one non-empty key set on all staff dictionaries of the path,
    a permission value held by the user at the node or at any ancestor is
    inherited: [get_permissions] returns a dictionary with at least that value
    for the key, and so does [has_object_permission] for a method mapped to it. *)
Theorem permission_inherited_from_ancestor (K : gset string) (self a : Entity)
    (usr : Z) (l : gmap string Z) (k : string) (v : Z) (view : View) :
  K ≠ ∅ → uniform_keys K self →
  on_path a self → _get_local_permissions a usr = Some l → l !! k = Some v →
  (∃ r v', get_permissions self usr = Return (Some r) ∧ r !! k = Some v' ∧ v ≤ v') ∧
  (permission_map view !! method view = Some k →
   ∃ v', has_object_permission usr view self = Value v' ∧ v ≤ v').
Proof.
  intros HK Hu Hpath Hlocal Hk.
  destruct (spec_merge_keeps self a usr l k v) as (r & v' & Hspec & Hr & Hle); [done..|].
  pose proof (get_permissions_uniform K self usr HK Hu) as Hrun.
  rewrite Hspec in Hrun. split.
  - by exists r, v'.
  - intros Hperm. exists v'. split; [|done].
    unfold has_object_permission. by rewrite Hperm, Hrun, Hr.
Qed.

Lemma permission_inherited_from_ancestor_witness :
  ∃ v', has_object_permission 9 view_award staff_tree_uniform = Value v' ∧ 1 ≤ v'.
Proof.
  assert (({[ "may_award"%string; "may_read"%string ]} : gset string) ≠ ∅) as HK
    by (apply (non_empty_inhabited_L "may_read"%string); set_solver).
  assert (uniform_keys {[ "may_award"%string; "may_read"%string ]} staff_tree_uniform)
    as Hu by (cbn; repeat split; repeat constructor).
  refine (proj2 (permission_inherited_from_ancestor _ staff_tree_uniform
            (Build_Entity
               [ {| user := 9;
                    permissions := <[ "may_award"%string := 1 ]> {[ "may_read"%string := 1 ]} |} ]
               (Some (Build_Entity
                  [ {| user := 7;
                       permissions := <[ "may_award"%string := 0 ]> {[ "may_read"%string := 1 ]} |} ]
                  None)))
            9 (<[ "may_award"%string := 1 ]> {[ "may_read"%string := 1 ]})
            "may_award" 1 view_award HK Hu _ _ _) _).
  - apply on_path_parent. apply on_path_self.
  - reflexivity.
  - by vm_compute.
  - reflexivity.
Defined.

End StaffInheritance.

(** ** [apps/badgeuser/models.py]: more on addresses and variants *)

Module AccountsMore.
Import Accounts.

(** Text on which [lower] is [str.lower]: ASCII characters only. *)
Definition is_ascii (s : string) : Prop :=
  Forall (fun c => (Ascii.N_of_ascii c < 128)%N) (String.list_ascii_of_string s).

#[global] Instance is_ascii_dec s : Decision (is_ascii s).
Proof. unfold is_ascii. apply _. Defined.

(** *** Saving an address and its lower-case variant *)

Lemma emailaddressvariant_save_effect self d :
  emailaddressvariant (save_effect self d)
  = if bool_decide (emailaddressvariant_set self d = [])
       && negb (String.eqb (email self) (lower (email self)))
    then emailaddressvariant d
         ++ [ {| row_pk := next_pk (row_pk <$> emailaddressvariant d);
                 row_email := lower (email self);
                 row_canonical_email_id := pk self |} ]
    else emailaddressvariant d.
Proof. unfold save_effect. cbn. by destruct (_ && _). Qed.

Lemma save_effect_idemp self d : save_effect self (save_effect self d) = save_effect self d.
Proof.
  unfold save_effect at 1.
  assert (emailaddressvariant_set self
            (with_emailaddress (insert_or_update self) (save_effect self d))
          = emailaddressvariant_set self (save_effect self d)) as -> by done.
  assert (with_emailaddress (insert_or_update self) (save_effect self d)
          = save_effect self d) as ->.
  { unfold save_effect. cbn. destruct (_ && _); unfold with_emailaddress,
      with_emailaddressvariant; cbn; by rewrite insert_or_update_idemp. }
  destruct (bool_decide _ && _) eqn:Hcond; [|done]. exfalso.
  apply andb_true_iff in Hcond as [Hnone%bool_decide_eq_true Hcase].
  unfold emailaddressvariant_set in Hnone.
  rewrite emailaddressvariant_save_effect in Hnone.
  destruct (bool_decide (emailaddressvariant_set self d = [])) eqn:Hd; cbn in Hnone.
  - rewrite Hcase in Hnone. rewrite filter_app, filter_cons_True in Hnone by done.
    apply app_eq_nil in Hnone as [_ ?]. done.
  - apply bool_decide_eq_false in Hd. done.
Qed.

Lemma next_pk_above (keys : list Z) : Forall (fun k => k < next_pk keys) keys.
Proof.
  apply Forall_forall. intros k Hk%foldr_max_le. unfold next_pk. lia.
Qed.

Lemma next_row_pk_above (rows : list EmailAddressVariantRow) :
  Forall (fun r => row_pk r < next_pk (row_pk <$> rows)) rows.
Proof.
  apply Forall_forall. intros r Hr.
  pose proof (next_pk_above (row_pk <$> rows)) as Hall. rewrite Forall_forall in Hall.
  by apply Hall, list_elem_of_fmap_2.
Qed.

Definition mixed_case_address : EmailAddress :=
  {| pk := 4; email := "Alice@Work.example"; user_id := 1;
     primary := false; verified := false |}.

(** X5: an address with a key other than 0 and an ASCII text is saved when
    the database takes its row (its user is stored, or the row is stored with
    this user already, and no other row has its text), and refused with
    [IntegrityError], nothing written, when it does not.  A save that goes
    through writes the row and, exactly when the address has no variant yet
    and its text is not lower-case already, stores one variant (under a key
    above the stored ones) holding the lower-cased text; it sends nothing, and
    saving the same address again changes nothing more. *)
Theorem save_stores_lower_case_variant_once (self : EmailAddress) (w : World) :
  pk self ≠ 0 → is_ascii (email self) →
  (accepted self (db w) →
   ∃ w', CachedEmailAddress_save self w = (Return tt, w') ∧
         emailaddress (db w') = insert_or_update self (emailaddress (db w)) ∧
         users (db w') = users (db w) ∧
         outbox w' = outbox w ∧
         (emailaddressvariant_set self (db w) = [] → email self ≠ lower (email self) →
          ∃ k, Forall (fun v => row_pk v < k) (emailaddressvariant (db w)) ∧
               emailaddressvariant (db w')
               = emailaddressvariant (db w)
                 ++ [ {| row_pk := k; row_email := lower (email self);
                         row_canonical_email_id := pk self |} ]) ∧
         (emailaddressvariant_set self (db w) ≠ [] ∨ email self = lower (email self) →
          emailaddressvariant (db w') = emailaddressvariant (db w)) ∧
         CachedEmailAddress_save self w' = (Return tt, w')) ∧
  (¬ accepted self (db w) →
   CachedEmailAddress_save self w = (Raise IntegrityError, w)).
Proof.
  intros Hpk _. split; [|apply CachedEmailAddress_save_refused].
  intros Hok. eexists. split; [by apply CachedEmailAddress_save_spec|]. cbn.
  rewrite emailaddress_save_effect, users_save_effect, emailaddressvariant_save_effect.
  split_and!; [done..| | |].
  - intros Hnone Hcase. rewrite bool_decide_eq_true_2 by done.
    apply String.eqb_neq in Hcase. rewrite Hcase. cbn.
    eexists. split; [apply next_row_pk_above|done].
  - intros [Hsome|Hcase].
    + by rewrite bool_decide_eq_false_2.
    + apply String.eqb_eq in Hcase. rewrite Hcase. cbn. by rewrite andb_false_r.
  - rewrite CachedEmailAddress_save_spec; [|done|].
    + cbn. by rewrite save_effect_idemp.
    + cbn. eapply accepted_written; [done|]. apply emailaddress_save_effect.
Qed.

Lemma save_stores_lower_case_variant_once_witness :
  ∃ w' k, CachedEmailAddress_save mixed_case_address world_two_users = (Return tt, w') ∧
          emailaddressvariant (db w')
          = [ {| row_pk := k; row_email := "alice@work.example";
                 row_canonical_email_id := 4 |} ] ∧
          CachedEmailAddress_save mixed_case_address w' = (Return tt, w').
Proof.
  destruct (proj1 (save_stores_lower_case_variant_once mixed_case_address world_two_users
                     ltac:(done) ltac:(compute_done)))
    as (w' & Hrun & _ & _ & _ & Hadd & _ & Hagain).
  - apply accepted_new; [by eexists|].
    intros r Hr. repeat (apply elem_of_cons in Hr as [->|Hr]); [..|by apply elem_of_nil in Hr];
      compute_done.
  - destruct Hadd as (k & _ & Hrows); [done|by vm_compute|].
    exists w', k. split; [done|]. by split.
Defined.

(** *** [add_variant] *)

(** The variants of [self] that carry the text [v]. *)
Definition variants_named (self : EmailAddress) (v : string) (d : Database)
  : list EmailAddressVariantRow :=
  filter (fun r => row_email r = v) (emailaddressvariant_set self d).

Definition already_exists_message (v : string) : string :=
  "Email variant " +:+ v +:+ " already exists".

(** [EmailAddressVariant(canonical_email=self, email=v)] *)
Definition new_variant (self : EmailAddress) (v : string) : EmailAddressVariant :=
  {| variant_pk := None; variant_email := v; canonical_email := Some self;
     error := None |}.

Lemma add_variant_exists self v w :
  variants_named self v (db w) ≠ [] →
  add_variant CachedEmailAddress_save self v w
  = (Raise (ValidationError (already_exists_message v)), w).
Proof.
  intros Hsome. unfold add_variant. unfold_M. cbn.
  rewrite bool_decide_eq_false_2; [done|]. intros Hnot. apply Hsome.
  unfold variants_named. apply filter_none. intros r Hr Hv. apply Hnot.
  apply list_elem_of_fmap. exists r. split; [done|]. by apply list_elem_of_filter.
Qed.

Lemma add_variant_absent self v w :
  variants_named self v (db w) = [] →
  add_variant CachedEmailAddress_save self v w
  = EmailAddressVariant_save (new_variant self v) w.
Proof.
  intros Hnone. unfold add_variant. unfold_M. cbn.
  unfold variants_named in Hnone. rewrite Hnone.
  by rewrite bool_decide_eq_true_2 by apply not_elem_of_nil.
Qed.

Lemma variant_save_mismatch self v w :
  pk self ≠ 0 → lower (email self) ≠ lower v →
  EmailAddressVariant_save (new_variant self v) w
  = (Raise (ValidationError mismatch_message), w).
Proof.
  intros Hpk Hne.
  unfold EmailAddressVariant_save, EmailAddressVariant_save_with, is_valid,
    canonical_email_id, get_canonical_email. unfold_M. cbn.
  apply Z.eqb_neq in Hpk. rewrite Hpk. cbn.
  apply String.eqb_neq in Hne. by rewrite Hne.
Qed.

Lemma variant_save_unstored self v w :
  pk self ≠ 0 → lower (email self) = lower v →
  pk self ∉ pk <$> emailaddress (db w) →
  EmailAddressVariant_save (new_variant self v) w = (Raise IntegrityError, w).
Proof.
  intros Hpk Hlower Hnot.
  unfold EmailAddressVariant_save, EmailAddressVariant_save_with, is_valid,
    EmailAddressVariant_super_save, get_canonical_email. unfold_M. cbn.
  assert (negb (pk self =? 0) = true) as ->
    by (apply negb_true_iff, Z.eqb_neq, Hpk).
  cbn. rewrite Hlower, String.eqb_refl. cbn.
  by rewrite bool_decide_eq_true_2.
Qed.

Lemma variant_save_stores self v w :
  wf (emailaddress (db w)) → self ∈ emailaddress (db w) →
  lower (email self) = lower v →
  EmailAddressVariant_save (new_variant self v) w
  = (Return {| variant_pk := Some (next_pk (row_pk <$> emailaddressvariant (db w)));
               variant_email := v; canonical_email := Some self; error := None |},
     {| db := {| emailaddress := emailaddress (db w);
                 emailaddressvariant :=
                   emailaddressvariant (db w)
                   ++ [ {| row_pk := next_pk (row_pk <$> emailaddressvariant (db w));
                           row_email := v; row_canonical_email_id := pk self |} ];
                 users := users (db w) |};
        outbox := outbox w |}).
Proof.
  intros Hwf Hself Hlower.
  assert (pk self ≠ 0) as Hpk by (by apply (stored_row_nonzero (emailaddress (db w)))).
  unfold EmailAddressVariant_save, EmailAddressVariant_save_with, is_valid,
    EmailAddressVariant_super_save, get_canonical_email. unfold_M. cbn.
  assert (negb (pk self =? 0) = true) as ->
    by (apply negb_true_iff, Z.eqb_neq, Hpk).
  cbn. rewrite Hlower, String.eqb_refl. cbn.
  rewrite bool_decide_eq_false_2 by (intros Hnot; by apply Hnot, list_elem_of_fmap_2).
  cbn. rewrite CachedEmailAddress_save_spec; [|done|].
  2:{ apply (accepted_stored _ self); [done..|by left]. }
  cbn. do 2 f_equal. unfold save_effect. cbn.
  rewrite bool_decide_eq_false_2.
  - unfold with_emailaddress. cbn. f_equal. apply insert_or_update_stored; [apply Hwf|done].
  - unfold emailaddressvariant_set. cbn.
    rewrite filter_app, filter_cons_True by done.
    intros Hnil%app_eq_nil. by destruct Hnil.
Qed.

(** X6: [add_variant] on an address with a key other than 0 (texts in
    ASCII) refuses a text the address already has as a variant
    ([ValidationError], nothing changed) and a text that is no case variant of
    the address ([ValidationError], nothing changed).  For a case variant the
    address does not have yet, an address that has no row is refused by the
    database ([IntegrityError], nothing changed), while for a stored address
    the variant is stored under it (with a key above the stored ones) and
    returned, the addresses, users and mails staying as they are; adding the
    same text again is then refused. *)
Theorem add_variant_stores_once (self : EmailAddress) (v : string) (w : World) :
  pk self ≠ 0 → is_ascii (email self) → is_ascii v →
  (variants_named self v (db w) ≠ [] →
   add_variant CachedEmailAddress_save self v w
   = (Raise (ValidationError (already_exists_message v)), w)) ∧
  (variants_named self v (db w) = [] → lower (email self) ≠ lower v →
   add_variant CachedEmailAddress_save self v w
   = (Raise (ValidationError mismatch_message), w)) ∧
  (variants_named self v (db w) = [] → lower (email self) = lower v →
   pk self ∉ pk <$> emailaddress (db w) →
   add_variant CachedEmailAddress_save self v w = (Raise IntegrityError, w)) ∧
  (variants_named self v (db w) = [] → lower (email self) = lower v →
   wf (emailaddress (db w)) → self ∈ emailaddress (db w) →
   ∃ variant w' k,
     add_variant CachedEmailAddress_save self v w = (Return variant, w') ∧
     variant_pk variant = Some k ∧ variant_email variant = v ∧
     canonical_email variant = Some self ∧
     Forall (fun r => row_pk r < k) (emailaddressvariant (db w)) ∧
     emailaddressvariant (db w')
     = emailaddressvariant (db w)
       ++ [ {| row_pk := k; row_email := v; row_canonical_email_id := pk self |} ] ∧
     emailaddress (db w') = emailaddress (db w) ∧
     users (db w') = users (db w) ∧
     outbox w' = outbox w ∧
     add_variant CachedEmailAddress_save self v w'
     = (Raise (ValidationError (already_exists_message v)), w')).
Proof.
  intros Hpk _ _. split_and!.
  - apply add_variant_exists.
  - intros Hnone Hne. rewrite add_variant_absent by done.
    by apply variant_save_mismatch.
  - intros Hnone Hlower Hnot. rewrite add_variant_absent by done.
    by apply variant_save_unstored.
  - intros Hnone Hlower Hwf Hself. rewrite add_variant_absent by done.
    rewrite variant_save_stores by done.
    eexists _, _, _. split; [done|]. cbn.
    split_and!; [done|done|done|apply next_row_pk_above|done|done|done|done|].
    apply add_variant_exists. unfold variants_named, emailaddressvariant_set. cbn.
    rewrite filter_app, filter_cons_True by done. rewrite filter_app.
    rewrite (filter_cons_True (fun r => row_email r = v)) by done.
    intros Hnil%app_eq_nil. by destruct Hnil.
Qed.

Lemma add_variant_stores_once_witness :
  ∃ variant w' k,
    add_variant CachedEmailAddress_save
      {| pk := 1; email := "alice@example.org"; user_id := 1;
         primary := true; verified := true |}
      "ALICE@example.org" world_two_users = (Return variant, w') ∧
    emailaddressvariant (db w')
    = [ {| row_pk := k; row_email := "ALICE@example.org"; row_canonical_email_id := 1 |} ] ∧
    add_variant CachedEmailAddress_save
      {| pk := 1; email := "alice@example.org"; user_id := 1;
         primary := true; verified := true |}
      "ALICE@example.org" w'
    = (Raise (ValidationError (already_exists_message "ALICE@example.org")), w').
Proof.
  destruct (proj2 (proj2 (proj2 (add_variant_stores_once
              {| pk := 1; email := "alice@example.org"; user_id := 1;
                 primary := true; verified := true |}
              "ALICE@example.org" world_two_users
              ltac:(done) ltac:(compute_done) ltac:(compute_done)))) eq_refl eq_refl)
    as (variant & w' & k & Hrun & _ & _ & _ & _ & Hrows & _ & _ & _ & Hagain).
  - unfold wf. split_and!; compute_done.
  - compute_done.
  - exists variant, w', k. split; [done|]. split; [by rewrite Hrows|done].
Defined.

(** *** [is_valid] without [raise_exception] *)





(** *** Consistency of the two tables *)

(** Every stored variant points to a stored address, of which it is a case
    variant. *)
Definition referential (d : Database) : Prop :=
  ∀ v, v ∈ emailaddressvariant d →
       ∃ c, c ∈ emailaddress d ∧ pk c = row_canonical_email_id v ∧
            lower (email c) = lower (row_email v).

Definition consistent (d : Database) : Prop :=
  wf (emailaddress d) ∧ referential d.

(** [obj] is written over a stored row with its key and text, or is a new
    row with a positive key and a text that are not stored yet. *)
Definition writes_row (obj : EmailAddress) (rows : list EmailAddress) : Prop :=
  (∃ r, r ∈ rows ∧ pk obj = pk r ∧ email obj = email r) ∨
  (0 < pk obj ∧ (pk obj ∉ pk <$> rows) ∧ ∀ r, r ∈ rows → email r ≠ email obj).

Lemma writes_row_nonzero obj rows : wf rows → writes_row obj rows → pk obj ≠ 0.
Proof.
  intros Hwf [(r & Hr & Hpk & _)|[Hpk _]].
  - rewrite Hpk. by apply (stored_row_nonzero rows).
  - lia.
Qed.

Lemma wf_new_row rows obj :
  wf rows → 0 < pk obj → pk obj ∉ pk <$> rows → (∀ r, r ∈ rows → email r ≠ email obj) →
  insert_or_update obj rows = rows ++ [obj] ∧ wf (rows ++ [obj]).
Proof.
  intros (Hpk & Hemail & Hpos) Hobj Hnotin Hfresh.
  split; [by apply insert_or_update_notin|].
  unfold wf. rewrite !fmap_app, !NoDup_app, Forall_app. cbn.
  repeat split; try done; try apply NoDup_singleton.
  - intros k Hk ->%list_elem_of_singleton. done.
  - intros e (r & -> & Hr)%list_elem_of_fmap ?%list_elem_of_singleton.
    by apply (Hfresh r).
  - by constructor.
Qed.

Lemma save_effect_consistent obj d :
  consistent d → writes_row obj (emailaddress d) → consistent (save_effect obj d).
Proof.
  intros [Hwf Href] Hobj. split.
  - rewrite emailaddress_save_effect.
    destruct Hobj as [(r & Hr & Hpk & He)|(Hpk & Hnew & Hfresh)].
    + by apply (wf_update _ r).
    + destruct (wf_new_row (emailaddress d) obj) as [-> ?]; done.
  - intros v. rewrite emailaddressvariant_save_effect, emailaddress_save_effect.
    assert (v ∈ emailaddressvariant d →
            ∃ c, c ∈ insert_or_update obj (emailaddress d) ∧
                 pk c = row_canonical_email_id v ∧ lower (email c) = lower (row_email v))
      as Hold.
    { intros (c & Hc & Hpk & Hlow)%Href.
      destruct (decide (pk c = pk obj)) as [Heq|Hne].
      - exists obj. rewrite elem_of_insert_or_update. split; [by left|].
        split; [congruence|].
        destruct Hobj as [(r & Hr & Hpkr & He)|(_ & Hnew & _)].
        + destruct Hwf as (Hnodup & _).
          assert (c = r) as -> by (apply (NoDup_fmap_eq pk _ _ _ Hnodup); congruence).
          congruence.
        + destruct Hnew. rewrite <- Heq. by apply list_elem_of_fmap_2.
      - exists c. rewrite elem_of_insert_or_update. split; [by right|done]. }
    destruct (_ && _); [|done].
    rewrite elem_of_app, list_elem_of_singleton. intros [Hv| ->]; [by apply Hold|].
    exists obj. rewrite elem_of_insert_or_update. split; [by left|]. cbn.
    by rewrite lower_idemp.
Qed.

Lemma save_consistent obj w r w' :
  consistent (db w) → writes_row obj (emailaddress (db w)) →
  CachedEmailAddress_save obj w = (r, w') →
  consistent (db w') ∧ users (db w') = users (db w).
Proof.
  intros Hc Hobj. destruct (decide (accepted obj (db w))) as [Hok|Hno].
  - rewrite CachedEmailAddress_save_spec; [|by eapply writes_row_nonzero, Hobj; apply Hc|done].
    intros [= _ <-]. cbn. split; [by apply save_effect_consistent|].
    apply users_save_effect.
  - rewrite CachedEmailAddress_save_refused by done. by intros [= _ <-].
Qed.

Lemma delete_effect_consistent a d : consistent d → consistent (delete_effect a d).
Proof.
  intros [Hwf Href]. split; [by apply wf_filter|].
  intros v [Hv Hin]%list_elem_of_filter.
  destruct (Href v Hin) as (c & Hc & Hpk & Hlow).
  exists c. split; [|done]. apply list_elem_of_filter. split; [congruence|done].
Qed.

Lemma add_variant_consistent obj v w r w' :
  consistent (db w) → obj ∈ emailaddress (db w) →
  add_variant CachedEmailAddress_save obj v w = (r, w') → consistent (db w').
Proof.
  intros [Hwf Href] Hobj.
  assert (pk obj ≠ 0) as Hpk by (by apply (stored_row_nonzero (emailaddress (db w)))).
  destruct (decide (variants_named obj v (db w) = [])) as [Hnone|Hsome].
  - rewrite add_variant_absent by done.
    destruct (decide (lower (email obj) = lower v)) as [Hlower|Hne].
    + rewrite variant_save_stores by done. intros [= _ <-]. split; [done|].
      intros x. cbn. rewrite elem_of_app, list_elem_of_singleton.
      intros [Hx| ->]; [by apply Href|]. by exists obj.
    + rewrite variant_save_mismatch by done. by intros [= _ <-].
  - rewrite add_variant_exists by done. by intros [= _ <-].
Qed.

Section loops.
Context {A : Type} (I : World → Prop) (body : A → M unit).
Hypothesis body_keeps : ∀ x w w', I w → body x w = (Return tt, w') → I w'.

Lemma for_each_keeps items w w' :
  I w → for_each items body w = (Return tt, w') → I w'.
Proof.
  revert w. induction items as [|x items IH]; intros w Hw; cbn [for_each]; unfold_M.
  - by intros [= <-].
  - destruct (body x w) as [[[]|e] w1] eqn:Hstep; [|done].
    apply IH. by eapply body_keeps.
Qed.
End loops.

(** What the setter keeps from one step to the next. *)
Definition kept (w0 w : World) : Prop :=
  consistent (db w) ∧ users (db w) = users (db w0).

Lemma get_or_create_found email_ user primary_ w r :
  NoDup (email <$> emailaddress (db w)) → r ∈ emailaddress (db w) → email r = email_ →
  get_or_create email_ user primary_ w = (Return (r, false), w).
Proof.
  intros Hnodup Hr <-. unfold get_or_create. unfold_M. cbn.
  by rewrite (filter_unique email).
Qed.

Lemma add_or_update_keeps self d w0 w w' :
  kept w0 w → email_items_add_or_update self d w = (Return tt, w') → kept w0 w'.
Proof.
  intros [[Hwf Href] Hus].
  destruct (decide (Exists (fun r => email r = data_email d) (emailaddress (db w))))
    as [(r & Hr & He)%Exists_exists|Hnone].
  - unfold email_items_add_or_update. unfold mbind at 1. unfold M_bind at 1.
    rewrite (get_or_create_found _ _ _ _ r) by (done || apply Hwf). cbn.
    assert (∀ obj res w1, pk obj = pk r → email obj = email r →
              CachedEmailAddress_save obj w = (res, w1) → kept w0 w1) as Hsave.
    { intros obj res w1 Hpk Hemail Hrun.
      destruct (save_consistent obj w res w1) as [Hc Hu]; [done| |done|].
      - left. by exists r.
      - split; [done|congruence]. }
    destruct (user_id r =? id self).
    + intros Hrun. by eapply (Hsave (set_primary _ r)).
    + destruct (verified r); cbn; [done|]. unfold_M.
      destruct (CachedEmailAddress_save _ w) as [[[]|e] w1] eqn:Hrun; [|done].
      unfold send_confirmation. intros [= <-].
      by apply (Hsave (set_primary (get_primary_flag d) (set_user (id self) r))
                  (Return tt) w1).
  - rewrite Exists_exists in Hnone.
    assert (∀ r, r ∈ emailaddress (db w) → email r ≠ data_email d) as Hfresh
      by (intros r Hr He; apply Hnone; eauto).
    destruct (users (db w) !! id self) as [u|] eqn:Hself.
    + rewrite add_or_update_created by (done || by eexists).
      intros [= <-]. split; cbn; [|by rewrite users_save_effect].
      apply save_effect_consistent; [done|]. right. cbn.
      split; [apply next_pk_pos|]. split; [apply next_pk_fresh|done].
    + by rewrite add_or_update_no_user.
Qed.

Lemma delete_step_keeps (idx : gmap string EmailData) a w0 w w' :
  kept w0 w →
  (if bool_decide (idx !! email a = None) then CachedEmailAddress_delete a else mret tt) w
  = (Return tt, w') →
  kept w0 w'.
Proof.
  intros [Hc Hus]. case_bool_decide.
  - rewrite CachedEmailAddress_delete_spec. intros [= <-].
    split; [by apply delete_effect_consistent|done].
  - by intros [= <-].
Qed.

Lemma setter_keeps self value w w' :
  consistent (db w) → email_items_setter self value w = (Return tt, w') → kept w w'.
Proof.
  intros Hc. unfold email_items_setter.
  case_bool_decide; [done|]. case_bool_decide; [done|].
  unfold atomic. unfold_M.
  destruct (for_each value _ w) as [[[]|e] w1] eqn:Hloop; [|done]. cbn.
  destruct (for_each (cached_emails self (db w1)) _ w1) as [[[]|e] w2] eqn:Hdel; [|done].
  intros [= <-].
  eapply (for_each_keeps (kept w)); [| |exact Hdel].
  - intros a wa wb. apply delete_step_keeps.
  - eapply (for_each_keeps (kept w)); [| |exact Hloop]; [|done].
    intros d wa wb. apply add_or_update_keeps.
Qed.

Definition world_mixed_case : World :=
  {| db := {| emailaddress :=
                [ {| pk := 1; email := "Alice@Example.org"; user_id := 1;
                     primary := true; verified := true |};
                  {| pk := 2; email := "bob@example.org"; user_id := 2;
                     primary := true; verified := false |} ];
              emailaddressvariant :=
                [ {| row_pk := 1; row_email := "alice@example.org";
                     row_canonical_email_id := 1 |} ];
              users := <[1 := alice]> {[ 2 := bob ]} |};
     outbox := [] |}.

Definition value_new_mixed_case : list EmailData :=
  [ {| data_email := "Alice@Work.example"; data_primary := Some true |};
    {| data_email := "bob@example.org"; data_primary := None |} ].

(** X8: the write paths keep the two tables consistent -- keys and texts of
    the addresses unique, every variant pointing to a stored address of which
    it is a case variant --, however they end: saving an address over its
    stored row or as a new row, deleting an address (its variants go with
    it), adding a variant to a stored address, and the [email_items] setter,
    whatever list it is given; the setter also leaves the user records as
    they are. *)
Theorem writes_keep_tables_consistent (w : World) :
  consistent (db w) →
  (∀ obj r w', writes_row obj (emailaddress (db w)) →
     CachedEmailAddress_save obj w = (r, w') → consistent (db w')) ∧
  (∀ obj r w', CachedEmailAddress_delete obj w = (r, w') → consistent (db w')) ∧
  (∀ obj v r w', obj ∈ emailaddress (db w) →
     add_variant CachedEmailAddress_save obj v w = (r, w') → consistent (db w')) ∧
  (∀ self value r w', email_items_setter self value w = (r, w') →
     consistent (db w') ∧ users (db w') = users (db w)).
Proof.
  intros Hc. split_and!.
  - intros obj r w' Hobj Hrun. by destruct (save_consistent obj w r w').
  - intros obj r w'. rewrite CachedEmailAddress_delete_spec. intros [= _ <-].
    by apply delete_effect_consistent.
  - intros obj v r w'. by apply add_variant_consistent.
  - intros self value [[]|e] w' Hrun.
    + by apply (setter_keeps self value).
    + apply setter_rollback in Hrun. by rewrite Hrun.
Qed.

Lemma writes_keep_tables_consistent_witness :
  consistent (db world_mixed_case) ∧
  (email_items_setter alice value_new_mixed_case world_mixed_case).1 = Return tt ∧
  consistent (db (email_items_setter alice value_new_mixed_case world_mixed_case).2) ∧
  length (emailaddressvariant
            (db (email_items_setter alice value_new_mixed_case world_mixed_case).2))
  = 1%nat.
Proof.
  assert (consistent (db world_mixed_case)) as Hc.
  { split; [unfold wf; split_and!; compute_done|].
    intros v Hv. apply list_elem_of_singleton in Hv as ->.
    eexists. split; [left|]. by vm_compute. }
  split; [done|]. split; [by vm_compute|]. split; [|by vm_compute].
  apply (proj2 (proj2 (proj2 (writes_keep_tables_consistent world_mixed_case Hc)))
           alice value_new_mixed_case
           (email_items_setter alice value_new_mixed_case world_mixed_case).1).
  by destruct (email_items_setter _ _ _).
Defined.

End AccountsMore.

(** ** [apps/badgeuser/models.py]: the latest terms version and its cache *)

Module TermsVersions.
Import Terms.

Record TermsVersion : Type := {
  version : Z;
  is_active : bool
}.

(** [order_by('-version')] *)
Definition newest_first (a b : TermsVersion) : Prop := version b ≤ version a.

#[global] Instance newest_first_dec a b : Decision (newest_first a b).
Proof. unfold newest_first. apply _. Defined.

#[global] Instance newest_first_trans : Transitive newest_first.
Proof. unfold newest_first. intros a b c ? ?. lia. Qed.

#[global] Instance newest_first_total : Total newest_first.
Proof. unfold newest_first. intros a b. lia. Qed.

Definition active (table : list TermsVersion) : list TermsVersion :=
  filter (fun v => is_active v = true) table.

(** [TermsVersionManager.latest] *)
Definition latest (table : list TermsVersion) : result (option TermsVersion) :=
  match first_item (merge_sort newest_first (active table)) with
  | Return v => Return (Some v)
  | Raise IndexError => Return None
  | Raise e => Raise e
  end.

(** What the cache holds under [latest_version_key]. *)
Definition Cache : Type := option TermsVersion.

(** [publish_latest]: the answer and the cache it leaves. *)
Definition publish_latest (table : list TermsVersion) (cache : Cache)
  : result (option TermsVersion) * Cache :=
  match latest table with
  | Return (Some v) => (Return (Some v), Some v)
  | Return None => (Return None, cache)
  | Raise e => (Raise e, cache)
  end.

(** [cached_latest] *)
Definition cached_latest (table : list TermsVersion) (cache : Cache)
  : result (option TermsVersion) * Cache :=
  match cache with
  | None => publish_latest table cache
  | Some v => (Return (Some v), cache)
  end.

(** [latest_version] *)
Definition latest_version (table : list TermsVersion) (cache : Cache)
  : result Z * Cache :=
  match cached_latest table cache with
  | (Return (Some v), cache) => (Return (version v), cache)
  | (Return None, cache) => (Return 0, cache)
  | (Raise e, cache) => (Raise e, cache)
  end.

(** [v] is the active version with the highest number. *)
Definition newest_active (table : list TermsVersion) (v : TermsVersion) : Prop :=
  v ∈ table ∧ is_active v = true ∧
  ∀ b, b ∈ table → is_active b = true → version b ≤ version v.

Lemma latest_cases table :
  (active table = [] ∧ latest table = Return None) ∨
  (∃ v, newest_active table v ∧ latest table = Return (Some v)).
Proof.
  unfold latest.
  pose proof (merge_sort_Permutation newest_first (active table)) as Hperm.
  pose proof (StronglySorted_merge_sort newest_first (active table)) as Hsorted.
  destruct (merge_sort newest_first (active table)) as [|x s]; cbn.
  - left. split; [|done]. by apply Permutation_nil_l in Hperm.
  - right. exists x. split; [|done].
    assert (∀ a, a ∈ x :: s ↔ is_active a = true ∧ a ∈ table) as Hl
      by (intros a; rewrite Hperm; unfold active; by rewrite list_elem_of_filter).
    assert (x ∈ x :: s) as [Hx Hin]%Hl by left.
    split; [done|]. split; [done|]. intros b Hb Hact.
    assert (b ∈ x :: s) as [->|Hbs]%elem_of_cons by (by apply Hl); [done|].
    apply StronglySorted_inv in Hsorted as [_ Hall].
    rewrite Forall_forall in Hall. by apply Hall.
Qed.

Definition versions_all_retired : list TermsVersion :=
  [ {| version := 1; is_active := false |}; {| version := 2; is_active := false |} ].

(** X10: [latest_version] answers from the cache whenever the cache holds a
    version, whatever the table says; with an empty cache it answers the
    highest number among the active versions and caches that version, or
    answers 0, caching nothing, when no version is active.  [publish_latest]
    replaces the cached version by the newest active one, but leaves the cache
    as it is when no version is active -- after which [latest_version] still
    answers the number of the version cached before. *)
Theorem latest_version_follows_cache (table : list TermsVersion) (cached : TermsVersion) :
  latest_version table (Some cached) = (Return (version cached), Some cached) ∧
  ((active table = [] ∧ latest_version table None = (Return 0, None)) ∨
   (∃ v, newest_active table v ∧
         latest_version table None = (Return (version v), Some v))) ∧
  (active table = [] →
   publish_latest table (Some cached) = (Return None, Some cached) ∧
   latest_version table (publish_latest table (Some cached)).2
   = (Return (version cached), Some cached)) ∧
  (active table ≠ [] →
   ∃ v, newest_active table v ∧
        ∀ cache, publish_latest table cache = (Return (Some v), Some v) ∧
                 latest_version table (publish_latest table cache).2
                 = (Return (version v), Some v)).
Proof.
  split_and!.
  - done.
  - unfold latest_version, cached_latest, publish_latest.
    destruct (latest_cases table) as [[Hnone ->]|(v & Hv & ->)]; [by left|].
    right. by exists v.
  - intros Hnone. unfold publish_latest.
    destruct (latest_cases table) as [[_ ->]|(v & (Hv & Hact & _) & _)]; [done|].
    assert (v ∈ active table) as Hin by (by apply list_elem_of_filter).
    rewrite Hnone in Hin. by apply elem_of_nil in Hin.
  - intros Hsome. unfold publish_latest.
    destruct (latest_cases table) as [[Hnone _]|(v & Hv & ->)]; [done|].
    exists v. split; [done|]. by intros cache.
Qed.

Lemma latest_version_follows_cache_witness :
  publish_latest versions_all_retired (Some {| version := 2; is_active := true |})
  = (Return None, Some {| version := 2; is_active := true |}) ∧
  latest_version versions_all_retired
    (publish_latest versions_all_retired (Some {| version := 2; is_active := true |})).2
  = (Return 2, Some {| version := 2; is_active := true |}).
Proof.
  apply (proj1 (proj2 (proj2 (latest_version_follows_cache versions_all_retired
                                 {| version := 2; is_active := true |})))).
  reflexivity.
Defined.

End TermsVersions.

(** ** [apps/badgeuser/models.py]: the group of a user that ranks first *)

Module UserGroups.
Import Groups.

(** [entity_rank__rank__gte=0]: a rank that is [NULL] does not pass. *)
Definition rank_gte_0 (g : GroupEntity) : bool :=
  match rank g with
  | Some r => bool_decide (0 ≤ r)
  | None => false
  end.

(** [x.entity_rank.rank] of a group that passed the filter. *)
Definition sort_key (g : GroupEntity) : Z := default 0 (rank g).

(** [groups.sort(key=...)]: a stable sort, here by insertion. *)
Fixpoint insert_by_key (g : GroupEntity) (sorted : list GroupEntity)
  : list GroupEntity :=
  match sorted with
  | [] => [g]
  | x :: rest =>
      if bool_decide (sort_key g ≤ sort_key x) then g :: x :: rest
      else x :: insert_by_key g rest
  end.

Definition sort (groups : list GroupEntity) : list GroupEntity :=
  foldr insert_by_key [] groups.

(** [highest_group], from the [entity_rank] rows of the groups of the user,
    in the order the database lists the groups. *)
Definition highest_group (groups : list GroupEntity) : option GroupEntity :=
  let groups := sort (filter (fun g => rank_gte_0 g = true) groups) in
  match groups with
  | g :: _ => Some g
  | [] => None
  end.

Lemma elem_of_insert_by_key g sorted x :
  x ∈ insert_by_key g sorted ↔ x = g ∨ x ∈ sorted.
Proof.
  induction sorted as [|y sorted IH]; cbn.
  - rewrite list_elem_of_singleton. split; [by left|]. by intros [?|?%elem_of_nil].
  - case_bool_decide; rewrite !elem_of_cons; [done|]. rewrite IH. tauto.
Qed.

Lemma elem_of_sort groups x : x ∈ sort groups ↔ x ∈ groups.
Proof.
  induction groups as [|g groups IH]; cbn; [done|].
  by rewrite elem_of_insert_by_key, elem_of_cons, IH.
Qed.

(** The head of the sorted list has the least key. *)
Lemma head_insert_by_key g sorted :
  (∀ h, head sorted = Some h → ∀ x, x ∈ sorted → sort_key h ≤ sort_key x) →
  ∀ h, head (insert_by_key g sorted) = Some h →
       ∀ x, x ∈ insert_by_key g sorted → sort_key h ≤ sort_key x.
Proof.
  intros Hsorted h Hh x. rewrite elem_of_insert_by_key.
  destruct sorted as [|y rest]; cbn in *.
  - injection Hh as <-. intros [->|?%elem_of_nil]; done.
  - specialize (Hsorted y eq_refl). case_bool_decide as Hle; cbn in Hh; injection Hh as <-.
    + intros [->|Hx]; [done|]. specialize (Hsorted x Hx). lia.
    + intros [->|Hx]; [lia|]. by apply Hsorted.
Qed.

Lemma head_sort groups h :
  head (sort groups) = Some h → ∀ x, x ∈ groups → sort_key h ≤ sort_key x.
Proof.
  revert h. induction groups as [|g groups IH]; intros h; cbn; [done|].
  intros Hh x Hx. apply (head_insert_by_key g (sort groups)); [|done|].
  - intros h' Hh' y Hy. apply IH; [done|]. by apply elem_of_sort.
  - apply elem_of_insert_by_key. apply elem_of_cons in Hx as [->|Hx]; [by left|].
    right. by apply elem_of_sort.
Qed.

Lemma sort_nil groups : sort groups = [] → groups = [].
Proof.
  destruct groups as [|g groups]; [done|]. cbn. fold (sort groups).
  destruct (sort groups); cbn; [done|]. by case_bool_decide.
Qed.

Definition groups_of_a_teacher : list GroupEntity :=
  [ {| pk := Some 4; group := 40; entity_id := Some "d"%string; rank := None |};
    {| pk := Some 2; group := 20; entity_id := Some "b"%string; rank := Some 3 |};
    {| pk := Some 1; group := 10; entity_id := Some "a"%string; rank := Some 1 |} ].

(** X11: [highest_group] is [None] exactly when none of the user's groups
    has a rank (a rank of [NULL] does not count); otherwise it is one of the
    user's groups with the least rank number among the ranked ones. *)
Theorem highest_group_least_rank (groups : list GroupEntity) :
  (highest_group groups = None ↔ ∀ g, g ∈ groups → rank_gte_0 g = false) ∧
  (∀ g, highest_group groups = Some g →
        g ∈ groups ∧
        ∃ r, rank g = Some r ∧ 0 ≤ r ∧
             ∀ g' r', g' ∈ groups → rank g' = Some r' → 0 ≤ r' → r ≤ r').
Proof.
  unfold highest_group.
  set (ranked := filter (fun g => rank_gte_0 g = true) groups).
  assert (∀ g, g ∈ ranked ↔ rank_gte_0 g = true ∧ g ∈ groups) as Hranked
    by (intros g; unfold ranked; by rewrite list_elem_of_filter).
  split.
  - destruct (sort ranked) as [|h s] eqn:Hsort.
    + apply sort_nil in Hsort. split; [|done]. intros _ g Hg.
      destruct (rank_gte_0 g) eqn:Hr; [|done].
      assert (g ∈ ranked) as Hin by (by apply Hranked).
      rewrite Hsort in Hin. by apply elem_of_nil in Hin.
    + split; [done|]. intros Hnone.
      assert (h ∈ ranked) as [Hr Hin]%Hranked by (apply elem_of_sort; rewrite Hsort; left).
      by rewrite (Hnone h Hin) in Hr.
  - intros g Hg.
    assert (head (sort ranked) = Some g) as Hhead by (by destruct (sort ranked)).
    assert (g ∈ ranked) as [Hr Hin]%Hranked.
    { apply elem_of_sort. destruct (sort ranked); [done|]. injection Hhead as ->. left. }
    split; [done|]. unfold rank_gte_0 in Hr.
    destruct (rank g) as [r|] eqn:Hrank; [|done]. apply bool_decide_eq_true in Hr.
    exists r. split; [done|]. split; [done|]. intros g' r' Hg' Hrank' Hr'.
    pose proof (head_sort ranked g Hhead g') as Hle.
    unfold sort_key in Hle. rewrite Hrank, Hrank' in Hle. apply Hle, Hranked.
    split; [|done]. unfold rank_gte_0. rewrite Hrank'. by apply bool_decide_eq_true.
Qed.

Lemma highest_group_least_rank_witness :
  {| pk := Some 1; group := 10; entity_id := Some "a"%string; rank := Some 1 |}
  ∈ groups_of_a_teacher ∧
  ∃ r, Some 1 = Some r ∧ 0 ≤ r ∧
       ∀ g' r', g' ∈ groups_of_a_teacher → rank g' = Some r' → 0 ≤ r' → r ≤ r'.
Proof.
  exact (proj2 (highest_group_least_rank groups_of_a_teacher)
           {| pk := Some 1; group := 10; entity_id := Some "a"%string; rank := Some 1 |}
           eq_refl).
Defined.

End UserGroups.
